(** * pycsou: norm and indicator functionals, and the Conjugate Gradient solver

    A shallow embedding of
      - [pycsou/operator/func/norm.py]      (L1Norm, L2Norm, SquaredL2Norm,
                                             SquaredL1Norm, LInftyNorm),
      - [pycsou/operator/func/indicator.py] (L1Ball, L2Ball, LInfinityBall),
      - [pycsou/linop/base.py]              (IdentityOperator),
      - [pycsou/opt/solver/cg.py]           (CG).

    Numbers.  Array entries are idealised as real numbers ([R]): [fabs] is
    [Rabs], [fmax]/[fmin] are [Rmax]/[Rmin], [sqrt] is [sqrt].  Rounding, NaN
    and infinities are outside the model.

    Arrays.  A one-dimensional array is a [list R] (a [row]).  A batched
    array, whose leading axes index independent problems and whose innermost
    axis is the problem dimension, is the list of its rows.

    Failure.  A Python exception is a value [Raise e] of the [result] type.

    Evaluation.  The reals do not compute; on numerals the definitions are
    evaluated by unfolding and deciding the comparisons (tactic [reval]).

    Objects.  The CG solver updates its iterates in place; its arrays live
    in an object store ([heap]) and the solver state [mst] maps names to
    store locations, so that aliasing is visible. *)

From Stdlib Require Import Reals Lra Lia ClassicalEpsilon.
From stdpp Require Import base list strings gmap sorting.

Open Scope R_scope.

(** ** Exceptions and results *)

Inductive exn : Type :=
  | ValueError (msg : string)
  | KeyError (key : string)
  | IndexError (msg : string)
  | RuntimeError (msg : string).

Inductive result (A : Type) : Type :=
  | Ok (a : A)
  | Raise (e : exn).

Arguments Ok {A} a.
Arguments Raise {A} e.

Definition rbind {A B : Type} (m : result A) (k : A -> result B) : result B :=
  match m with
  | Ok a => k a
  | Raise e => Raise e
  end.

Notation "'let?' x := m 'in' k" := (rbind m (fun x => k))
  (at level 10, x name, m at level 100, k at level 200).

Abbreviation row := (list R).

#[global] Instance Rle_decision (a b : R) : Decision (a <= b) := Rle_dec a b.
#[global] Instance Rlt_decision (a b : R) : Decision (a < b) := Rlt_dec a b.

(** ** The array backend ([xp]), over the reals *)

Module xp.

Definition fabs (a : row) : row := map Rabs a.

Definition sign1 (v : R) : R :=
  if Rlt_dec 0 v then 1 else if Rlt_dec v 0 then -1 else 0.

Definition sign (a : row) : row := map sign1 a.

(** Reduction [xp.sum]. *)
Definition sum (a : row) : R := fold_right Rplus 0 a.

(** Reduction [xp.max]: numpy refuses an empty array. *)
Definition max (a : row) : result R :=
  match a with
  | [] => Raise (ValueError
            "zero-size array to reduction operation maximum which has no identity")
  | v :: a' => Ok (fold_left Rmax a' v)
  end.

(** [xp.max] on an integer index array, as returned by [xp.nonzero]. *)
Definition max_index (a : list nat) : result nat :=
  match a with
  | [] => Raise (ValueError
            "zero-size array to reduction operation maximum which has no identity")
  | v :: a' => Ok (fold_left Nat.max a' v)
  end.

(** [xp.sort]: ascending. *)
Definition sort (a : row) : row := merge_sort Rle a.

(** [a[::-1]]. *)
Definition flip (a : row) : row := reverse a.

Fixpoint cumsum_from (acc : R) (a : row) : row :=
  match a with
  | [] => []
  | v :: a' => (acc + v) :: cumsum_from (acc + v) a'
  end.

(** [xp.cumsum]. *)
Definition cumsum (a : row) : row := cumsum_from 0 a.

(** [xp.arange(n)]. *)
Definition arange (n : nat) : row := map INR (seq 0 n).

(** [xp.nonzero(mask)[0]]: the indices of the true entries, ascending. *)
Fixpoint nonzero_from (i : nat) (mask : list bool) : list nat :=
  match mask with
  | [] => []
  | b :: mask' =>
      if b then i :: nonzero_from (S i) mask' else nonzero_from (S i) mask'
  end.

Definition nonzero (mask : list bool) : list nat := nonzero_from 0 mask.

(** [a > 0], elementwise. *)
Definition gt0 (a : row) : list bool :=
  map (fun v => if Rlt_dec 0 v then true else false) a.

(** [a[i]] for a non-negative index. *)
Definition getitem (a : row) (i : nat) : result R :=
  match a !! i with
  | Some v => Ok v
  | None => Raise (IndexError "index out of bounds")
  end.

(** Norm orders used by the library. *)
Inductive ord : Type := ord1 | ord2.

(** [xp.linalg.norm(a, ord)] along the innermost axis (default [ord=2]). *)
Definition linalg_norm (o : ord) (a : row) : R :=
  match o with
  | ord1 => sum (fabs a)
  | ord2 => sqrt (sum (map (fun v => v * v) a))
  end.

End xp.

(** ** The root finder [scipy.optimize.brentq], over the reals

    [brentq(f, a, b)] evaluates [f] at both ends of the bracket.  It raises
    [ValueError] when [f(a)] and [f(b)] have the same strict sign, returns
    an end point at which [f] vanishes, and otherwise returns a root of [f]
    inside the bracket.  The iteration and its tolerances are idealised: the
    value returned is an exact root, whenever the bracket holds one (for a
    continuous [f] it always does). *)

Module scipy_optimize.

Definition between (a b r : R) : Prop := Rmin a b <= r <= Rmax a b.

Definition has_root (f : R -> R) (a b : R) : Prop :=
  exists r, between a b r /\ f r = 0.

Definition sign_error : exn :=
  ValueError "f(a) and f(b) must have different signs".

Definition brentq (f : R -> R) (a b : R) : result R :=
  if Rlt_dec 0 (f a * f b) then Raise sign_error
  else if Req_dec_T (f a) 0 then Ok a
  else if Req_dec_T (f b) 0 then Ok b
  else match excluded_middle_informative (has_root f a b) with
       | left H => Ok (proj1_sig (constructive_indefinite_description _ H))
       | right _ => Raise (RuntimeError "Failed to converge")
       end.

End scipy_optimize.

(** ** math/linalg.py *)

Module pylinalg.

(** Modelled from the spec: [pycsou.math.linalg.norm] is not among the
    sources.  It is the norm of the array backend, here along the innermost
    axis: the sum of the absolute values for [ord=1], the square root of
    the sum of the squares for [ord=2] (the default). *)
Definition norm (o : xp.ord) (arr : row) : R := xp.linalg_norm o arr.

End pylinalg.

(** ** norm.py *)

Module L1Norm.

(** [pylinalg.norm(arr, ord=1, axis=-1, keepdims=True)]: the innermost
    axis is reduced and kept with size one. *)
Definition apply (arr : row) : row := [pylinalg.norm xp.ord1 arr].

(** [y = xp.fmax(0, xp.fabs(arr) - tau); y *= xp.sign(arr)]. *)
Definition prox (arr : row) (tau : R) : row :=
  let y := map (fun v => Rmax 0 (v - tau)) (xp.fabs arr) in
  zip_with Rmult y (xp.sign arr).

End L1Norm.

Module L2Norm.

(** [pylinalg.norm(arr, ord=2, axis=-1, keepdims=True)]. *)
Definition apply (arr : row) : row := [pylinalg.norm xp.ord2 arr].

(** [scale = 1 - tau / xp.fmax(self.apply(arr), tau); y = arr.copy();
    y *= scale]: [scale] has one entry and is broadcast over [y]. *)
Definition prox (arr : row) (tau : R) : row :=
  let scale := 1 - tau / Rmax (pylinalg.norm xp.ord2 arr) tau in
  map (fun v => v * scale) arr.

End L2Norm.

(** Modelled from the spec: [IdentityOp] ([pycsou.operator.linop]) and the
    method [squeeze] ([pycsou.abc]) are not among the sources.  The operators
    [SquaredL2Norm._hessian] builds from them are kept as constructors, with
    the action the specification gives the Hessian of the squared l2 norm:
    the identity operator of the stated dimension. *)
Inductive OpT : Type :=
  | IdentityOp (dim : nat)
  | squeeze (op : OpT).

Fixpoint OpT_dim (op : OpT) : nat :=
  match op with
  | IdentityOp dim => dim
  | squeeze op' => OpT_dim op'
  end.

Fixpoint OpT_apply (op : OpT) (arr : row) : row :=
  match op with
  | IdentityOp _ => arr
  | squeeze op' => OpT_apply op' arr
  end.

Definition newline : string := String (Ascii.ascii_of_nat 10) EmptyString.

Module SquaredL2Norm.

(** [repr] of the class, as [f"{self.__class__}"] prints it. *)
Definition class_repr : string :=
  "<class 'pycsou.operator.func.norm.SquaredL2Norm'>".

(** [y = pylinalg.norm(arr, axis=-1, keepdims=True); y **= 2]. *)
Definition apply (arr : row) : row := [pylinalg.norm xp.ord2 arr ^ 2].

Definition grad (arr : row) : row := map (fun v => 2 * v) arr.

(** [y = arr.copy(); y /= 2 * tau + 1]. *)
Definition prox (arr : row) (tau : R) : row :=
  map (fun v => v / (2 * tau + 1)) arr.

Definition _hessian (dim : option nat) : result OpT :=
  match dim with
  | None =>
      let msg := String.concat newline
        [ "hessian: domain-agnostic functionals unsupported.";
          String.append "Explicitly set `dim` in "
            (String.append class_repr ".__init__().") ] in
      Raise (ValueError msg)
  | Some d => Ok (squeeze (IdentityOp d))
  end.

End SquaredL2Norm.

Module SquaredL1Norm.

(** [y = pylinalg.norm(arr, ord=1, axis=-1, keepdims=True); y **= 2]. *)
Definition apply (arr : row) : row := [pylinalg.norm xp.ord1 arr ^ 2].

Definition mu_min : R := 1 / 10 ^ 12.

(** [lambda mu: xp.sum(xp.fmax(xp.fabs(arr) * xp.sqrt(tau / mu) - 2 * tau, 0)) - 1] *)
Definition root_func (arr : row) (tau : R) (mu : R) : R :=
  xp.sum (map (fun v => Rmax (v * sqrt (tau / mu) - 2 * tau) 0) (xp.fabs arr)) - 1.

Definition _prox_root (arr : row) (tau : R) : result row :=
  if Rlt_dec 0 (xp.linalg_norm xp.ord2 arr) then
    let? m := xp.max (map (fun v => v ^ 2) (xp.fabs arr)) in
    let mu_max := m / (4 * tau) in
    let func := root_func arr tau in
    let? mu_star := scipy_optimize.brentq func mu_min mu_max in
    let lambda_ :=
      map (fun v => Rmax (v * sqrt (tau / mu_star) - 2 * tau) 0) (map Rabs arr) in
    Ok (zip_with Rdiv (zip_with Rmult lambda_ arr)
                      (map (fun l => l + 2 * tau) lambda_))
  else Ok arr.

(** [2 * tau / (1 + (i + 1) * 2 * tau)], the factor applied to the
    cumulative sum at index [i]. *)
Definition coef (tau : R) (i : R) : R := 2 * tau / (1 + (i + 1) * 2 * tau).

(** The decorator [pycam.redirect] sends lazily evaluated (dask) arrays
    to [_prox_root]; the arrays here are in memory, for which the body
    below runs. *)
Definition _prox_sort (arr : row) (tau : R) : result row :=
  let z := xp.flip (xp.sort (map Rabs arr)) in
  let cumsum_z := xp.cumsum z in
  let test_array :=
    zip_with Rminus z
      (zip_with Rmult (map (coef tau) (xp.arange (length z))) cumsum_z) in
  let? max_nzi := xp.max_index (xp.nonzero (xp.gt0 test_array)) in
  let? c := xp.getitem cumsum_z max_nzi in
  let threshold := coef tau (INR max_nzi) * c in
  let y := map (fun v => Rmax 0 (v - threshold)) (xp.fabs arr) in
  Ok (zip_with Rmult y (xp.sign arr)).

End SquaredL1Norm.

Module LInftyNorm.

(** [xp.max(xp.fabs(arr), axis=-1)]. *)
Definition apply (arr : row) : result R := xp.max (xp.fabs arr).

(** [lambda mu: xp.sum(xp.fmax(xp.fabs(arr) - mu, 0)) - tau] *)
Definition root_func (arr : row) (tau : R) (mu : R) : R :=
  xp.sum (map (fun v => Rmax (v - mu) 0) (xp.fabs arr)) - tau.

Definition prox (arr : row) (tau : R) : result row :=
  let? mu_max := apply arr in
  let func := root_func arr tau in
  let? mu_star := scipy_optimize.brentq func 0 mu_max in
  let y := map (fun v => Rmin v mu_star) (xp.fabs arr) in
  Ok (zip_with Rmult y (xp.sign arr)).

End LInftyNorm.

(** ** indicator.py *)

(** Values of an indicator function: [0] or [+inf]. *)
Inductive extended : Type :=
  | finite (v : R)
  | infinity.

Module L1Ball.

Definition apply (radius : R) (arr : row) : list extended :=
  if Rle_dec (pylinalg.norm xp.ord1 arr) radius then [finite 0] else [infinity].

(** [lambda mu: xp.sum(xp.fmax(xp.fabs(arr) - mu, 0)) - self._radius] *)
Definition root_func (radius : R) (arr : row) (mu : R) : R :=
  xp.sum (map (fun v => Rmax (v - mu) 0) (xp.fabs arr)) - radius.

Definition prox (radius : R) (arr : row) (tau : R) : result row :=
  if Rle_dec (pylinalg.norm xp.ord1 arr) radius then Ok arr
  else
    let? mu_max := xp.max (xp.fabs arr) in
    let func := root_func radius arr in
    let? mu_star := scipy_optimize.brentq func 0 mu_max in
    let y := map (fun v => Rmax 0 (v - mu_star)) (xp.fabs arr) in
    Ok (zip_with Rmult y (xp.sign arr)).

End L1Ball.

Module L2Ball.

Definition apply (radius : R) (arr : row) : list extended :=
  if Rle_dec (xp.linalg_norm xp.ord2 arr) radius then [finite 0] else [infinity].

Definition prox (radius : R) (arr : row) (tau : R) : row :=
  let arr_norm := xp.linalg_norm xp.ord2 arr in
  if Rle_dec arr_norm radius then arr
  else map (fun v => radius * v / arr_norm) arr.

End L2Ball.

Module LInfinityBall.

Definition apply (radius : R) (arr : row) : result (list extended) :=
  let? m := xp.max (xp.fabs arr) in
  if Rle_dec m radius then Ok [finite 0] else Ok [infinity].

Definition prox (radius : R) (arr : row) (tau : R) : result row :=
  let? m := xp.max (xp.fabs arr) in
  if Rle_dec m radius then Ok arr
  else
    let y := map (fun v => Rmin v radius) (xp.fabs arr) in
    Ok (zip_with Rmult y (xp.sign arr)).

End LInfinityBall.

(** ** Specification-side notions *)

(** Sum of [f i] for [i < n]. *)
Fixpoint big_sum (n : nat) (f : nat -> R) : R :=
  match n with
  | O => 0
  | S n' => big_sum n' f + f n'
  end.

(** Entry [i] of a row (zero outside). *)
Definition entry (a : row) (i : nat) : R := nth i a 0.

(** Soft-thresholding of one entry, [sign(v) * max(0, |v| - t)]. *)
Definition soft (t v : R) : R := xp.sign1 v * Rmax 0 (Rabs v - t).

(** Soft-thresholding of a row. *)
Definition soft_threshold (t : R) (x : row) : row := map (soft t) x.

(** *** The sort-based prox of the squared l1 norm, step by step

    The steps as the specification words them: sort [|x|] in descending
    order into [z], form the cumulative sums, take the largest index [k] at
    which the test value [z_k - (2 tau / (1 + (k+1) 2 tau)) * cumsum_k] is
    strictly positive, set the threshold to
    [(2 tau / (1 + (k+1) 2 tau)) * cumsum_k] and soft-threshold [x] there. *)

Module SortSteps.

Definition descending (z : row) : Prop :=
  forall i j, (i <= j < length z)%nat -> entry z j <= entry z i.

Definition factor (tau : R) (k : nat) : R :=
  2 * tau / (1 + (INR k + 1) * (2 * tau)).

Definition cumulative (z : row) (k : nat) : R := big_sum (S k) (entry z).

Definition test_value (tau : R) (z : row) (k : nat) : R :=
  entry z k - factor tau k * cumulative z k.

Definition threshold (tau : R) (z : row) (k : nat) : R :=
  factor tau k * cumulative z k.

Definition last_positive (tau : R) (z : row) (k : nat) : Prop :=
  (k < length z)%nat /\ 0 < test_value tau z k /\
  forall j, (k < j < length z)%nat -> ~ 0 < test_value tau z j.

Definition prox_sort_steps (x : row) (tau : R) (y : row) : Prop :=
  exists (z : row) (k : nat),
    z ≡ₚ map Rabs x /\ descending z /\ last_positive tau z k /\
    y = soft_threshold (threshold tau z k) x.

End SortSteps.

(** A row with at least one non-zero entry. *)
Definition nonzero_row (x : row) : Prop := Exists (fun v => v <> 0) x.

(** The total excess of [|x|] over a level [t], [sum(max(|x| - t, 0))]. *)
Definition excess (x : row) (t : R) : R :=
  xp.sum (map (fun v => Rmax (v - t) 0) (xp.fabs x)).

(** ** Objects: the store of arrays

    A batched array is the list of its rows (the leading axes flattened).
    An in-place update ([x += ...]) rewrites the object at a location; two
    names bound to one location see the same update. *)

Abbreviation array := (list row).
Abbreviation loc := nat.
Abbreviation heap := (list array).

(** Computations that read and update the store, or raise. *)
Definition M (A : Type) : Type := heap -> result (A * heap).

#[global] Instance M_ret : MRet M := fun A a h => Ok (a, h).

#[global] Instance M_bind : MBind M := fun A B k m h =>
  match m h with
  | Ok (a, h') => k a h'
  | Raise e => Raise e
  end.

Definition raise {A : Type} (e : exn) : M A := fun _ => Raise e.

Definition lift {A : Type} (r : result A) : M A := fun h =>
  match r with
  | Ok a => Ok (a, h)
  | Raise e => Raise e
  end.

(** A fresh object. *)
Definition alloc (v : array) : M loc := fun h => Ok (length h, h ++ [v]).

(** The value of an object. *)
Definition load (l : loc) : M array := fun h =>
  match h !! l with
  | Some v => Ok (v, h)
  | None => Raise (RuntimeError "dangling reference")
  end.

(** Overwriting an object in place. *)
Definition store (l : loc) (v : array) : M unit := fun h => Ok (tt, <[l := v]> h).

(** [d[key]] on a dict of references. *)
Definition dict_get (d : gmap string loc) (key : string) : M loc :=
  match d !! key with
  | Some l => mret l
  | None => raise (KeyError key)
  end.

(** *** Batched arithmetic, with numpy's shape discipline

    Operands of one shape combine entry by entry; a column of per-row
    scalars (shape [(..., 1)], here a [row] with one scalar per batch row)
    combines with an array of as many rows.  Other shapes raise. *)

Module np.

Definition shape (a : array) : list nat := map length a.

Definition broadcast_error : exn :=
  ValueError "operands could not be broadcast together".

Definition binop (f : R -> R -> R) (a b : array) : result array :=
  if decide (shape a = shape b) then Ok (zip_with (zip_with f) a b)
  else Raise broadcast_error.

(** [col * a]: each row of [a] scaled by its own scalar. *)
Definition scale (col : row) (a : array) : result array :=
  if decide (length col = length a)
  then Ok (zip_with (fun c r => map (fun v => c * v) r) col a)
  else Raise broadcast_error.

(** [a * col]: as [scale], with the scalar on the right. *)
Definition scale_r (a : array) (col : row) : result array :=
  if decide (length col = length a)
  then Ok (zip_with (fun r c => map (fun v => v * c) r) a col)
  else Raise broadcast_error.

(** Entrywise operation on two columns. *)
Definition colop (f : R -> R -> R) (c d : row) : result row :=
  if decide (length c = length d) then Ok (zip_with f c d)
  else Raise broadcast_error.

(** [a.sum(axis=-1, keepdims=True)]. *)
Definition sum_rows (a : array) : row := map xp.sum a.

(** [xp.linalg.norm(a, ord=o, axis=-1, keepdims=True)]. *)
Definition norm_rows (o : xp.ord) (a : array) : row := map (xp.linalg_norm o) a.

(** [col ** 2]. *)
Definition square (col : row) : row := map (fun v => v ^ 2) col.

(** [xp.zeros_like(a)]. *)
Definition zeros_like (a : array) : array := map (fun r => map (fun _ => 0) r) a.

End np.

(** In-place [target op= v]: the result must have the shape of the target. *)
Definition inplace (f : R -> R -> R) (target : loc) (v : array) : M unit :=
  t ← load target;
  t' ← lift (np.binop f t v);
  store target t'.

(** In-place [target *= col] for a column of per-row scalars. *)
Definition inplace_scale (target : loc) (col : row) : M unit :=
  t ← load target;
  t' ← lift (np.scale_r t col);
  store target t'.

(** ** linop/base.py and the operators given to the solver *)

(** An operator, seen through [apply]: from the location of its argument
    to the location of its result. *)
Record PosDefOp : Type := { op_apply : loc -> M loc }.

(** [IdentityOperator.apply]: [return arr], the argument itself. *)
Definition IdentityOperator : PosDefOp := {| op_apply := fun arr => mret arr |}.

(** An operator that applies a map [A] to every row and returns a new
    array. *)
Definition RowOperator (A : row -> row) : PosDefOp :=
  {| op_apply := fun arr => v ← load arr; alloc (map A v) |}.

(** [op] computes [A] along the innermost axis: its result holds [A] of
    every row of its argument, it is a new object or the argument itself,
    and no existing object is modified. *)
Definition computes (op : PosDefOp) (A : row -> row) : Prop :=
  forall (h : heap) (l : loc) (v : array),
    h !! l = Some v ->
    exists l' h',
      op_apply op l h = Ok (l', h') /\
      h' !! l' = Some (map A v) /\
      (l' = l \/ (length h <= l')%nat) /\
      forall k w, h !! k = Some w -> h' !! k = Some w.

(** ** opt/stop.py *)

(** Modelled from the spec: the stopping criterion [pycsou.opt.stop.AbsError]
    is not among the sources.  The specification has it declare convergence
    when the norm of the tracked quantity [f(state[var])] falls below the
    absolute tolerance [eps]; the norm is taken along the innermost axis,
    and [satisfy_all] asks for every batch row (rather than some row) to
    meet the tolerance. *)
Record AbsError : Type := {
  eps : R;
  var : string;
  f : option (loc -> M loc);
  norm : xp.ord;
  satisfy_all : bool }.

Definition below (o : xp.ord) (eps : R) (r : row) : bool :=
  bool_decide (xp.linalg_norm o r < eps).

Definition AbsError_stop (c : AbsError) (state : gmap string loc) : M bool :=
  x ← dict_get state (var c);
  y ← match f c with
      | Some g => g x
      | None => mret x
      end;
  v ← load y;
  mret (if satisfy_all c then forallb (below (norm c) (eps c)) v
        else existsb (below (norm c) (eps c)) v).

(** ** opt/solver/cg.py *)

Module CG.

Section solver.

(** [self._A] and [self._mstate]. *)
Variable _A : PosDefOp.

(** [m_init(b, x0)]: [b] and [x0] are references to the caller's
    arrays.  A given [x0] has the shape of [b]: numpy's stretching of a
    smaller [x0] against [b] is outside [np.binop], which raises there. *)
Definition m_init (mst : gmap string loc) (b : loc) (x0 : option loc)
  : M (gmap string loc) :=
  let mst := <["b" := b]> mst in
  vb ← load b;
  x ← match x0 with
      | None => alloc (np.zeros_like vb)
      | Some x0 => mret x0
      end;
  let mst := <["x" := x]> mst in
  residual ← alloc (np.zeros_like vb);
  let mst := <["residual" := residual]> mst in
  Ax ← op_apply _A x;
  vAx ← load Ax;
  diff ← lift (np.binop Rminus vb vAx);
  (* mst["residual"][:] = b - A.apply(x) *)
  zero ← load residual;
  _ ← (if decide (np.shape zero = np.shape diff) then store residual diff
       else raise np.broadcast_error);
  vr ← load residual;
  conjugate_dir ← alloc vr;
  mret (<["conjugate_dir" := conjugate_dir]> mst).

Definition m_step (mst : gmap string loc) : M (gmap string loc) :=
  x ← dict_get mst "x";
  r ← dict_get mst "residual";
  p ← dict_get mst "conjugate_dir";
  Ap ← op_apply _A p;
  vr ← load r;
  let rr := np.square (np.norm_rows xp.ord2 vr) in
  vp ← load p;
  vAp ← load Ap;
  pAp ← lift (np.binop Rmult vp vAp);
  alpha ← lift (np.colop Rdiv rr (np.sum_rows pAp));
  (* x += alpha * p *)
  alpha_p ← lift (np.scale alpha vp);
  _ ← inplace Rplus x alpha_p;
  (* r -= alpha * Ap *)
  vAp ← load Ap;
  alpha_Ap ← lift (np.scale alpha vAp);
  _ ← inplace Rminus r alpha_Ap;
  (* beta = norm(r) ** 2 / rr *)
  vr ← load r;
  beta ← lift (np.colop Rdiv (np.square (np.norm_rows xp.ord2 vr)) rr);
  (* p *= beta; p += r *)
  _ ← inplace_scale p beta;
  vr ← load r;
  _ ← inplace Rplus p vr;
  mret (<["x" := x]> (<["residual" := r]> (<["conjugate_dir" := p]> mst))).

(** The closure [explicit_residual] of [default_stop_crit]; it reads
    [self._mstate] when called. *)
Definition explicit_residual (mst : gmap string loc) (x : loc) : M loc :=
  b ← dict_get mst "b";
  vb ← load b;
  residual ← alloc vb;
  Ax ← op_apply _A x;
  vAx ← load Ax;
  _ ← inplace Rminus residual vAx;
  mret residual.

Definition default_stop_crit (mst : gmap string loc) : AbsError :=
  {| eps := 1 / 10 ^ 4;
     var := "x";
     f := Some (explicit_residual mst);
     norm := xp.ord2;
     satisfy_all := true |}.

End solver.

End CG.

(** *** The classic recurrence, row by row *)

Module Recurrence.

Section recurrence.

Variable A : row -> row.

Definition dot (u v : row) : R := xp.sum (zip_with Rmult u v).

Definition norm_sq (u : row) : R := xp.linalg_norm xp.ord2 u ^ 2.

Definition axpy (c : R) (u v : row) : row :=
  zip_with (fun ui vi => ui + c * vi) u v.

Definition alpha (r p : row) : R := norm_sq r / dot p (A p).

Definition x_new (x r p : row) : row := axpy (alpha r p) x p.

Definition r_new (r p : row) : row :=
  zip_with (fun ri qi => ri - alpha r p * qi) r (A p).

Definition beta (r p : row) : R := norm_sq (r_new r p) / norm_sq r.

Definition p_new (r p : row) : row := axpy (beta r p) (r_new r p) p.

(** One step on every row of a batch. *)
Definition rows3 (g : row -> row -> row -> row) (X Rs P : array) : array :=
  zip_with (fun x rp => g x rp.1 rp.2) X (zip Rs P).

Definition X_new (X Rs P : array) : array := rows3 x_new X Rs P.
Definition R_new (X Rs P : array) : array := rows3 (fun _ => r_new) X Rs P.
Definition P_new (X Rs P : array) : array := rows3 (fun _ => p_new) X Rs P.

End recurrence.

End Recurrence.

(** The arrays [m_step] computes from the values [X], [Rs], [P] of the
    iterates and [AP] of [A.apply(p)], in the order it computes them. *)

Module StepValues.

Definition alpha (Rs P AP : array) : row :=
  zip_with Rdiv (np.square (np.norm_rows xp.ord2 Rs))
                (np.sum_rows (zip_with (zip_with Rmult) P AP)).

Definition scaled (col : row) (a : array) : array :=
  zip_with (fun c r => map (fun v => c * v) r) col a.

Definition x_after (X Rs P AP : array) : array :=
  zip_with (zip_with Rplus) X (scaled (alpha Rs P AP) P).

Definition r_after (Rs P AP : array) : array :=
  zip_with (zip_with Rminus) Rs (scaled (alpha Rs P AP) AP).

Definition beta (Rs P AP : array) : row :=
  zip_with Rdiv (np.square (np.norm_rows xp.ord2 (r_after Rs P AP)))
                (np.square (np.norm_rows xp.ord2 Rs)).

Definition p_after (Rs P AP : array) : array :=
  zip_with (zip_with Rplus)
    (zip_with (fun r c => map (fun v => v * c) r) P (beta Rs P AP))
    (r_after Rs P AP).

End StepValues.

(** Clipping of one entry to magnitude [t], [sign(v) * min(|v|, t)]. *)
Definition clip (t v : R) : R := xp.sign1 v * Rmin (Rabs v) t.

(** ** The constants set by the constructors *)

Module Lipschitz.

(** [L1Norm.__init__]: [self._lipschitz] is [np.inf] for a domain-agnostic
    functional and [np.sqrt(dim)] otherwise. *)
Definition L1Norm (dim : option nat) : extended :=
  match dim with
  | None => infinity
  | Some d => finite (sqrt (INR d))
  end.

(** [L2Norm.__init__]: [self._lipschitz = 1]. *)
Definition L2Norm : R := 1.

(** [SquaredL2Norm.__init__]: [self._diff_lipschitz = 2]. *)
Definition SquaredL2Norm_diff : R := 2.

(** [LInftyNorm.__init__]: as for [L1Norm]. *)
Definition LInftyNorm (dim : option nat) : extended :=
  match dim with
  | None => infinity
  | Some d => finite (sqrt (INR d))
  end.

End Lipschitz.

(** [a <= c * b] for a constant [c] that may be [+inf] (then no bound). *)
Definition bounded_by (c : extended) (a b : R) : Prop :=
  match c with
  | finite k => a <= k * b
  | infinity => True
  end.

(** ** linop/base.py: [ExplicitLinFunc] *)

(** [u * v] for one-dimensional arrays, with numpy's broadcasting: equal
    sizes combine entry by entry, a size-one array is stretched, other
    sizes raise. *)
Definition broadcast_multiply (u v : row) : result row :=
  if decide (length u = length v) then Ok (zip_with Rmult u v)
  else match u, v with
       | [c], _ => Ok (map (fun w => c * w) v)
       | _, [c] => Ok (map (fun w => w * c) u)
       | _, _ => Raise np.broadcast_error
       end.

(** [xp.broadcast_to(u, (n,))] for a one-dimensional [u]. *)
Definition broadcast_to (u : row) (n : nat) : result row :=
  if decide (length u = n) then Ok u
  else match u with
       | [c] => Ok (replicate n c)
       | _ => Raise np.broadcast_error
       end.

Module ExplicitLinFunc.

Record t : Type := {
  shape : nat * nat;
  _vec : row;
  _lipschitz : R;
  _diff_lipschitz : R }.

(** [__init__(vec)]: shape [(1, vec.size)], [_vec] the flattened copy of
    [vec], [_lipschitz = xp.linalg.norm(vec)], [_diff_lipschitz = 0]. *)
Definition __init__ (vec : row) : t :=
  {| shape := (1%nat, length vec);
     _vec := vec;
     _lipschitz := xp.linalg_norm xp.ord2 vec;
     _diff_lipschitz := 0 |}.

(** [(self._vec * arr).sum(axis=-1)]. *)
Definition apply (self : t) (arr : row) : result R :=
  let? prod := broadcast_multiply (_vec self) arr in
  Ok (xp.sum prod).

(** [arr * self._vec]. *)
Definition adjoint (self : t) (arr : row) : result row :=
  broadcast_multiply arr (_vec self).

(** [xp.broadcast_to(self._vec, arr.shape)]. *)
Definition gradient (self : t) (arr : row) : result row :=
  broadcast_to (_vec self) (length arr).

End ExplicitLinFunc.

(** A map on rows that is linear. *)
Definition linear (A : row -> row) : Prop :=
  forall (c : R) (u v : row), length u = length v ->
    A (Recurrence.axpy c u v) = Recurrence.axpy c (A u) (A v).

(** ** pycsou_tests/operator/examples/test_proxfunc.py *)

Module TestProxFunc.

(** The reference functional [L1Norm] that the test file defines. *)
Module L1Norm.

(** [xp.linalg.norm(arr, ord=1, axis=-1, keepdims=True)]. *)
Definition apply (arr : row) : row := [xp.linalg_norm xp.ord1 arr].

(** [xp.fmax(0, xp.fabs(arr) - tau) * xp.sign(arr)]. *)
Definition prox (arr : row) (tau : R) : row :=
  zip_with Rmult (map (fun v => Rmax 0 (v - tau)) (xp.fabs arr)) (xp.sign arr).

End L1Norm.

(** [TestL1NormMoreau.data_apply]: the expected value of the Moreau
    envelope at [x],
    [op_orig.apply(y) + (0.5 / mu) * (np.linalg.norm(y - x) ** 2)] with
    [y = op_orig.prox(x, mu)]. *)
Definition data_apply (x : row) (mu : R) : row :=
  let y := L1Norm.prox x mu in
  map (fun a => a + (1 / 2 / mu)
                    * (xp.linalg_norm xp.ord2 (zip_with Rminus y x) ^ 2))
      (L1Norm.apply y).

(** [TestL1NormMoreau.data_grad]: the expected gradient of the envelope,
    [(x - op_orig.prox(x, mu)) / mu]. *)
Definition data_grad (x : row) (mu : R) : row :=
  map (fun d => d / mu) (zip_with Rminus x (L1Norm.prox x mu)).

End TestProxFunc.

(** The Huber function of parameter [mu]. *)
Definition huber (mu v : R) : R :=
  if Rle_dec (Rabs v) mu then v * v / (2 * mu) else Rabs v - mu / 2.

(** ** Evaluation of the real-number primitives on numerals *)

Ltac rdecide :=
  repeat match goal with
    | |- context [Rcase_abs ?a] => destruct (Rcase_abs a); try lra
    | |- context [Rlt_dec ?a ?b] => destruct (Rlt_dec a b); try lra
    | |- context [Rle_dec ?a ?b] => destruct (Rle_dec a b); try lra
    end.

Create HintDb pycsou.

#[global] Hint Unfold xp.fabs xp.sign xp.sign1 xp.sum xp.linalg_norm xp.max
  pylinalg.norm
  L1Norm.apply L1Norm.prox L2Norm.apply L2Norm.prox
  SquaredL2Norm.apply SquaredL2Norm.prox
  LInftyNorm.apply LInftyNorm.root_func LInftyNorm.prox
  L1Ball.root_func L1Ball.prox L2Ball.prox LInfinityBall.prox : pycsou.

Ltac reval :=
  autounfold with pycsou; cbn; unfold Rmax, Rmin, Rabs; rdecide;
  repeat (f_equal; try lra); try lra.

(** ** Facts on rows *)

Lemma sum_cons (v : R) (a : row) : xp.sum (v :: a) = v + xp.sum a.
Proof. reflexivity. Qed.

Lemma sum_app (a b : row) : xp.sum (a ++ b) = xp.sum a + xp.sum b.
Proof.
  induction a as [|v a IH].
  - unfold xp.sum. cbn. lra.
  - rewrite <- app_comm_cons, !sum_cons, IH. lra.
Qed.

Lemma big_sum_ext (n : nat) (f g : nat -> R) :
  (forall i, (i < n)%nat -> f i = g i) -> big_sum n f = big_sum n g.
Proof.
  induction n as [|n IH]; intros H; cbn; [reflexivity|].
  rewrite IH, H by (intros; try apply H; lia). reflexivity.
Qed.

Lemma sum_as_big_sum (a : row) :
  xp.sum a = big_sum (length a) (entry a).
Proof.
  induction a as [|v a IH] using rev_ind; [reflexivity|].
  rewrite length_app, Nat.add_1_r. cbn [big_sum].
  unfold entry at 2. rewrite app_nth2, Nat.sub_diag by lia. cbn [nth].
  rewrite sum_app, IH, sum_cons. unfold xp.sum. cbn [fold_right].
  rewrite (big_sum_ext _ (entry (a ++ [v])) (entry a)); [lra|].
  intros i Hi. unfold entry. now rewrite app_nth1.
Qed.

Lemma sum_map_as_big_sum (f : R -> R) (a : row) :
  f 0 = 0 ->
  xp.sum (map f a) = big_sum (length a) (fun i => f (entry a i)).
Proof.
  intros Hf. rewrite sum_as_big_sum, length_map.
  apply big_sum_ext. intros i Hi. unfold entry.
  rewrite <- Hf at 1. apply map_nth.
Qed.

Lemma norm1_as_big_sum (a : row) :
  xp.linalg_norm xp.ord1 a = big_sum (length a) (fun i => Rabs (entry a i)).
Proof. apply sum_map_as_big_sum, Rabs_R0. Qed.

Lemma norm2_as_big_sum (a : row) :
  xp.linalg_norm xp.ord2 a
  = sqrt (big_sum (length a) (fun i => entry a i * entry a i)).
Proof.
  unfold xp.linalg_norm. f_equal.
  apply (sum_map_as_big_sum (fun v => v * v)). lra.
Qed.

Lemma soft_cases (t v : R) :
  0 <= t ->
  (t < v -> soft t v = v - t) /\
  (v < - t -> soft t v = v + t) /\
  (- t <= v <= t -> soft t v = 0).
Proof.
  intros Ht. unfold soft, xp.sign1, Rmax, Rabs.
  repeat split; [intros ?|intros ?|intros [? ?]]; rdecide.
Qed.

Lemma L1Norm_prox_entry (arr : row) (tau : R) (i : nat) :
  (i < length arr)%nat ->
  entry (L1Norm.prox arr tau) i = soft tau (entry arr i).
Proof.
  revert i. induction arr as [|v arr IH]; intros i Hi; cbn in Hi; [lia|].
  destruct i as [|i].
  - unfold entry, soft. cbn. lra.
  - unfold entry in *. cbn. apply IH. lia.
Qed.

Lemma L1Norm_prox_length (arr : row) (tau : R) :
  length (L1Norm.prox arr tau) = length arr.
Proof.
  unfold L1Norm.prox, xp.sign, xp.fabs.
  rewrite length_zip_with, !length_map. lia.
Qed.

(** ** Theorems *)

(** C4. [L1Norm.apply] returns the sum of the absolute values of the entries
    (kept as a one-element array), and [L1Norm.prox] is the elementwise
    soft-threshold [sign(x) * max(0, |x| - tau)].  On the test data:
    [apply([0,0,0,0,0]) = 0], [apply([-3,-2,-1,0,1]) = 7] and
    [prox([-3,-2,-1,0,1], tau=1) = [-2,-1,0,0,0]]. *)
Theorem L1Norm_apply_prox :
  (forall x : row,
      L1Norm.apply x = [big_sum (length x) (fun i => Rabs (entry x i))]) /\
  (forall (x : row) (tau : R), 0 < tau ->
      length (L1Norm.prox x tau) = length x /\
      forall i, (i < length x)%nat ->
        entry (L1Norm.prox x tau) i
        = xp.sign1 (entry x i) * Rmax 0 (Rabs (entry x i) - tau)) /\
  L1Norm.apply [0; 0; 0; 0; 0] = [0] /\
  L1Norm.apply [-3; -2; -1; 0; 1] = [7] /\
  L1Norm.prox [-3; -2; -1; 0; 1] 1 = [-2; -1; 0; 0; 0].
Proof.
  split; [|split; [|repeat split]].
  - intros x. unfold L1Norm.apply, pylinalg.norm. now rewrite norm1_as_big_sum.
  - intros x tau _. split; [apply L1Norm_prox_length|].
    intros i Hi. now rewrite L1Norm_prox_entry.
  - reval.
  - reval.
  - reval.
Qed.

Lemma L1Norm_apply_prox_witness :
  length (L1Norm.prox [-3; 2] 1) = 2%nat /\
  forall i, (i < 2)%nat ->
    entry (L1Norm.prox [-3; 2] 1) i
    = xp.sign1 (entry [-3; 2] i) * Rmax 0 (Rabs (entry [-3; 2] i) - 1).
Proof.
  apply (proj1 (proj2 L1Norm_apply_prox) [-3; 2] 1). lra.
Defined.

(** ** Ball indicators *)

Lemma fold_left_Rmax_le (a : row) (v r : R) :
  fold_left Rmax a v <= r <-> v <= r /\ Forall (fun w => w <= r) a.
Proof.
  revert v. induction a as [|w a IH]; intros v; cbn.
  - split; [intros H; split; [exact H|constructor]|intros [H _]; exact H].
  - rewrite IH. split.
    + intros [Hm Ha]. split; [|constructor; [|exact Ha]].
      * eapply Rle_trans; [apply Rmax_l|exact Hm].
      * eapply Rle_trans; [apply Rmax_r|exact Hm].
    + intros [Hv Hwa]. inversion Hwa; subst. split; [|assumption].
      now apply Rmax_lub.
Qed.

Lemma max_le_iff (a : row) (m r : R) :
  xp.max a = Ok m -> (m <= r <-> Forall (fun w => w <= r) a).
Proof.
  destruct a as [|v a]; cbn; [discriminate|].
  intros [= <-]. rewrite fold_left_Rmax_le. split.
  - intros [Hv Ha]. now constructor.
  - intros H. inversion H; subst. now split.
Qed.

Lemma max_nonempty (a : row) : a <> [] -> exists m, xp.max a = Ok m.
Proof. destruct a as [|v a]; [congruence|]. intros _. cbn. eauto. Qed.

Lemma sum_squares_nonneg (a : row) : 0 <= xp.sum (map (fun v => v * v) a).
Proof.
  induction a as [|v a IH]; cbn [map].
  - unfold xp.sum. cbn. lra.
  - rewrite sum_cons. nra.
Qed.

Lemma sum_map_scale (k : R) (f : R -> R) (a : row) :
  xp.sum (map (fun v => k * f v) a) = k * xp.sum (map f a).
Proof.
  induction a as [|v a IH]; cbn [map].
  - unfold xp.sum. cbn. lra.
  - rewrite !sum_cons, IH. lra.
Qed.

Lemma norm2_nonneg (a : row) : 0 <= xp.linalg_norm xp.ord2 a.
Proof. apply sqrt_pos. Qed.

Lemma norm2_square (a : row) :
  xp.linalg_norm xp.ord2 a * xp.linalg_norm xp.ord2 a
  = xp.sum (map (fun v => v * v) a).
Proof. apply sqrt_sqrt, sum_squares_nonneg. Qed.

(** Rescaling onto the sphere of radius [r]. *)
Lemma norm2_rescale (r : R) (a : row) :
  0 <= r -> 0 < xp.linalg_norm xp.ord2 a ->
  xp.linalg_norm xp.ord2
    (map (fun v => r * v / xp.linalg_norm xp.ord2 a) a) = r.
Proof.
  intros Hr Hn. set (n := xp.linalg_norm xp.ord2 a) in *.
  unfold xp.linalg_norm at 1. rewrite map_map.
  rewrite (map_ext _ (fun v => (r / n) * (r / n) * (v * v)))
    by (intros v; field; lra).
  rewrite sum_map_scale, <- norm2_square. fold n.
  replace (r / n * (r / n) * (n * n)) with (r * r) by (field; lra).
  now apply sqrt_square.
Qed.

(** C5. Ball-projection idempotence: when the input already lies in the
    ball ([||x||_1 <= radius], [||x||_2 <= radius], or every [|x_i| <= radius]
    for a non-empty [x]), [prox(x, tau)] returns [x] itself, for each of
    [L1Ball], [L2Ball] and [LInfinityBall] and every [tau > 0]. *)
Theorem ball_prox_idempotent (radius tau : R) (x : row) :
  0 < tau ->
  (big_sum (length x) (fun i => Rabs (entry x i)) <= radius ->
     L1Ball.prox radius x tau = Ok x) /\
  (sqrt (big_sum (length x) (fun i => entry x i * entry x i)) <= radius ->
     L2Ball.prox radius x tau = x) /\
  (x <> [] -> Forall (fun v => Rabs v <= radius) x ->
     LInfinityBall.prox radius x tau = Ok x).
Proof.
  intros _. repeat split.
  - intros H. unfold L1Ball.prox, pylinalg.norm.
    destruct (Rle_dec _ _) as [|Hn]; [reflexivity|]. exfalso. apply Hn.
    now rewrite norm1_as_big_sum.
  - intros H. unfold L2Ball.prox.
    destruct (Rle_dec _ _) as [|Hn]; [reflexivity|]. exfalso. apply Hn.
    now rewrite norm2_as_big_sum.
  - intros Hne Hall. unfold LInfinityBall.prox.
    destruct (max_nonempty (xp.fabs x)) as [m Hm].
    { destruct x; [congruence|discriminate]. }
    rewrite Hm. cbn.
    destruct (Rle_dec m radius) as [|Hn]; [reflexivity|]. exfalso. apply Hn.
    apply (max_le_iff _ _ _ Hm). unfold xp.fabs. now rewrite Forall_map.
Qed.

Lemma ball_prox_idempotent_witness :
  L1Ball.prox 2 [3/5; 4/5] 1 = Ok [3/5; 4/5] /\
  L2Ball.prox 2 [3/5; 4/5] 1 = [3/5; 4/5] /\
  LInfinityBall.prox 2 [3/5; 4/5] 1 = Ok [3/5; 4/5].
Proof.
  destruct (ball_prox_idempotent 2 1 [3/5; 4/5] ltac:(lra)) as (H1 & H2 & H3).
  split; [|split].
  - apply H1. cbn. unfold Rabs. rdecide.
  - apply H2. cbn.
    replace (0 + 3 / 5 * (3 / 5) + 4 / 5 * (4 / 5)) with 1 by lra.
    rewrite sqrt_1. lra.
  - apply H3; [discriminate|].
    repeat constructor; unfold Rabs; rdecide.
Defined.

(** C10. The scale parameter does not enter the projection onto a ball:
    for [L1Ball], [L2Ball] and [LInfinityBall], [prox(x, tau1)] and
    [prox(x, tau2)] are the same, whatever [tau1] and [tau2] are. *)
Theorem ball_prox_tau_independent (radius : R) (x : row) (tau1 tau2 : R) :
  L1Ball.prox radius x tau1 = L1Ball.prox radius x tau2 /\
  L2Ball.prox radius x tau1 = L2Ball.prox radius x tau2 /\
  LInfinityBall.prox radius x tau1 = LInfinityBall.prox radius x tau2.
Proof. repeat split. Qed.

(** C6. For a ball of radius [radius >= 0] and every [tau > 0], the output
    of [L2Ball.prox] has norm at most [radius]; when the input lies outside
    the ball the output is [radius * x / ||x||_2] and its norm is exactly
    [radius]. *)
Theorem L2Ball_prox_norm (radius tau : R) (x : row) :
  0 <= radius -> 0 < tau ->
  xp.linalg_norm xp.ord2 (L2Ball.prox radius x tau) <= radius /\
  (radius < xp.linalg_norm xp.ord2 x ->
     L2Ball.prox radius x tau
       = map (fun v => radius * v / xp.linalg_norm xp.ord2 x) x /\
     xp.linalg_norm xp.ord2 (L2Ball.prox radius x tau) = radius).
Proof.
  intros Hr _. unfold L2Ball.prox.
  destruct (Rle_dec _ _) as [Hin|Hout].
  - split; [exact Hin|]. intros H. lra.
  - assert (Hpos : 0 < xp.linalg_norm xp.ord2 x) by lra.
    rewrite (norm2_rescale radius x Hr Hpos).
    split; [lra|]. intros _. split; reflexivity.
Qed.

Lemma norm2_3_4 : xp.linalg_norm xp.ord2 [3; 4] = 5.
Proof.
  unfold xp.linalg_norm. cbn [map]. rewrite !sum_cons.
  unfold xp.sum. cbn [fold_right].
  replace (3 * 3 + (4 * 4 + 0)) with (5 * 5) by lra.
  apply sqrt_square. lra.
Qed.

Lemma L2Ball_prox_norm_witness :
  xp.linalg_norm xp.ord2 (L2Ball.prox 1 [3; 4] 1) <= 1 /\
  L2Ball.prox 1 [3; 4] 1
    = map (fun v => 1 * v / xp.linalg_norm xp.ord2 [3; 4]) [3; 4] /\
  xp.linalg_norm xp.ord2 (L2Ball.prox 1 [3; 4] 1) = 1.
Proof.
  destruct (L2Ball_prox_norm 1 1 [3; 4] ltac:(lra) ltac:(lra)) as [Hle Hout].
  split; [exact Hle|]. apply Hout. rewrite norm2_3_4. lra.
Defined.

(** C9. [SquaredL2Norm._hessian] raises (a [ValueError] whose message asks
    for [dim] to be set) exactly when the functional is domain-agnostic
    ([dim] is [None]); with [dim] set it returns the identity operator of
    that dimension. *)
Theorem hessian_requires_dim (dim : option nat) :
  (dim = None <-> exists e, SquaredL2Norm._hessian dim = Raise e) /\
  (dim = None ->
     SquaredL2Norm._hessian dim
     = Raise (ValueError
         (String.append "hessian: domain-agnostic functionals unsupported."
            (String.append newline
               "Explicitly set `dim` in <class 'pycsou.operator.func.norm.SquaredL2Norm'>.__init__().")))) /\
  (forall d, dim = Some d ->
     exists op, SquaredL2Norm._hessian dim = Ok op /\
                op = squeeze (IdentityOp d) /\
                OpT_dim op = d /\
                forall v, OpT_apply op v = v).
Proof.
  destruct dim as [d|]; cbn.
  - split; [|split].
    + split; [discriminate|]. intros [e He]. discriminate.
    + discriminate.
    + intros d' [= <-]. eexists. repeat split.
  - split; [|split].
    + split; [eauto|reflexivity].
    + reflexivity.
    + discriminate.
Qed.

Lemma hessian_requires_dim_witness :
  exists op, SquaredL2Norm._hessian (Some 5%nat) = Ok op /\
             op = squeeze (IdentityOp 5) /\
             OpT_dim op = 5%nat /\
             forall v, OpT_apply op v = v.
Proof.
  exact (proj2 (proj2 (hessian_requires_dim (Some 5%nat))) 5%nat eq_refl).
Defined.

(** ** Index search: [xp.max(xp.nonzero(mask)[0])] *)

Lemma nonzero_from_elem (mask : list bool) (i k : nat) :
  k ∈ xp.nonzero_from i mask <->
  exists j, k = (i + j)%nat /\ mask !! j = Some true.
Proof.
  revert i. induction mask as [|b mask IH]; intros i; cbn.
  - split; [intros H; inversion H|intros (j & _ & H); discriminate].
  - assert (Hs : k ∈ xp.nonzero_from (S i) mask <->
                 exists j, k = (i + S j)%nat /\ mask !! j = Some true).
    { rewrite IH. split; intros (j & -> & Hj); exists j; split; auto; lia. }
    destruct b.
    + rewrite elem_of_cons, Hs. split.
      * intros [->|(j & -> & Hj)]; [exists 0%nat|exists (S j)]; split; auto; lia.
      * intros (j & -> & Hj). destruct j as [|j]; [left; lia|right; eauto].
    + rewrite Hs. split.
      * intros (j & -> & Hj). exists (S j). auto.
      * intros (j & -> & Hj). destruct j as [|j]; [discriminate|eauto].
Qed.

Lemma fold_left_max_spec (a : list nat) (v : nat) :
  (fold_left Nat.max a v = v \/ fold_left Nat.max a v ∈ a) /\
  (v <= fold_left Nat.max a v)%nat /\
  Forall (fun w => (w <= fold_left Nat.max a v)%nat) a.
Proof.
  revert v. induction a as [|w a IH]; intros v; cbn.
  - repeat split; auto.
  - destruct (IH (Nat.max v w)) as (Hm & Hle & Hall). repeat split.
    + destruct Hm as [Hm|Hm]; [|right; now apply list_elem_of_further].
      rewrite Hm. destruct (Nat.max_spec v w) as [[_ ->]|[_ ->]];
        [right; apply list_elem_of_here|now left].
    + lia.
    + constructor; [lia|exact Hall].
Qed.

Lemma max_index_Ok (l : list nat) (m : nat) :
  xp.max_index l = Ok m -> m ∈ l /\ Forall (fun w => (w <= m)%nat) l.
Proof.
  destruct l as [|v l]; cbn; [discriminate|]. intros [= <-].
  destruct (fold_left_max_spec l v) as (Hm & Hle & Hall). split.
  - destruct Hm as [->|Hm]; [apply list_elem_of_here|now apply list_elem_of_further].
  - now constructor.
Qed.

Lemma max_index_nonempty (l : list nat) (k : nat) :
  k ∈ l -> exists m, xp.max_index l = Ok m.
Proof. destruct l; [intros H; inversion H|cbn; eauto]. Qed.

(** The index found is the last true entry of the mask. *)
Lemma last_true_index (mask : list bool) (k : nat) :
  xp.max_index (xp.nonzero mask) = Ok k <->
  mask !! k = Some true /\ forall j, (k < j)%nat -> mask !! j <> Some true.
Proof.
  unfold xp.nonzero. split.
  - intros H. apply max_index_Ok in H as [Hk Hall].
    apply nonzero_from_elem in Hk as (j & -> & Hj). split; [exact Hj|].
    intros j' Hlt Hj'. rewrite Forall_forall in Hall.
    assert (Hin : j' ∈ xp.nonzero_from 0 mask)
      by (apply nonzero_from_elem; eauto).
    apply Hall in Hin. cbn in *. lia.
  - intros [Hk Hlast].
    assert (Hin : k ∈ xp.nonzero_from 0 mask)
      by (apply nonzero_from_elem; eauto).
    destruct (max_index_nonempty _ _ Hin) as [m Hm]. rewrite Hm. f_equal.
    pose proof (max_index_Ok _ _ Hm) as [Hmin Hall].
    rewrite Forall_forall in Hall. apply Hall in Hin.
    apply nonzero_from_elem in Hmin as (j & -> & Hj). cbn in *.
    destruct (decide (k < j)%nat) as [Hlt|]; [|lia].
    exfalso. exact (Hlast j Hlt Hj).
Qed.

Lemma no_true_index (mask : list bool) :
  (forall j, mask !! j <> Some true) ->
  xp.max_index (xp.nonzero mask)
  = Raise (ValueError
      "zero-size array to reduction operation maximum which has no identity").
Proof.
  intros H. unfold xp.nonzero.
  destruct (xp.nonzero_from 0 mask) as [|k l] eqn:E; [reflexivity|].
  exfalso. assert (Hin : k ∈ xp.nonzero_from 0 mask)
    by (rewrite E; apply list_elem_of_here).
  apply nonzero_from_elem in Hin as (j & _ & Hj). exact (H j Hj).
Qed.

Lemma gt0_lookup (a : row) (j : nat) :
  xp.gt0 a !! j = Some true <-> exists v, a !! j = Some v /\ 0 < v.
Proof.
  unfold xp.gt0. rewrite list_lookup_fmap.
  destruct (a !! j) as [v|]; cbn.
  - destruct (Rlt_dec 0 v); split.
    + eauto.
    + reflexivity.
    + discriminate.
    + intros (w & [= <-] & Hw). contradiction.
  - split; [discriminate|intros (v & H & _); discriminate].
Qed.

(** ** Sorting, cumulative sums and the test array *)

Lemma entry_lookup (a : row) (i : nat) (v : R) :
  a !! i = Some v -> entry a i = v.
Proof. intros H. unfold entry. now apply nth_lookup_Some with (d := 0) in H. Qed.

Lemma lookup_entry (a : row) (i : nat) :
  (i < length a)%nat -> a !! i = Some (entry a i).
Proof.
  intros H. destruct (lookup_lt_is_Some_2 a i H) as [v Hv].
  now rewrite (entry_lookup _ _ _ Hv).
Qed.

Lemma cumsum_from_length (acc : R) (a : row) :
  length (xp.cumsum_from acc a) = length a.
Proof. revert acc. induction a; intros acc; cbn; auto. Qed.

Lemma cumsum_from_lookup (acc : R) (a : row) (j : nat) :
  (j < length a)%nat ->
  xp.cumsum_from acc a !! j = Some (acc + xp.sum (take (S j) a)).
Proof.
  revert acc j. induction a as [|v a IH]; intros acc j Hj; cbn in Hj; [lia|].
  destruct j as [|j].
  - cbn. rewrite take_0. unfold xp.sum. cbn. f_equal. lra.
  - cbn [xp.cumsum_from take]. rewrite lookup_cons_ne_0 by lia. cbn [Nat.pred].
    rewrite IH by lia. rewrite sum_cons. f_equal. lra.
Qed.

Lemma sum_take_cumulative (z : row) (j : nat) :
  (j < length z)%nat ->
  xp.sum (take (S j) z) = SortSteps.cumulative z j.
Proof.
  intros Hj. rewrite sum_as_big_sum, length_take, Nat.min_l by lia.
  apply big_sum_ext. intros i Hi. unfold entry.
  destruct (lookup_lt_is_Some_2 z i ltac:(lia)) as [v Hv].
  rewrite (nth_lookup_Some _ _ 0 _ Hv).
  apply nth_lookup_Some. now rewrite lookup_take_lt by lia.
Qed.

Lemma cumsum_lookup (z : row) (j : nat) :
  (j < length z)%nat ->
  xp.cumsum z !! j = Some (SortSteps.cumulative z j).
Proof.
  intros Hj. unfold xp.cumsum. rewrite cumsum_from_lookup by exact Hj.
  rewrite sum_take_cumulative by exact Hj. f_equal. lra.
Qed.

Lemma arange_lookup (n j : nat) :
  (j < n)%nat -> xp.arange n !! j = Some (INR j).
Proof.
  intros Hj. unfold xp.arange.
  rewrite list_lookup_fmap, lookup_seq_lt by exact Hj. reflexivity.
Qed.

Lemma coef_factor (tau : R) (k : nat) :
  SquaredL1Norm.coef tau (INR k) = SortSteps.factor tau k.
Proof.
  unfold SquaredL1Norm.coef, SortSteps.factor. f_equal. ring.
Qed.

(** The array [z - (2 tau / (1 + (arange + 1) 2 tau)) * cumsum_z]. *)
Lemma test_array_lookup (tau : R) (z : row) (j : nat) :
  (j < length z)%nat ->
  zip_with Rminus z
    (zip_with Rmult (map (SquaredL1Norm.coef tau) (xp.arange (length z)))
                    (xp.cumsum z)) !! j
  = Some (SortSteps.test_value tau z j).
Proof.
  intros Hj. rewrite !lookup_zip_with, list_lookup_fmap.
  rewrite arange_lookup, cumsum_lookup, lookup_entry by exact Hj. cbn.
  now rewrite coef_factor.
Qed.

Lemma test_array_length (tau : R) (z : row) :
  length (zip_with Rminus z
    (zip_with Rmult (map (SquaredL1Norm.coef tau) (xp.arange (length z)))
                    (xp.cumsum z))) = length z.
Proof.
  rewrite !length_zip_with, length_map. unfold xp.arange, xp.cumsum.
  rewrite length_map, length_seq, cumsum_from_length. lia.
Qed.

Lemma test_mask_lookup (tau : R) (z : row) (j : nat) :
  xp.gt0 (zip_with Rminus z
    (zip_with Rmult (map (SquaredL1Norm.coef tau) (xp.arange (length z)))
                    (xp.cumsum z))) !! j = Some true
  <-> (j < length z)%nat /\ 0 < SortSteps.test_value tau z j.
Proof.
  rewrite gt0_lookup. split.
  - intros (v & Hv & Hpos).
    assert (Hj : (j < length z)%nat).
    { apply lookup_lt_Some in Hv. now rewrite test_array_length in Hv. }
    rewrite test_array_lookup in Hv by exact Hj. injection Hv as <-. auto.
  - intros [Hj Hpos]. eexists. split; [now apply test_array_lookup|exact Hpos].
Qed.

#[global] Instance Rge_flip_antisymm : AntiSymm (=) (flip Rle).
Proof. intros a b H1 H2. unfold flip in *. lra. Qed.

Lemma StronglySorted_rev_flip (l : row) :
  StronglySorted Rle l -> StronglySorted (flip Rle) (reverse l).
Proof.
  induction 1 as [|v l Hl IH Hall]; [constructor|]. rewrite reverse_cons.
  apply StronglySorted_app_2; [|exact IH|repeat constructor].
  intros a b Ha Hb. apply list_elem_of_singleton in Hb as ->.
  rewrite Forall_forall in Hall. apply Hall. now rewrite <- elem_of_reverse.
Qed.

#[global] Instance Rle_total : Total Rle.
Proof. intros a b. destruct (Rle_dec a b); [now left|right; lra]. Qed.

#[global] Instance Rle_transitive : Transitive Rle.
Proof. intros a b c. apply Rle_trans. Qed.

Lemma sorted_abs_perm (x : row) :
  xp.flip (xp.sort (map Rabs x)) ≡ₚ map Rabs x.
Proof.
  unfold xp.flip, xp.sort. now rewrite reverse_Permutation, merge_sort_Permutation.
Qed.

Lemma sorted_abs_strongly (x : row) :
  StronglySorted (flip Rle) (xp.flip (xp.sort (map Rabs x))).
Proof.
  apply StronglySorted_rev_flip, StronglySorted_merge_sort; apply _.
Qed.

Lemma strongly_descending (z : row) :
  StronglySorted (flip Rle) z <-> SortSteps.descending z.
Proof.
  split.
  - induction 1 as [|v z Hz IH Hall]; intros i j [Hij Hj]; cbn in Hj; [lia|].
    destruct j as [|j]; [replace i with 0%nat by lia; lra|].
    destruct i as [|i].
    + unfold entry. cbn. rewrite Forall_forall in Hall.
      apply Hall. apply list_elem_of_In, nth_In. lia.
    + unfold entry in *. cbn. apply IH. lia.
  - induction z as [|v z IH]; intros H; constructor.
    + apply IH. intros i j Hij. apply (H (S i) (S j)). cbn. lia.
    + apply Forall_forall. intros w Hw.
      apply list_elem_of_lookup in Hw as [j Hj].
      pose proof (lookup_lt_Some _ _ _ Hj) as Hlt.
      specialize (H 0%nat (S j) ltac:(cbn; lia)).
      unfold entry in H. cbn in H. unfold flip.
      now rewrite (nth_lookup_Some _ _ 0 _ Hj) in H.
Qed.

(** ** The sort-based prox *)

Lemma soft_zip (t : R) (x : row) :
  zip_with Rmult (map (fun v => Rmax 0 (v - t)) (xp.fabs x)) (xp.sign x)
  = soft_threshold t x.
Proof.
  unfold soft_threshold, xp.fabs, xp.sign.
  induction x as [|v x IH]; cbn; [reflexivity|].
  rewrite IH. f_equal. unfold soft. ring.
Qed.

Lemma last_positive_unique (tau : R) (z : row) (k k' : nat) :
  SortSteps.last_positive tau z k -> SortSteps.last_positive tau z k' -> k = k'.
Proof.
  intros (Hk & Hpos & Hlast) (Hk' & Hpos' & Hlast').
  destruct (lt_eq_lt_dec k k') as [[Hlt| ->]|Hlt]; [|reflexivity|].
  - exfalso. apply (Hlast k'); [lia|exact Hpos'].
  - exfalso. apply (Hlast' k); [lia|exact Hpos].
Qed.

Lemma last_positive_mask (tau : R) (z : row) (k : nat) :
  xp.max_index (xp.nonzero (xp.gt0 (zip_with Rminus z
    (zip_with Rmult (map (SquaredL1Norm.coef tau) (xp.arange (length z)))
                    (xp.cumsum z))))) = Ok k
  <-> SortSteps.last_positive tau z k.
Proof.
  rewrite last_true_index, test_mask_lookup. unfold SortSteps.last_positive.
  split.
  - intros [[Hk Hpos] Hlast]. repeat split; auto.
    intros j [Hkj Hj] Hp. apply (Hlast j Hkj). now apply test_mask_lookup.
  - intros (Hk & Hpos & Hlast). repeat split; auto.
    intros j Hkj Hm. apply test_mask_lookup in Hm as [Hj Hp].
    now apply (Hlast j).
Qed.

(** What [_prox_sort] returns once the index search succeeds. *)
Lemma prox_sort_result (x : row) (tau : R) (k : nat) :
  let z := xp.flip (xp.sort (map Rabs x)) in
  SortSteps.last_positive tau z k ->
  SquaredL1Norm._prox_sort x tau
  = Ok (soft_threshold (SortSteps.threshold tau z k) x).
Proof.
  intros z Hk. unfold SquaredL1Norm._prox_sort. fold z.
  rewrite (proj2 (last_positive_mask tau z k) Hk). cbn [rbind].
  destruct Hk as (Hlt & _). unfold xp.getitem.
  rewrite cumsum_lookup by exact Hlt. cbn [rbind].
  now rewrite soft_zip, coef_factor.
Qed.

(** Without a strictly positive test value the index search fails. *)
Lemma prox_sort_raises (x : row) (tau : R) :
  let z := xp.flip (xp.sort (map Rabs x)) in
  (forall j, (j < length z)%nat -> ~ 0 < SortSteps.test_value tau z j) ->
  SquaredL1Norm._prox_sort x tau
  = Raise (ValueError
      "zero-size array to reduction operation maximum which has no identity").
Proof.
  intros z Hnone. unfold SquaredL1Norm._prox_sort. fold z.
  rewrite no_true_index; [reflexivity|].
  intros j Hj. apply test_mask_lookup in Hj as [Hlt Hp]. now apply (Hnone j).
Qed.

Lemma factor_pos (tau : R) (k : nat) : 0 < tau -> 0 < SortSteps.factor tau k.
Proof.
  intros Ht. unfold SortSteps.factor. pose proof (pos_INR k).
  apply Rdiv_lt_0_compat; nra.
Qed.

Lemma sorted_abs_head_pos (x : row) :
  nonzero_row x ->
  let z := xp.flip (xp.sort (map Rabs x)) in
  (0 < length z)%nat /\ 0 < entry z 0.
Proof.
  intros Hx z. apply Exists_exists in Hx as (v & Hv & Hne).
  assert (Hin : Rabs v ∈ z).
  { unfold z. rewrite sorted_abs_perm. apply list_elem_of_fmap. eauto. }
  apply list_elem_of_lookup in Hin as [j Hj].
  pose proof (lookup_lt_Some _ _ _ Hj) as Hlt.
  split; [lia|].
  pose proof (proj1 (strongly_descending z) (sorted_abs_strongly x)) as Hd.
  specialize (Hd 0%nat j ltac:(lia)).
  rewrite (entry_lookup _ _ _ Hj) in Hd.
  pose proof (Rabs_pos_lt v Hne). lra.
Qed.

Lemma test_value_head (tau : R) (z : row) :
  0 < tau -> 0 < entry z 0 -> 0 < SortSteps.test_value tau z 0.
Proof.
  intros Ht Hz. unfold SortSteps.test_value, SortSteps.cumulative,
    SortSteps.factor. cbn [big_sum INR].
  replace (entry z 0 - 2 * tau / (1 + (0 + 1) * (2 * tau)) * (0 + entry z 0))
    with (entry z 0 / (1 + 2 * tau)) by (field; lra).
  apply Rdiv_lt_0_compat; lra.
Qed.

(** Among finitely many indices, one with a positive test value gives a
    last one. *)
Lemma last_positive_exists (tau : R) (z : row) (i : nat) :
  (i < length z)%nat -> 0 < SortSteps.test_value tau z i ->
  exists k, SortSteps.last_positive tau z k.
Proof.
  intros Hi Hpos.
  set (mask := xp.gt0 (zip_with Rminus z
    (zip_with Rmult (map (SquaredL1Norm.coef tau) (xp.arange (length z)))
                    (xp.cumsum z)))).
  assert (Hin : i ∈ xp.nonzero mask).
  { apply (nonzero_from_elem mask 0 i). exists i. split; [reflexivity|].
    now apply test_mask_lookup. }
  destruct (max_index_nonempty _ _ Hin) as [k Hk].
  exists k. now apply last_positive_mask.
Qed.

(** C8. On a non-zero input and for [tau > 0], [_prox_sort] returns, and
    what it returns is the result of the steps of the specification: [|x|]
    sorted in descending order, cumulative sums, the largest index [k] whose
    test value [z_k - (2 tau / (1 + (k+1) 2 tau)) * cumsum_k] is strictly
    positive, the threshold [(2 tau / (1 + (k+1) 2 tau)) * cumsum_k], and
    the soft-threshold of [x] there.  The steps determine the result. *)
Theorem prox_sort_follows_steps (x : row) (tau : R) :
  0 < tau -> nonzero_row x ->
  exists y,
    SquaredL1Norm._prox_sort x tau = Ok y /\
    SortSteps.prox_sort_steps x tau y /\
    forall y', SortSteps.prox_sort_steps x tau y' -> y' = y.
Proof.
  intros Ht Hx. set (z := xp.flip (xp.sort (map Rabs x))).
  destruct (sorted_abs_head_pos x Hx) as [Hlen Hhead]. fold z in Hlen, Hhead.
  destruct (last_positive_exists tau z 0 Hlen (test_value_head _ _ Ht Hhead))
    as [k Hk].
  exists (soft_threshold (SortSteps.threshold tau z k) x). split; [|split].
  - now apply prox_sort_result.
  - exists z, k. repeat split; try apply Hk.
    + apply sorted_abs_perm.
    + apply strongly_descending, sorted_abs_strongly.
  - intros y' (z' & k' & Hperm & Hdesc & Hk' & ->).
    assert (z' = z) as ->.
    { apply (StronglySorted_unique (flip Rle)).
      - now apply strongly_descending.
      - apply sorted_abs_strongly.
      - unfold z. now rewrite sorted_abs_perm. }
    now rewrite (last_positive_unique _ _ _ _ Hk' Hk).
Qed.

Lemma prox_sort_follows_steps_witness :
  exists y,
    SquaredL1Norm._prox_sort [-3; 1] 1 = Ok y /\
    SortSteps.prox_sort_steps [-3; 1] 1 y /\
    forall y', SortSteps.prox_sort_steps [-3; 1] 1 y' -> y' = y.
Proof.
  apply (prox_sort_follows_steps [-3; 1] 1).
  - lra.
  - apply Exists_cons_hd. lra.
Defined.

(** The descending sort is determined by its two properties. *)
Lemma sorted_abs_unique (x z : row) :
  z ≡ₚ map Rabs x -> StronglySorted (flip Rle) z ->
  xp.flip (xp.sort (map Rabs x)) = z.
Proof.
  intros Hp Hs. apply (StronglySorted_unique (flip Rle)).
  - apply sorted_abs_strongly.
  - exact Hs.
  - now rewrite sorted_abs_perm.
Qed.

Example prox_sort_example :
  SquaredL1Norm._prox_sort [-3; 1] 1 = Ok [-1; 0].
Proof.
  assert (Hz : xp.flip (xp.sort (map Rabs [-3; 1])) = [3; 1]).
  { apply sorted_abs_unique.
    - cbn. replace (Rabs (-3)) with 3 by (unfold Rabs; rdecide).
      replace (Rabs 1) with 1 by (unfold Rabs; rdecide). reflexivity.
    - repeat constructor. unfold flip. lra. }
  rewrite (prox_sort_result [-3; 1] 1 0).
  - rewrite Hz. f_equal.
    unfold SortSteps.threshold, SortSteps.factor, SortSteps.cumulative,
      soft_threshold, soft, entry. cbn.
    unfold xp.sign1, Rmax, Rabs. rdecide; repeat (f_equal; try lra).
  - rewrite Hz. unfold SortSteps.last_positive, SortSteps.test_value,
      SortSteps.factor, SortSteps.cumulative, entry. cbn.
    split; [lia|split; [lra|]].
    intros j Hj. replace j with 1%nat by lia. cbn. lra.
Qed.

(** ** All-zero input *)

Lemma brentq_sign_error (f : R -> R) (a b : R) :
  0 < f a * f b ->
  scipy_optimize.brentq f a b = Raise scipy_optimize.sign_error.
Proof.
  intros H. unfold scipy_optimize.brentq.
  destruct (Rlt_dec 0 (f a * f b)); [reflexivity|contradiction].
Qed.

Lemma sum_map_zero (f : R -> R) (a : row) :
  Forall (fun v => f v = 0) a -> xp.sum (map f a) = 0.
Proof.
  induction 1 as [|v a Hv Ha IH]; [reflexivity|].
  cbn [map]. rewrite sum_cons, Hv, IH. lra.
Qed.

Lemma max_zero (a : row) :
  a <> [] -> Forall (fun v => v = 0) a -> xp.max a = Ok 0.
Proof.
  destruct a as [|v a]; [congruence|]. intros _ H.
  inversion H as [|? ? -> Ha]; subst. clear H. cbn. f_equal.
  induction Ha as [|w a -> Ha IH]; cbn; [reflexivity|].
  replace (Rmax 0 0) with 0 by (unfold Rmax; rdecide). exact IH.
Qed.

Lemma prox_sort_zero (x : row) (tau : R) :
  Forall (fun v => v = 0) x ->
  SquaredL1Norm._prox_sort x tau
  = Raise (ValueError
      "zero-size array to reduction operation maximum which has no identity").
Proof.
  intros Hx. apply prox_sort_raises. intros j Hj.
  set (z := xp.flip (xp.sort (map Rabs x))) in *.
  assert (Hz : forall i, entry z i = 0).
  { intros i. destruct (decide (i < length z)%nat) as [Hi|Hi].
    - pose proof (lookup_entry z i Hi) as Hl.
      apply list_elem_of_lookup_2 in Hl. unfold z in Hl at 2.
      rewrite sorted_abs_perm in Hl.
      apply list_elem_of_fmap in Hl as (v & -> & Hv).
      rewrite Forall_forall in Hx. rewrite (Hx v Hv). apply Rabs_R0.
    - unfold entry. apply nth_overflow. lia. }
  unfold SortSteps.test_value, SortSteps.cumulative.
  rewrite (big_sum_ext _ _ (fun _ => 0)) by (intros; apply Hz).
  assert (Hs : forall n, big_sum n (fun _ => 0) = 0).
  { induction n as [|n IH]; cbn; [reflexivity|]. rewrite IH. lra. }
  rewrite Hs, Hz. lra.
Qed.

Lemma LInftyNorm_prox_zero (x : row) (tau : R) :
  0 < tau -> x <> [] -> Forall (fun v => v = 0) x ->
  LInftyNorm.prox x tau = Raise scipy_optimize.sign_error.
Proof.
  intros Ht Hne Hx. unfold LInftyNorm.prox, LInftyNorm.apply.
  assert (Habs : Forall (fun v => v = 0) (xp.fabs x)).
  { unfold xp.fabs. rewrite Forall_map. eapply Forall_impl; [exact Hx|].
    cbn. intros v ->. apply Rabs_R0. }
  rewrite max_zero; [|destruct x; [congruence|discriminate]|exact Habs].
  cbn [rbind]. rewrite brentq_sign_error; [reflexivity|].
  unfold LInftyNorm.root_func. rewrite sum_map_zero.
  - nra.
  - eapply Forall_impl; [exact Habs|]. cbn. intros v ->.
    unfold Rmax. rdecide.
Qed.

Lemma norm2_zero (x : row) :
  Forall (fun v => v = 0) x -> xp.linalg_norm xp.ord2 x = 0.
Proof.
  intros Hx. unfold xp.linalg_norm. rewrite sum_map_zero; [apply sqrt_0|].
  eapply Forall_impl; [exact Hx|]. cbn. intros v ->. lra.
Qed.

Lemma prox_root_zero (x : row) (tau : R) :
  Forall (fun v => v = 0) x -> SquaredL1Norm._prox_root x tau = Ok x.
Proof.
  intros Hx. unfold SquaredL1Norm._prox_root. rewrite (norm2_zero x Hx).
  destruct (Rlt_dec 0 0); [lra|reflexivity].
Qed.

(** C3 (the code at the all-zero input).  On [[0,0,0,0,0]] with [tau = 1]
    the sort-based prox of [SquaredL1Norm] raises (the index search runs on
    an empty index array) and [LInftyNorm.prox] raises (the bracket
    [[0, 0]] of the root finder has no sign change), while the root-based
    prox of [SquaredL1Norm], which tests for a zero input, returns the input
    unchanged. *)
Theorem zero_input_prox :
  SquaredL1Norm._prox_sort [0; 0; 0; 0; 0] 1
    = Raise (ValueError
        "zero-size array to reduction operation maximum which has no identity") /\
  LInftyNorm.prox [0; 0; 0; 0; 0] 1
    = Raise (ValueError "f(a) and f(b) must have different signs") /\
  SquaredL1Norm._prox_root [0; 0; 0; 0; 0] 1 = Ok [0; 0; 0; 0; 0].
Proof.
  assert (Hz : Forall (fun v : R => v = 0) [0; 0; 0; 0; 0])
    by (repeat constructor).
  split; [|split].
  - now apply prox_sort_zero.
  - apply LInftyNorm_prox_zero; [lra|discriminate|exact Hz].
  - now apply prox_root_zero.
Qed.

(** ** The threshold equation [t = 2 tau * excess x t]

    Both algorithms for the prox of the squared l1 norm soft-threshold the
    input at the solution of this equation, which is unique. *)

Lemma sum_perm (a b : row) : a ≡ₚ b -> xp.sum a = xp.sum b.
Proof.
  induction 1 as [|v a b _ IH|v w a|a b c _ IH1 _ IH2].
  - reflexivity.
  - now rewrite !sum_cons, IH.
  - rewrite !sum_cons. lra.
  - now rewrite IH1.
Qed.

Lemma sum_map_le (f g : R -> R) (a : row) :
  Forall (fun v => f v <= g v) a -> xp.sum (map f a) <= xp.sum (map g a).
Proof.
  induction 1 as [|v a Hv _ IH]; cbn [map]; [lra|].
  rewrite !sum_cons. lra.
Qed.

Lemma sum_map_eq (f g : R -> R) (a : row) :
  Forall (fun v => f v = g v) a -> xp.sum (map f a) = xp.sum (map g a).
Proof.
  induction 1 as [|v a Hv _ IH]; cbn [map]; [reflexivity|].
  now rewrite !sum_cons, Hv, IH.
Qed.

Lemma sum_map_shift (t : R) (a : row) :
  xp.sum (map (fun v => v - t) a) = xp.sum a - INR (length a) * t.
Proof.
  induction a as [|v a IH]; cbn [map length].
  - unfold xp.sum. cbn. lra.
  - rewrite !sum_cons, IH, S_INR. lra.
Qed.

Lemma excess_antitone (x : row) (t1 t2 : R) :
  t1 <= t2 -> excess x t2 <= excess x t1.
Proof.
  intros Ht. unfold excess. apply sum_map_le, Forall_forall.
  intros v _. unfold Rmax. rdecide.
Qed.

Lemma threshold_equation_unique (x : row) (tau t1 t2 : R) :
  0 < tau -> t1 = 2 * tau * excess x t1 -> t2 = 2 * tau * excess x t2 ->
  t1 = t2.
Proof.
  intros Ht H1 H2.
  destruct (Rtotal_order t1 t2) as [Hlt|[Heq|Hgt]]; [|exact Heq|].
  - pose proof (excess_antitone x t1 t2 ltac:(lra)). nra.
  - pose proof (excess_antitone x t2 t1 ltac:(lra)). nra.
Qed.

Lemma excess_sorted (x : row) (t : R) :
  excess x t
  = xp.sum (map (fun v => Rmax (v - t) 0) (xp.flip (xp.sort (map Rabs x)))).
Proof.
  unfold excess, xp.fabs. apply sum_perm.
  apply fmap_Permutation. symmetry. apply sorted_abs_perm.
Qed.

Lemma big_sum_nonneg (n : nat) (f : nat -> R) :
  (forall i, (i < n)%nat -> 0 <= f i) -> 0 <= big_sum n f.
Proof.
  induction n as [|n IH]; intros H; cbn; [lra|].
  specialize (IH ltac:(intros; apply H; lia)).
  specialize (H n ltac:(lia)). lra.
Qed.

Lemma sorted_abs_entry_nonneg (x : row) (i : nat) :
  0 <= entry (xp.flip (xp.sort (map Rabs x))) i.
Proof.
  set (z := xp.flip (xp.sort (map Rabs x))).
  destruct (decide (i < length z)%nat) as [Hi|Hi].
  - pose proof (lookup_entry z i Hi) as Hl.
    apply list_elem_of_lookup_2 in Hl. unfold z in Hl at 2.
    rewrite sorted_abs_perm in Hl.
    apply list_elem_of_fmap in Hl as (v & -> & _). apply Rabs_pos.
  - unfold entry. rewrite nth_overflow by lia. lra.
Qed.

(** The entry after the last positive test value is below the threshold. *)
Lemma next_entry_below (tau : R) (z : row) (k : nat) :
  0 < tau ->
  ~ 0 < SortSteps.test_value tau z (S k) ->
  entry z (S k) <= SortSteps.threshold tau z k.
Proof.
  intros Ht Hn. unfold SortSteps.test_value, SortSteps.threshold in *.
  unfold SortSteps.cumulative in *. cbn [big_sum] in *.
  set (C := big_sum k (entry z) + entry z k) in *.
  set (w := entry z (S k)) in *.
  unfold SortSteps.factor in *. rewrite S_INR in Hn.
  pose proof (pos_INR k) as Hk.
  set (n := INR k) in *. clearbody C w n.
  assert (Hd1 : 0 < 1 + (n + 1) * (2 * tau)) by nra.
  assert (Hd2 : 0 < 1 + (n + 1 + 1) * (2 * tau)) by nra.
  assert (Hle : w <= 2 * tau / (1 + (n + 1 + 1) * (2 * tau)) * (C + w)) by lra.
  apply (Rmult_le_compat_r (1 + (n + 1 + 1) * (2 * tau))) in Hle; [|lra].
  replace (2 * tau / (1 + (n + 1 + 1) * (2 * tau)) * (C + w)
           * (1 + (n + 1 + 1) * (2 * tau)))
    with (2 * tau * (C + w)) in Hle by (field; lra).
  apply (Rmult_le_reg_r (1 + (n + 1) * (2 * tau))); [exact Hd1|].
  replace (2 * tau / (1 + (n + 1) * (2 * tau)) * C * (1 + (n + 1) * (2 * tau)))
    with (2 * tau * C) by (field; lra).
  lra.
Qed.

(** The threshold of the sort-based prox solves the threshold equation. *)
Lemma sort_threshold_equation (x : row) (tau : R) (k : nat) :
  0 < tau ->
  let z := xp.flip (xp.sort (map Rabs x)) in
  SortSteps.last_positive tau z k ->
  let t := SortSteps.threshold tau z k in
  0 < t /\ t < entry z 0 /\ t = 2 * tau * excess x t.
Proof.
  intros Ht z (Hk & Hpos & Hlast) t.
  pose proof (proj1 (strongly_descending z) (sorted_abs_strongly x)) as Hdesc.
  assert (Hzk : t < entry z k).
  { unfold SortSteps.test_value in Hpos. fold (SortSteps.threshold tau z k) in Hpos.
    fold t in Hpos. lra. }
  assert (HC : entry z k <= SortSteps.cumulative z k).
  { unfold SortSteps.cumulative. cbn [big_sum].
    pose proof (big_sum_nonneg k (entry z)
                  ltac:(intros; apply sorted_abs_entry_nonneg)). lra. }
  pose proof (factor_pos tau k Ht) as Hf.
  pose proof (sorted_abs_entry_nonneg x k) as Hzk0. fold z in Hzk0.
  assert (Ht0 : 0 <= t) by (unfold t, SortSteps.threshold; nra).
  assert (Htpos : 0 < t) by (unfold t, SortSteps.threshold; nra).
  split; [exact Htpos|]. split.
  { specialize (Hdesc 0%nat k ltac:(lia)). lra. }
  assert (Htake : Forall (fun v => t < v) (take (S k) z)).
  { apply Forall_lookup. intros j v Hj.
    apply lookup_take_Some in Hj as [Hj Hlt].
    specialize (Hdesc j k ltac:(lia)).
    rewrite (entry_lookup _ _ _ Hj) in Hdesc. lra. }
  assert (Hdrop : Forall (fun v => v <= t) (drop (S k) z)).
  { apply Forall_lookup. intros j v Hj. rewrite lookup_drop in Hj.
    pose proof (lookup_lt_Some _ _ _ Hj) as Hlt.
    assert (Hnext : entry z (S k) <= t).
    { apply next_entry_below; [exact Ht|]. apply Hlast. lia. }
    specialize (Hdesc (S k) (S k + j)%nat ltac:(lia)).
    rewrite (entry_lookup _ _ _ Hj) in Hdesc. lra. }
  rewrite excess_sorted. fold z.
  rewrite <- (take_drop (S k) z) at 1. rewrite map_app, sum_app.
  rewrite (sum_map_eq _ (fun v => v - t) (take (S k) z)).
  2:{ eapply Forall_impl; [exact Htake|]. cbn. intros v Hv.
      unfold Rmax. rdecide. }
  rewrite (sum_map_zero _ (drop (S k) z)).
  2:{ eapply Forall_impl; [exact Hdrop|]. cbn. intros v Hv.
      unfold Rmax. rdecide. }
  rewrite sum_map_shift, sum_take_cumulative by exact Hk.
  rewrite length_take, Nat.min_l, S_INR by lia.
  unfold t, SortSteps.threshold, SortSteps.factor.
  pose proof (pos_INR k). field. nra.
Qed.

(** ** The root finder *)

Lemma brentq_Ok (f : R -> R) (a b r : R) :
  scipy_optimize.brentq f a b = Ok r ->
  f r = 0 /\ scipy_optimize.between a b r.
Proof.
  unfold scipy_optimize.brentq, scipy_optimize.between.
  destruct (Rlt_dec 0 (f a * f b)); [discriminate|].
  destruct (Req_dec_T (f a) 0) as [Ha|_].
  { intros [= <-]. split; [exact Ha|]. split; [apply Rmin_l|apply Rmax_l]. }
  destruct (Req_dec_T (f b) 0) as [Hb|_].
  { intros [= <-]. split; [exact Hb|]. split; [apply Rmin_r|apply Rmax_r]. }
  destruct (excluded_middle_informative _) as [H|_]; [|discriminate].
  intros [= <-].
  pose proof (proj2_sig (constructive_indefinite_description _ H)) as [Hr Hf].
  split; [exact Hf|exact Hr].
Qed.

Lemma brentq_returns (f : R -> R) (a b : R) :
  ~ 0 < f a * f b -> scipy_optimize.has_root f a b ->
  exists r, scipy_optimize.brentq f a b = Ok r.
Proof.
  intros Hs Hr. unfold scipy_optimize.brentq.
  destruct (Rlt_dec 0 (f a * f b)); [contradiction|].
  destruct (Req_dec_T (f a) 0); [eauto|].
  destruct (Req_dec_T (f b) 0); [eauto|].
  destruct (excluded_middle_informative _); [eauto|contradiction].
Qed.

(** ** The root-based prox *)

Lemma mu_min_pos : 0 < SquaredL1Norm.mu_min.
Proof. unfold SquaredL1Norm.mu_min. apply Rdiv_lt_0_compat; [lra|]. apply pow_lt. lra. Qed.

Lemma sum_squares_pos (x : row) :
  nonzero_row x -> 0 < xp.sum (map (fun v => v * v) x).
Proof.
  induction 1 as [v x Hv|v x Hx IH]; cbn [map]; rewrite sum_cons.
  - pose proof (sum_squares_nonneg x). nra.
  - nra.
Qed.

Lemma norm2_pos (x : row) : nonzero_row x -> 0 < xp.linalg_norm xp.ord2 x.
Proof. intros Hx. apply sqrt_lt_R0, sum_squares_pos, Hx. Qed.

Lemma max_squares (x : row) :
  nonzero_row x ->
  exists m, xp.max (map (fun v => v ^ 2) (xp.fabs x)) = Ok m /\ 0 < m /\
            Forall (fun v => v ^ 2 <= m) (xp.fabs x).
Proof.
  intros Hx.
  destruct (max_nonempty (map (fun v => v ^ 2) (xp.fabs x))) as [m Hm].
  { inversion Hx; discriminate. }
  exists m. split; [exact Hm|].
  pose proof (proj1 (max_le_iff _ _ m Hm) ltac:(lra)) as Hall.
  rewrite Forall_map in Hall. split; [|exact Hall].
  apply Exists_exists in Hx as (v & Hv & Hne).
  rewrite Forall_forall in Hall.
  specialize (Hall (Rabs v) ltac:(apply list_elem_of_fmap; eauto)).
  cbn in Hall. pose proof (Rabs_pos_lt v Hne). nra.
Qed.

(** For [mu > 0] the scalar function of the root-based prox is the
    threshold equation in the variable [2 tau / sqrt(tau / mu)]. *)
Lemma root_func_excess (x : row) (tau mu : R) :
  0 < tau -> 0 < mu ->
  let s := sqrt (tau / mu) in
  0 < s /\ SquaredL1Norm.root_func x tau mu = s * excess x (2 * tau / s) - 1.
Proof.
  intros Ht Hmu s.
  assert (Hs : 0 < s) by (apply sqrt_lt_R0, Rdiv_lt_0_compat; lra).
  split; [exact Hs|].
  unfold SquaredL1Norm.root_func, excess. fold s. f_equal.
  rewrite <- sum_map_scale. apply sum_map_eq, Forall_forall. intros v _.
  replace (v * s - 2 * tau) with (s * (v - 2 * tau / s)) by (field; lra).
  unfold Rmax. rdecide; nra.
Qed.

Lemma root_func_antitone (x : row) (tau mu1 mu2 : R) :
  0 < tau -> 0 < mu1 -> mu1 <= mu2 ->
  SquaredL1Norm.root_func x tau mu2 <= SquaredL1Norm.root_func x tau mu1.
Proof.
  intros Ht H1 H12. unfold SquaredL1Norm.root_func.
  apply Rplus_le_compat_r, sum_map_le. unfold xp.fabs.
  rewrite Forall_map. apply Forall_forall. intros v _. cbn.
  assert (Hq : sqrt (tau / mu2) <= sqrt (tau / mu1)).
  { apply sqrt_le_1_alt. unfold Rdiv. apply Rmult_le_compat_l; [lra|].
    apply Rinv_le_contravar; lra. }
  pose proof (Rabs_pos v). unfold Rmax. rdecide; nra.
Qed.

Lemma root_func_at_mu_max (x : row) (tau m : R) :
  0 < tau -> 0 < m -> Forall (fun v => v ^ 2 <= m) (xp.fabs x) ->
  SquaredL1Norm.root_func x tau (m / (4 * tau)) = -1.
Proof.
  intros Ht Hm Hall. unfold SquaredL1Norm.root_func.
  rewrite sum_map_zero; [lra|].
  eapply Forall_impl; [exact Hall|]. cbn. intros v Hv.
  set (q := sqrt (tau / (m / (4 * tau)))).
  assert (Hq0 : 0 <= q) by apply sqrt_pos.
  assert (Hq2 : q * q = 4 * tau * tau / m).
  { unfold q. rewrite sqrt_sqrt; [field; lra|].
    apply Rlt_le, Rdiv_lt_0_compat; [lra|apply Rdiv_lt_0_compat; lra]. }
  assert (Hvq : v * q <= 2 * tau).
  { destruct (Rle_dec v 0) as [Hneg|Hp]; [nra|].
    apply Rnot_lt_le. intros Hgt.
    assert (H1 : (2 * tau) * (2 * tau) < (v * q) * (v * q)) by nra.
    replace (v * q * (v * q)) with (v ^ 2 * (q * q)) in H1 by ring.
    rewrite Hq2 in H1.
    assert (H2 : v ^ 2 * (4 * tau * tau / m) <= m * (4 * tau * tau / m)).
    { apply Rmult_le_compat_r; [|exact Hv].
      apply Rlt_le, Rdiv_lt_0_compat; nra. }
    replace (m * (4 * tau * tau / m)) with (4 * tau * tau) in H2 by (field; lra).
    lra. }
  unfold Rmax. rdecide.
Qed.

(** The rational shrinkage [lambda * arr / (lambda + 2 tau)] is a
    soft-threshold. *)
Lemma shrinkage_soft (tau s : R) (x : row) :
  0 < tau -> 0 < s ->
  let lambda_ := map (fun v => Rmax (v * s - 2 * tau) 0) (map Rabs x) in
  zip_with Rdiv (zip_with Rmult lambda_ x) (map (fun l => l + 2 * tau) lambda_)
  = soft_threshold (2 * tau / s) x.
Proof.
  intros Ht Hs. cbn zeta. unfold soft_threshold.
  induction x as [|v x IH]; [reflexivity|]. cbn [map zip_with].
  rewrite IH. f_equal. unfold soft.
  assert (Hts : 2 * tau / s * s = 2 * tau) by (field; lra).
  assert (Hq : 0 < 2 * tau / s) by (apply Rdiv_lt_0_compat; lra).
  unfold xp.sign1, Rmax, Rabs.
  rdecide; try (field; lra); try nra.
Qed.

(** What [_prox_root] returns on a non-zero input, once the root finder
    has returned. *)
Lemma prox_root_result (x : row) (tau m mu_star : R) :
  0 < tau -> nonzero_row x ->
  xp.max (map (fun v => v ^ 2) (xp.fabs x)) = Ok m ->
  scipy_optimize.brentq (SquaredL1Norm.root_func x tau)
    SquaredL1Norm.mu_min (m / (4 * tau)) = Ok mu_star ->
  0 < mu_star ->
  SquaredL1Norm._prox_root x tau
  = Ok (soft_threshold (2 * tau / sqrt (tau / mu_star)) x).
Proof.
  intros Ht Hx Hm Hb Hmu. unfold SquaredL1Norm._prox_root.
  destruct (Rlt_dec _ _) as [_|Hn]; [|exfalso; apply Hn, norm2_pos, Hx].
  rewrite Hm. cbn [rbind]. rewrite Hb. cbn [rbind]. f_equal.
  apply shrinkage_soft; [exact Ht|].
  apply sqrt_lt_R0, Rdiv_lt_0_compat; lra.
Qed.

Lemma between_pos (a b r : R) :
  0 < a -> 0 < b -> scipy_optimize.between a b r -> 0 < r.
Proof.
  intros Ha Hb [Hr _]. unfold Rmin in Hr.
  destruct (Rle_dec a b); lra.
Qed.

(** Extent of the bracket defect of [_prox_root], for the exact root finder
    [scipy_optimize.brentq] of this development: for [tau > 0] and a
    non-zero input on which the scalar function is non-negative at the
    lower end [mu_min] of the bracket, the bracket holds a root and the
    root-based and the sort-based prox return the same array.  Nothing is
    said here about a root finder that stops within a tolerance. *)
Lemma prox_root_sort_agree (x : row) (tau : R) :
  0 < tau -> nonzero_row x ->
  0 <= SquaredL1Norm.root_func x tau SquaredL1Norm.mu_min ->
  exists y,
    SquaredL1Norm._prox_root x tau = Ok y /\
    SquaredL1Norm._prox_sort x tau = Ok y.
Proof.
  intros Ht Hx Hmin. set (z := xp.flip (xp.sort (map Rabs x))).
  destruct (sorted_abs_head_pos x Hx) as [Hlen Hhead]. fold z in Hlen, Hhead.
  destruct (last_positive_exists tau z 0 Hlen (test_value_head _ _ Ht Hhead))
    as [k Hk].
  set (t := SortSteps.threshold tau z k).
  destruct (sort_threshold_equation x tau k Ht Hk) as (Htpos & Htz & Hteq).
  fold z t in Htpos, Htz, Hteq.
  exists (soft_threshold t x). split; [|now apply prox_sort_result].
  destruct (max_squares x Hx) as (m & Hm & Hmpos & Hall).
  pose proof (root_func_at_mu_max x tau m Ht Hmpos Hall) as Hmax.
  pose proof mu_min_pos as Hmu_min.
  assert (Hmu_max : 0 < m / (4 * tau)) by (apply Rdiv_lt_0_compat; lra).
  set (f := SquaredL1Norm.root_func x tau) in *.
  (* the bracket holds a root *)
  assert (Hroot : scipy_optimize.has_root f SquaredL1Norm.mu_min (m / (4 * tau))).
  { destruct (Req_dec_T (f SquaredL1Norm.mu_min) 0) as [H0|Hne].
    { exists SquaredL1Norm.mu_min. split; [|exact H0].
      split; [apply Rmin_l|apply Rmax_l]. }
    set (mu := t * t / (4 * tau)).
    assert (Hmu : 0 < mu) by (apply Rdiv_lt_0_compat; nra).
    assert (Hs : sqrt (tau / mu) = 2 * tau / t).
    { replace (tau / mu) with ((2 * tau / t) * (2 * tau / t))
        by (unfold mu; field; lra).
      apply sqrt_square, Rlt_le, Rdiv_lt_0_compat; lra. }
    assert (Hfmu : f mu = 0).
    { unfold f. rewrite (proj2 (root_func_excess x tau mu Ht Hmu)), Hs.
      replace (2 * tau / (2 * tau / t)) with t by (field; lra).
      apply (Rmult_eq_reg_l t); [|lra].
      replace (t * (2 * tau / t * excess x t - 1))
        with (2 * tau * excess x t - t) by (field; lra). lra. }
    exists mu. split; [|exact Hfmu]. split.
    - eapply Rle_trans; [apply Rmin_l|].
      apply Rnot_lt_le. intros Hlt.
      pose proof (root_func_antitone x tau mu SquaredL1Norm.mu_min Ht Hmu
                    ltac:(lra)) as Hanti.
      fold f in Hanti. lra.
    - eapply Rle_trans; [|apply Rmax_r].
      assert (Hz0 : entry z 0 ^ 2 <= m).
      { rewrite Forall_forall in Hall. apply Hall. unfold xp.fabs.
        rewrite <- (sorted_abs_perm x). fold z.
        eapply list_elem_of_lookup_2, lookup_entry, Hlen. }
      unfold mu. apply (Rmult_le_reg_r (4 * tau)); [lra|].
      replace (t * t / (4 * tau) * (4 * tau)) with (t * t) by (field; lra).
      replace (m / (4 * tau) * (4 * tau)) with m by (field; lra). nra. }
  assert (Hsign : ~ 0 < f SquaredL1Norm.mu_min * f (m / (4 * tau)))
    by (rewrite Hmax; lra).
  destruct (brentq_returns f _ _ Hsign Hroot) as [r Hr].
  destruct (brentq_Ok _ _ _ _ Hr) as [Hfr Hbetween].
  pose proof (between_pos _ _ _ Hmu_min Hmu_max Hbetween) as Hrpos.
  rewrite (prox_root_result x tau m r Ht Hx Hm Hr Hrpos). do 2 f_equal.
  destruct (root_func_excess x tau r Ht Hrpos) as [Hs Hfs].
  fold f in Hfs. rewrite Hfr in Hfs.
  apply (threshold_equation_unique x tau); [exact Ht| |exact Hteq].
  set (s := sqrt (tau / r)) in *.
  apply (Rmult_eq_reg_l s); [|lra].
  replace (s * (2 * tau / s)) with (2 * tau) by (field; lra).
  replace (s * (2 * tau * excess x (2 * tau / s)))
    with (2 * tau * (s * excess x (2 * tau / s))) by ring.
  nra.
Qed.

Lemma sqrt_inv_mu_min : sqrt (1 / SquaredL1Norm.mu_min) = 10 ^ 6.
Proof.
  unfold SquaredL1Norm.mu_min.
  replace (1 / (1 / 10 ^ 12)) with (10 ^ 6 * 10 ^ 6) by (field; lra).
  apply sqrt_square. lra.
Qed.

Lemma prox_root_sort_agree_witness :
  exists y,
    SquaredL1Norm._prox_root [1] 1 = Ok y /\
    SquaredL1Norm._prox_sort [1] 1 = Ok y.
Proof.
  apply (prox_root_sort_agree [1] 1).
  - lra.
  - apply Exists_cons_hd. lra.
  - unfold SquaredL1Norm.root_func, xp.fabs. cbn [map].
    rewrite sqrt_inv_mu_min, !sum_cons. unfold xp.sum. cbn.
    unfold Rmax, Rabs. rdecide.
Defined.

(** C2. The root-based and the sort-based prox of [SquaredL1Norm] are not
    interchangeable.  On the non-zero input [[1e-7]] with [tau = 1] the
    upper end [max(|x|^2) / (4 tau) = 2.5e-15] of the bracket of
    [_prox_root] lies below its fixed lower end [mu_min = 1e-12], the
    scalar function is [-1] at both ends, and [_prox_root] raises the
    [ValueError] of the root finder.  On the same input [_prox_sort]
    returns [[1e-7 / 3]], which satisfies the optimality condition
    [y = soft_threshold (2 tau ||y||_1) x] of the prox. *)
Theorem prox_root_sort_disagree :
  xp.max (map (fun v => v ^ 2) (xp.fabs [1 / 10 ^ 7]))
    = Ok ((1 / 10 ^ 7) ^ 2) /\
  (1 / 10 ^ 7) ^ 2 / (4 * 1) < SquaredL1Norm.mu_min /\
  SquaredL1Norm.root_func [1 / 10 ^ 7] 1 SquaredL1Norm.mu_min = -1 /\
  SquaredL1Norm.root_func [1 / 10 ^ 7] 1 ((1 / 10 ^ 7) ^ 2 / (4 * 1)) = -1 /\
  SquaredL1Norm._prox_root [1 / 10 ^ 7] 1
    = Raise (ValueError "f(a) and f(b) must have different signs") /\
  SquaredL1Norm._prox_sort [1 / 10 ^ 7] 1 = Ok [1 / (3 * 10 ^ 7)] /\
  [1 / (3 * 10 ^ 7)]
    = soft_threshold (2 * 1 * xp.linalg_norm xp.ord1 [1 / (3 * 10 ^ 7)])
        [1 / 10 ^ 7] /\
  SquaredL1Norm._prox_root [1 / 10 ^ 7] 1
    <> SquaredL1Norm._prox_sort [1 / 10 ^ 7] 1.
Proof.
  set (c := 1 / 10 ^ 7).
  assert (Hc : 0 < c) by (unfold c; lra).
  assert (Habs : Rabs c = c) by (apply Rabs_right; lra).
  assert (Hx : nonzero_row [c]) by (apply Exists_cons_hd; lra).
  assert (Hm : xp.max (map (fun v => v ^ 2) (xp.fabs [c])) = Ok (c ^ 2)).
  { cbn [xp.fabs map xp.max fold_left]. now rewrite Habs. }
  assert (Hinv : c ^ 2 / (4 * 1) < SquaredL1Norm.mu_min).
  { unfold SquaredL1Norm.mu_min, c. lra. }
  assert (Hmin : SquaredL1Norm.root_func [c] 1 SquaredL1Norm.mu_min = -1).
  { unfold SquaredL1Norm.root_func, xp.fabs. cbn [map].
    rewrite sqrt_inv_mu_min, !sum_cons, Habs. unfold xp.sum. cbn.
    unfold Rmax. unfold c. rdecide. }
  assert (Hmax : SquaredL1Norm.root_func [c] 1 (c ^ 2 / (4 * 1)) = -1).
  { apply root_func_at_mu_max; [lra|nra|].
    constructor; [rewrite Habs; lra|constructor]. }
  assert (Hroot : SquaredL1Norm._prox_root [c] 1
                  = Raise (ValueError "f(a) and f(b) must have different signs")).
  { unfold SquaredL1Norm._prox_root.
    destruct (Rlt_dec _ _) as [_|Hn]; [|exfalso; apply Hn, norm2_pos, Hx].
    rewrite Hm. cbn [rbind].
    rewrite brentq_sign_error; [reflexivity|].
    rewrite Hmin, Hmax. lra. }
  assert (Hsort : SquaredL1Norm._prox_sort [c] 1 = Ok [1 / (3 * 10 ^ 7)]).
  { assert (Hz : xp.flip (xp.sort (map Rabs [c])) = [c]).
    { apply sorted_abs_unique; [cbn; now rewrite Habs|repeat constructor]. }
    rewrite (prox_sort_result [c] 1 0).
    - rewrite Hz. f_equal.
      unfold SortSteps.threshold, SortSteps.factor, SortSteps.cumulative,
        soft_threshold, soft, entry. cbn. rewrite Habs.
      unfold xp.sign1, Rmax, c. rdecide; repeat (f_equal; try lra).
    - rewrite Hz. unfold SortSteps.last_positive, SortSteps.test_value,
        SortSteps.factor, SortSteps.cumulative, entry. cbn.
      split; [lia|split; [lra|]]. intros j Hj. lia. }
  assert (Hopt : [1 / (3 * 10 ^ 7)]
                 = soft_threshold
                     (2 * 1 * xp.linalg_norm xp.ord1 [1 / (3 * 10 ^ 7)]) [c]).
  { assert (Hy : Rabs (1 / (3 * 10 ^ 7)) = 1 / (3 * 10 ^ 7))
      by (apply Rabs_right; lra).
    unfold xp.linalg_norm, xp.fabs, soft_threshold, soft. cbn [map].
    rewrite sum_cons, Hy, Habs. unfold xp.sum. cbn.
    unfold xp.sign1, Rmax, c. rdecide; repeat (f_equal; try lra). }
  repeat (split; [assumption|]).
  rewrite Hroot, Hsort. discriminate.
Qed.

(** ** Stepping through store computations *)

Lemma run_bind {A B : Type} (m : M A) (k : A -> M B) (h : heap) :
  (m ≫= k) h = match m h with
               | Ok (a, h') => k a h'
               | Raise e => Raise e
               end.
Proof. reflexivity. Qed.

Lemma run_ret {A : Type} (a : A) (h : heap) : (mret a : M A) h = Ok (a, h).
Proof. reflexivity. Qed.

Lemma run_load (l : loc) (v : array) (h : heap) :
  h !! l = Some v -> load l h = Ok (v, h).
Proof. intros H. unfold load. now rewrite H. Qed.

Lemma run_dict_get (d : gmap string loc) (key : string) (l : loc) (h : heap) :
  d !! key = Some l -> dict_get d key h = Ok (l, h).
Proof. intros H. unfold dict_get. now rewrite H. Qed.

Lemma run_lift {A : Type} (a : A) (h : heap) : lift (Ok a) h = Ok (a, h).
Proof. reflexivity. Qed.

Lemma binop_Ok (f : R -> R -> R) (a b : array) :
  np.shape a = np.shape b -> np.binop f a b = Ok (zip_with (zip_with f) a b).
Proof. intros H. unfold np.binop. now rewrite decide_True. Qed.

Lemma run_inplace (f : R -> R -> R) (l : loc) (t v : array) (h : heap) :
  h !! l = Some t -> np.shape t = np.shape v ->
  inplace f l v h = Ok (tt, <[l := zip_with (zip_with f) t v]> h).
Proof.
  intros Hl Hs. unfold inplace.
  rewrite run_bind, (run_load _ _ _ Hl), run_bind, (binop_Ok _ _ _ Hs).
  reflexivity.
Qed.

Lemma run_inplace_scale (l : loc) (t : array) (col : row) (h : heap) :
  h !! l = Some t -> length col = length t ->
  inplace_scale l col h
  = Ok (tt, <[l := zip_with (fun r c => map (fun v => v * c) r) t col]> h).
Proof.
  intros Hl Hs. unfold inplace_scale, np.scale_r.
  rewrite run_bind, (run_load _ _ _ Hl), run_bind, decide_True by exact Hs.
  reflexivity.
Qed.

Lemma shape_length (a b : array) : np.shape a = np.shape b -> length a = length b.
Proof. unfold np.shape. intros H. now rewrite <- (length_map length a), H, length_map. Qed.

Lemma shape_binop (f : R -> R -> R) (a b : array) :
  np.shape a = np.shape b -> np.shape (zip_with (zip_with f) a b) = np.shape a.
Proof.
  unfold np.shape. revert b. induction a as [|r a IH]; intros [|s b] H;
    try discriminate; [reflexivity|].
  cbn in *. injection H as Hr Hab. rewrite IH by exact Hab.
  rewrite length_zip_with, Hr. f_equal. lia.
Qed.

Lemma shape_scale (col : row) (a : array) :
  length col = length a ->
  np.shape (zip_with (fun c r => map (fun v => c * v) r) col a) = np.shape a.
Proof.
  unfold np.shape. revert a. induction col as [|c col IH]; intros [|r a] H;
    try discriminate; [reflexivity|].
  cbn in *. rewrite IH by lia. now rewrite length_map.
Qed.

Lemma shape_scale_r (col : row) (a : array) :
  length col = length a ->
  np.shape (zip_with (fun r c => map (fun v => v * c) r) a col) = np.shape a.
Proof.
  unfold np.shape. revert a. induction col as [|c col IH]; intros [|r a] H;
    try discriminate; [reflexivity|].
  cbn in *. rewrite IH by lia. now rewrite length_map.
Qed.

Lemma shape_map (A : row -> row) (a : array) :
  (forall r, length (A r) = length r) -> np.shape (map A a) = np.shape a.
Proof.
  intros HA. unfold np.shape. rewrite map_map. apply map_ext. intros r. apply HA.
Qed.

(** ** The values of one CG step *)

Lemma row_axpy (c : R) (x p : row) :
  zip_with Rplus x (map (fun v => c * v) p) = Recurrence.axpy c x p.
Proof. unfold Recurrence.axpy. now rewrite zip_with_fmap_r. Qed.

Lemma row_axmy (c : R) (r q : row) :
  zip_with Rminus r (map (fun v => c * v) q)
  = zip_with (fun ri qi => ri - c * qi) r q.
Proof. now rewrite zip_with_fmap_r. Qed.

Lemma row_scale_add (c : R) (p r : row) :
  zip_with Rplus (map (fun v => v * c) p) r = Recurrence.axpy c r p.
Proof.
  unfold Recurrence.axpy. revert r.
  induction p as [|v p IH]; intros [|w r]; cbn; try reflexivity.
  rewrite IH. f_equal. ring.
Qed.

Lemma step_values (A : row -> row) (X Rs P : array) :
  length X = length Rs -> length Rs = length P ->
  StepValues.x_after X Rs P (map A P) = Recurrence.X_new A X Rs P /\
  StepValues.r_after Rs P (map A P) = Recurrence.R_new A X Rs P /\
  StepValues.p_after Rs P (map A P) = Recurrence.P_new A X Rs P.
Proof.
  revert Rs P. induction X as [|x X IH]; intros [|r Rs] [|p P] H1 H2;
    try discriminate; [repeat split|].
  injection H1 as H1. injection H2 as H2.
  destruct (IH Rs P H1 H2) as (IHx & IHr & IHp).
  unfold StepValues.x_after, StepValues.r_after, StepValues.p_after,
    StepValues.beta, StepValues.r_after, StepValues.alpha, StepValues.scaled,
    np.square, np.norm_rows, np.sum_rows,
    Recurrence.X_new, Recurrence.R_new, Recurrence.P_new, Recurrence.rows3 in *.
  cbn [map zip_with zip fst snd].
  rewrite IHp, IHr, IHx. repeat split; f_equal.
  - apply row_axpy.
  - apply row_axmy.
  - rewrite row_axmy. apply row_scale_add.
Qed.

Lemma alpha_length (Rs P AP : array) :
  length Rs = length P -> length AP = length P ->
  length (StepValues.alpha Rs P AP) = length P.
Proof.
  intros H1 H2. unfold StepValues.alpha, np.square, np.norm_rows, np.sum_rows.
  rewrite length_zip_with, !length_map, length_zip_with. lia.
Qed.

Lemma r_after_shape (Rs P AP : array) :
  np.shape Rs = np.shape P -> np.shape AP = np.shape P ->
  np.shape (StepValues.r_after Rs P AP) = np.shape Rs.
Proof.
  intros H1 H2. unfold StepValues.r_after. apply shape_binop.
  unfold StepValues.scaled. rewrite shape_scale; [congruence|].
  pose proof (shape_length _ _ H1). pose proof (shape_length _ _ H2).
  rewrite alpha_length; lia.
Qed.

Lemma beta_length (Rs P AP : array) :
  np.shape Rs = np.shape P -> np.shape AP = np.shape P ->
  length (StepValues.beta Rs P AP) = length P.
Proof.
  intros H1 H2. unfold StepValues.beta, np.square, np.norm_rows.
  rewrite length_zip_with, !length_map.
  rewrite (shape_length _ _ (r_after_shape Rs P AP H1 H2)).
  rewrite (shape_length _ _ H1). lia.
Qed.

(** ** One step of the solver *)

Ltac step H := rewrite run_bind, H; cbv beta iota.

Lemma colop_Ok (f : R -> R -> R) (c d : row) :
  length c = length d -> np.colop f c d = Ok (zip_with f c d).
Proof. intros H. unfold np.colop. now rewrite decide_True. Qed.

Lemma scale_Ok (col : row) (a : array) :
  length col = length a -> np.scale col a = Ok (StepValues.scaled col a).
Proof. intros H. unfold np.scale. now rewrite decide_True. Qed.

(** C1. One call of [CG.m_step] is one step of the classic recurrence on
    every row of the batch.  For an operator computing [A] row by row, and a
    state whose iterates [x], [residual] and [conjugate_dir] are distinct
    objects of one shape, [m_step] returns, leaves the bindings of the state
    as they are, and leaves in the three objects
    [x + alpha p], [r - alpha A p] and [r_new + beta p], with
    [alpha = ||r||^2 / (p . A p)] and [beta = ||r_new||^2 / ||r||^2] computed
    for each row; no other object is modified. *)
Theorem m_step_recurrence (op : PosDefOp) (A : row -> row)
    (mst : gmap string loc) (h : heap) (x r p : loc) (X Rs P : array) :
  computes op A -> (forall u, length (A u) = length u) ->
  mst !! "x" = Some x -> mst !! "residual" = Some r ->
  mst !! "conjugate_dir" = Some p ->
  x <> r -> x <> p -> r <> p ->
  h !! x = Some X -> h !! r = Some Rs -> h !! p = Some P ->
  np.shape X = np.shape Rs -> np.shape Rs = np.shape P ->
  exists h',
    CG.m_step op mst h = Ok (mst, h') /\
    h' !! x = Some (Recurrence.X_new A X Rs P) /\
    h' !! r = Some (Recurrence.R_new A X Rs P) /\
    h' !! p = Some (Recurrence.P_new A X Rs P) /\
    forall k w, k <> x -> k <> r -> k <> p ->
                h !! k = Some w -> h' !! k = Some w.
Proof.
  intros Hop HA Hmx Hmr Hmp Hxr Hxp Hrp Hx Hr Hp HsX HsR.
  destruct (Hop h p P Hp) as (Ap & h1 & Happly & HAp & Hfresh & Hkeep).
  pose proof (lookup_lt_Some _ _ _ Hx) as Hxlt.
  pose proof (lookup_lt_Some _ _ _ Hr) as Hrlt.
  pose proof (lookup_lt_Some _ _ _ Hp) as Hplt.
  assert (HApx : Ap <> x) by (destruct Hfresh; lia).
  assert (HApr : Ap <> r) by (destruct Hfresh; lia).
  pose proof (Hkeep _ _ Hx) as Hx1. pose proof (Hkeep _ _ Hr) as Hr1.
  pose proof (Hkeep _ _ Hp) as Hp1.
  pose proof (shape_map A P HA) as HsAP.
  pose proof (shape_length _ _ HsX) as HlX.
  pose proof (shape_length _ _ HsR) as HlR.
  pose proof (shape_length _ _ HsAP) as HlAP.
  pose proof (alpha_length Rs P (map A P) HlR HlAP) as Hla.
  pose proof (beta_length Rs P (map A P) HsR HsAP) as Hlb.
  pose proof (r_after_shape Rs P (map A P) HsR HsAP) as HsR'.
  destruct (step_values A X Rs P HlX HlR) as (Ex & Er & Ep).
  unfold CG.m_step.
  step (run_dict_get _ _ _ h Hmx). step (run_dict_get _ _ _ h Hmr).
  step (run_dict_get _ _ _ h Hmp). step Happly.
  step (run_load _ _ _ Hr1). step (run_load _ _ _ Hp1).
  step (run_load _ _ _ HAp).
  rewrite binop_Ok by congruence. step (run_lift (zip_with (zip_with Rmult) P (map A P)) h1).
  rewrite colop_Ok
    by (unfold np.square, np.norm_rows, np.sum_rows;
        rewrite !length_map, length_zip_with; lia).
  fold (StepValues.alpha Rs P (map A P)).
  rewrite run_bind, run_lift. cbv beta iota.
  rewrite scale_Ok by lia. rewrite run_bind, run_lift. cbv beta iota.
  (* x += alpha * p *)
  rewrite run_bind, (run_inplace Rplus x X _ h1 Hx1)
    by (unfold StepValues.scaled; rewrite shape_scale by lia; congruence).
  cbv beta iota.
  fold (StepValues.x_after X Rs P (map A P)).
  set (h2 := <[x := StepValues.x_after X Rs P (map A P)]> h1).
  assert (HAp2 : h2 !! Ap = Some (map A P))
    by (unfold h2; now rewrite list_lookup_insert_ne).
  assert (Hr2 : h2 !! r = Some Rs)
    by (unfold h2; now rewrite list_lookup_insert_ne).
  assert (Hp2 : h2 !! p = Some P)
    by (unfold h2; now rewrite list_lookup_insert_ne).
  step (run_load _ _ _ HAp2).
  rewrite scale_Ok by lia. rewrite run_bind, run_lift. cbv beta iota.
  (* r -= alpha * Ap *)
  rewrite run_bind, (run_inplace Rminus r Rs _ h2 Hr2)
    by (unfold StepValues.scaled; rewrite shape_scale by lia; congruence).
  cbv beta iota.
  fold (StepValues.r_after Rs P (map A P)).
  set (h3 := <[r := StepValues.r_after Rs P (map A P)]> h2).
  assert (Hr3 : h3 !! r = Some (StepValues.r_after Rs P (map A P))).
  { unfold h3. apply list_lookup_insert_eq.
    unfold h2. rewrite length_insert. now apply lookup_lt_Some in Hr1. }
  assert (Hp3 : h3 !! p = Some P)
    by (unfold h3; now rewrite list_lookup_insert_ne).
  step (run_load _ _ _ Hr3).
  rewrite colop_Ok
    by (unfold np.square, np.norm_rows; rewrite !length_map;
        now apply shape_length).
  fold (StepValues.beta Rs P (map A P)).
  rewrite run_bind, run_lift. cbv beta iota.
  (* p *= beta *)
  rewrite run_bind, (run_inplace_scale p P _ h3 Hp3) by lia.
  cbv beta iota.
  set (h4 := <[p := _]> h3).
  assert (Hr4 : h4 !! r = Some (StepValues.r_after Rs P (map A P)))
    by (unfold h4; now rewrite list_lookup_insert_ne).
  assert (Hp4 : h4 !! p
                = Some (zip_with (fun r c => map (fun v => v * c) r) P
                          (StepValues.beta Rs P (map A P)))).
  { unfold h4. apply list_lookup_insert_eq. now apply lookup_lt_Some in Hp3. }
  step (run_load _ _ _ Hr4).
  (* p += r *)
  rewrite run_bind, (run_inplace Rplus p _ _ h4 Hp4)
    by (rewrite shape_scale_r by lia; congruence).
  cbv beta iota.
  fold (StepValues.p_after Rs P (map A P)).
  rewrite run_ret.
  rewrite (insert_id mst "conjugate_dir" p Hmp), (insert_id mst "residual" r Hmr),
    (insert_id mst "x" x Hmx).
  eexists. split; [reflexivity|].
  rewrite <- Ex, <- Er, <- Ep. split; [|split; [|split]].
  - unfold h4, h3, h2. rewrite !list_lookup_insert_ne by congruence.
    apply list_lookup_insert_eq. now apply lookup_lt_Some in Hx1.
  - unfold h4. rewrite !list_lookup_insert_ne by congruence. exact Hr3.
  - apply list_lookup_insert_eq. unfold h4. rewrite length_insert.
    now apply lookup_lt_Some in Hp3.
  - intros k w Hkx Hkr Hkp Hk. unfold h4, h3, h2.
    rewrite !list_lookup_insert_ne by congruence. now apply Hkeep.
Qed.

Lemma IdentityOperator_computes : computes IdentityOperator (fun u => u).
Proof.
  intros h l v Hl. exists l, h. cbn. rewrite map_id. repeat split; auto.
Qed.

Lemma RowOperator_computes (A : row -> row) : computes (RowOperator A) A.
Proof.
  intros h l v Hl. exists (length h), (h ++ [map A v]). cbn.
  rewrite run_bind, (run_load _ _ _ Hl). repeat split.
  - apply list_lookup_middle. reflexivity.
  - right. lia.
  - intros k w Hk. now apply lookup_app_l_Some.
Qed.

Lemma m_step_recurrence_witness :
  let mst : gmap string loc :=
    <["x" := 0%nat]> (<["residual" := 1%nat]> (<["conjugate_dir" := 2%nat]> ∅)) in
  let h : heap := [ [[0; 0]]; [[1; 2]]; [[1; 2]] ] in
  exists h',
    CG.m_step IdentityOperator mst h = Ok (mst, h') /\
    h' !! 0%nat = Some (Recurrence.X_new (fun u => u) [[0; 0]] [[1; 2]] [[1; 2]]) /\
    h' !! 1%nat = Some (Recurrence.R_new (fun u => u) [[0; 0]] [[1; 2]] [[1; 2]]) /\
    h' !! 2%nat = Some (Recurrence.P_new (fun u => u) [[0; 0]] [[1; 2]] [[1; 2]]) /\
    forall k w, k <> 0%nat -> k <> 1%nat -> k <> 2%nat ->
                h !! k = Some w -> h' !! k = Some w.
Proof.
  intros mst h.
  apply (m_step_recurrence IdentityOperator (fun u => u) mst h 0 1 2
           [[0; 0]] [[1; 2]] [[1; 2]]).
  - exact IdentityOperator_computes.
  - reflexivity.
  - reflexivity.
  - reflexivity.
  - reflexivity.
  - lia.
  - lia.
  - lia.
  - reflexivity.
  - reflexivity.
  - reflexivity.
  - reflexivity.
  - reflexivity.
Defined.

(** On that state the step moves [x] from [[0, 0]] to the solution [[1, 2]]
    of [x = b] and zeroes the residual and the direction. *)
Example recurrence_example :
  Recurrence.X_new (fun u => u) [[0; 0]] [[1; 2]] [[1; 2]] = [[1; 2]] /\
  Recurrence.R_new (fun u => u) [[0; 0]] [[1; 2]] [[1; 2]] = [[0; 0]] /\
  Recurrence.P_new (fun u => u) [[0; 0]] [[1; 2]] [[1; 2]] = [[0; 0]].
Proof.
  assert (Hn : Recurrence.norm_sq [1; 2] = 5).
  { unfold Recurrence.norm_sq, xp.linalg_norm. cbn [map]. rewrite !sum_cons.
    unfold xp.sum. cbn [fold_right].
    rewrite <- Rsqr_pow2, Rsqr_sqrt; lra. }
  assert (Ha : Recurrence.alpha (fun u => u) [1; 2] [1; 2] = 1).
  { unfold Recurrence.alpha. rewrite Hn. unfold Recurrence.dot. cbn.
    unfold xp.sum. cbn. lra. }
  assert (Hr : Recurrence.r_new (fun u => u) [1; 2] [1; 2] = [0; 0]).
  { unfold Recurrence.r_new. rewrite Ha. cbn. repeat (f_equal; try lra). }
  assert (Hb : Recurrence.beta (fun u => u) [1; 2] [1; 2] = 0).
  { unfold Recurrence.beta. rewrite Hr, Hn.
    unfold Recurrence.norm_sq, xp.linalg_norm. cbn [map]. rewrite !sum_cons.
    unfold xp.sum. cbn [fold_right].
    replace (0 * 0 + (0 * 0 + 0)) with 0 by lra. rewrite sqrt_0. lra. }
  unfold Recurrence.X_new, Recurrence.R_new, Recurrence.P_new, Recurrence.rows3.
  cbn [zip zip_with fst snd].
  unfold Recurrence.x_new, Recurrence.p_new. rewrite Ha, Hb, Hr.
  unfold Recurrence.axpy. cbn. repeat split; repeat (f_equal; try lra).
Qed.

(** ** The default stopping criterion *)

Lemma forallb_zip_Forall2 (g : row -> row -> row) (q : row -> bool)
    (B X : array) :
  length B = length X ->
  (forallb q (zip_with g B X) = true <->
   Forall2 (fun b x => q (g b x) = true) B X).
Proof.
  revert X. induction B as [|b B IH]; intros [|x X] H; try discriminate; cbn.
  - split; [constructor|reflexivity].
  - injection H as H. rewrite andb_true_iff, (IH X H). split.
    + intros [Hq HF]. now constructor.
    + intros HF. inversion HF; subst. auto.
Qed.

Lemma default_stop_crit_run (op : PosDefOp) (A : row -> row)
    (mst : gmap string loc) (h : heap) (b x : loc) (B X : array) :
  computes op A ->
  mst !! "b" = Some b -> mst !! "x" = Some x ->
  h !! b = Some B -> h !! x = Some X ->
  np.shape B = np.shape (map A X) ->
  exists h',
    AbsError_stop (CG.default_stop_crit op mst) mst h
    = Ok (forallb (below xp.ord2 (1 / 10 ^ 4))
            (zip_with (zip_with Rminus) B (map A X)), h') /\
    forall k w, h !! k = Some w -> h' !! k = Some w.
Proof.
  intros Hop Hmb Hmx Hb Hx Hshape.
  pose proof (lookup_lt_Some _ _ _ Hb) as Hblt.
  pose proof (lookup_lt_Some _ _ _ Hx) as Hxlt.
  set (h1 := h ++ [B]).
  assert (Hx1 : h1 !! x = Some X) by (unfold h1; now apply lookup_app_l_Some).
  destruct (Hop h1 x X Hx1) as (Ax & h2 & Happly & HAx & Hfresh & Hkeep).
  assert (Hres2 : h2 !! length h = Some B).
  { apply Hkeep. unfold h1. now apply list_lookup_middle. }
  assert (Hlen1 : length h1 = S (length h))
    by (unfold h1; rewrite length_app; cbn; lia).
  assert (HAxne : Ax <> length h) by (destruct Hfresh; lia).
  set (E := zip_with (zip_with Rminus) B (map A X)).
  exists (<[length h := E]> h2). split.
  - unfold AbsError_stop, CG.default_stop_crit, CG.explicit_residual.
    cbn [var f norm eps satisfy_all].
    step (run_dict_get _ _ _ h Hmx).
    rewrite run_bind. step (run_dict_get _ _ _ h Hmb).
    step (run_load _ _ _ Hb).
    rewrite run_bind. unfold alloc at 1. cbv beta iota. fold h1.
    step Happly.
    step (run_load _ _ _ HAx).
    step (run_inplace Rminus (length h) B _ h2 Hres2 Hshape).
    rewrite run_ret. cbv beta iota. fold E.
    rewrite run_bind, (run_load (length h) E); [reflexivity|].
    apply list_lookup_insert_eq. now apply lookup_lt_Some in Hres2.
  - intros k w Hk. pose proof (lookup_lt_Some _ _ _ Hk) as Hklt.
    rewrite list_lookup_insert_ne by lia.
    apply Hkeep. unfold h1. now apply lookup_app_l_Some.
Qed.

(** C7. The default stopping criterion of [CG] recomputes the explicit
    residual [b - A x] from the current iterate [x], in a fresh object and
    without touching any object of the state, and declares convergence
    exactly when the l2 norm of every row of that residual is below
    [1e-4].  The residual that the state stores plays no part. *)
Theorem default_stop_crit_explicit (op : PosDefOp) (A : row -> row)
    (mst : gmap string loc) (h : heap) (b x : loc) (B X : array) :
  computes op A ->
  mst !! "b" = Some b -> mst !! "x" = Some x ->
  h !! b = Some B -> h !! x = Some X ->
  np.shape B = np.shape (map A X) ->
  exists (decision : bool) (h' : heap),
    AbsError_stop (CG.default_stop_crit op mst) mst h = Ok (decision, h') /\
    (decision = true <->
     Forall2 (fun bi xi =>
                xp.linalg_norm xp.ord2 (zip_with Rminus bi (A xi)) < 1 / 10 ^ 4)
             B X) /\
    forall k w, h !! k = Some w -> h' !! k = Some w.
Proof.
  intros Hop Hmb Hmx Hb Hx Hshape.
  destruct (default_stop_crit_run op A mst h b x B X Hop Hmb Hmx Hb Hx Hshape)
    as (h' & Hrun & Hkeep).
  eexists _, h'. split; [exact Hrun|]. split; [|exact Hkeep].
  rewrite zip_with_fmap_r.
  rewrite (forallb_zip_Forall2 (fun bi xi => zip_with Rminus bi (A xi))).
  - unfold below. split; intros HF; eapply Forall2_impl; try exact HF;
      cbn; intros bi xi; rewrite bool_decide_eq_true; auto.
  - apply shape_length in Hshape. now rewrite length_map in Hshape.
Qed.

Lemma default_stop_crit_explicit_witness :
  let mst : gmap string loc :=
    <["b" := 0%nat]> (<["x" := 1%nat]> (<["residual" := 2%nat]> ∅)) in
  let h : heap := [ [[3; 4]]; [[0; 0]]; [[0; 0]] ] in
  exists (decision : bool) (h' : heap),
    AbsError_stop (CG.default_stop_crit IdentityOperator mst) mst h
      = Ok (decision, h') /\
    (decision = true <->
     Forall2 (fun bi xi =>
                xp.linalg_norm xp.ord2 (zip_with Rminus bi xi) < 1 / 10 ^ 4)
             [[3; 4]] [[0; 0]]) /\
    forall k w, h !! k = Some w -> h' !! k = Some w.
Proof.
  intros mst h.
  apply (default_stop_crit_explicit IdentityOperator (fun u => u) mst h 0 1
           [[3; 4]] [[0; 0]]).
  - exact IdentityOperator_computes.
  - reflexivity.
  - reflexivity.
  - reflexivity.
  - reflexivity.
  - reflexivity.
Defined.

(** A state whose stored residual is zero while [b - A x = [3, 4]]: the
    criterion, which looks at the explicit residual, does not stop. *)
Example stored_residual_ignored :
  let mst : gmap string loc :=
    <["b" := 0%nat]> (<["x" := 1%nat]> (<["residual" := 2%nat]> ∅)) in
  let h : heap := [ [[3; 4]]; [[0; 0]]; [[0; 0]] ] in
  exists h',
    AbsError_stop (CG.default_stop_crit IdentityOperator mst) mst h
    = Ok (false, h').
Proof.
  intros mst h.
  destruct (default_stop_crit_run IdentityOperator (fun u => u) mst h 0 1
              [[3; 4]] [[0; 0]] IdentityOperator_computes
              eq_refl eq_refl eq_refl eq_refl eq_refl) as (h' & Hrun & _).
  exists h'. rewrite Hrun. do 2 f_equal.
  cbn [map zip_with forallb]. rewrite andb_true_r.
  unfold below. apply bool_decide_eq_false.
  unfold xp.linalg_norm. cbn [map]. rewrite !sum_cons.
  unfold xp.sum. cbn [fold_right].
  replace ((3 - 0) * (3 - 0) + ((4 - 0) * (4 - 0) + 0)) with (5 * 5) by lra.
  rewrite sqrt_square; lra.
Qed.

(** ** The state [m_init] builds *)

Lemma shape_zeros_like (a : array) : np.shape (np.zeros_like a) = np.shape a.
Proof.
  unfold np.shape, np.zeros_like. rewrite map_map. apply map_ext.
  intros r. apply length_map.
Qed.

(** Started without an initial point, [m_init] binds [x], [residual] and
    [conjugate_dir] to three new, distinct objects of the shape of [b]:
    zeros, and twice [b - A 0].  This is the state [m_step] expects. *)
Lemma m_init_state (op : PosDefOp) (A : row -> row)
    (mst : gmap string loc) (h : heap) (b : loc) (B : array) :
  computes op A -> (forall u, length (A u) = length u) ->
  h !! b = Some B ->
  let Z := np.zeros_like B in
  let R0 := zip_with (zip_with Rminus) B (map A Z) in
  exists mst' h' x r p,
    CG.m_init op mst b None h = Ok (mst', h') /\
    mst' !! "b" = Some b /\ mst' !! "x" = Some x /\
    mst' !! "residual" = Some r /\ mst' !! "conjugate_dir" = Some p /\
    x <> r /\ x <> p /\ r <> p /\ b <> x /\ b <> r /\ b <> p /\
    h' !! b = Some B /\ h' !! x = Some Z /\
    h' !! r = Some R0 /\ h' !! p = Some R0 /\
    np.shape Z = np.shape R0.
Proof.
  intros Hop HA Hb Z R0.
  pose proof (lookup_lt_Some _ _ _ Hb) as Hblt.
  pose proof (shape_zeros_like B) as HsZ. fold Z in HsZ.
  pose proof (shape_map A Z HA) as HsAZ.
  assert (HsR0 : np.shape R0 = np.shape B)
    by (unfold R0; apply shape_binop; congruence).
  set (x := length h). set (h1 := h ++ [Z]).
  set (r := S (length h)). set (h2 := h1 ++ [Z]).
  assert (Hlen1 : length h1 = S (length h))
    by (unfold h1; rewrite length_app; cbn; lia).
  assert (Hlen2 : length h2 = S (S (length h)))
    by (unfold h2; rewrite length_app; cbn; lia).
  assert (Hx2 : h2 !! x = Some Z).
  { unfold h2, h1, x. apply lookup_app_l_Some, list_lookup_middle. reflexivity. }
  assert (Hr2 : h2 !! r = Some Z).
  { unfold h2, r. apply list_lookup_middle. now rewrite Hlen1. }
  assert (Hb2 : h2 !! b = Some B).
  { unfold h2, h1. now do 2 apply lookup_app_l_Some. }
  destruct (Hop h2 x Z Hx2) as (Ax & h3 & Happly & HAx & Hfresh & Hkeep).
  pose proof (Hkeep _ _ Hx2) as Hx3. pose proof (Hkeep _ _ Hr2) as Hr3.
  pose proof (Hkeep _ _ Hb2) as Hb3.
  pose proof (lookup_lt_Some _ _ _ Hr3) as Hrlt3.
  set (h4 := <[r := R0]> h3).
  assert (Hr4 : h4 !! r = Some R0)
    by (unfold h4; now apply list_lookup_insert_eq).
  set (p := length h4).
  assert (Hp : (r < p)%nat) by (unfold p, h4; rewrite length_insert; lia).
  exists (<["conjugate_dir" := p]>
            (<["residual" := r]> (<["x" := x]> (<["b" := b]> mst)))),
         (h4 ++ [R0]), x, r, p.
  split.
  { unfold CG.m_init.
    step (run_load _ _ _ Hb).
    rewrite run_bind. unfold alloc at 1. cbv beta iota. fold Z h1 x.
    rewrite run_bind. unfold alloc at 1. cbv beta iota. fold h2.
    rewrite Hlen1. fold r.
    step Happly. step (run_load _ _ _ HAx).
    rewrite binop_Ok by congruence. rewrite run_bind, run_lift. cbv beta iota.
    fold R0. step (run_load _ _ _ Hr3).
    rewrite decide_True by congruence.
    rewrite run_bind. unfold store at 1. cbv beta iota. fold h4.
    step (run_load _ _ _ Hr4).
    rewrite run_bind. unfold alloc at 1. cbv beta iota. fold p.
    rewrite run_ret. reflexivity. }
  unfold x, r in *.
  repeat split; try lia.
  - now rewrite !lookup_insert_ne by discriminate; rewrite lookup_insert_eq.
  - now rewrite !lookup_insert_ne by discriminate; rewrite lookup_insert_eq.
  - now rewrite !lookup_insert_ne by discriminate; rewrite lookup_insert_eq.
  - now rewrite lookup_insert_eq.
  - apply lookup_app_l_Some. unfold h4. rewrite list_lookup_insert_ne by lia.
    exact Hb3.
  - apply lookup_app_l_Some. unfold h4. rewrite list_lookup_insert_ne by lia.
    exact Hx3.
  - now apply lookup_app_l_Some.
  - apply list_lookup_middle. reflexivity.
  - congruence.
Qed.

(** * Further properties of the functionals *)

(** ** Entry-wise forms *)

Lemma zip_with_map_same (h : R -> R -> R) (f g k : R -> R) (x : row) :
  (forall v, h (f v) (g v) = k v) ->
  zip_with h (map f x) (map g x) = map k x.
Proof.
  intros H. induction x as [|v x IH]; cbn; [reflexivity|].
  now rewrite IH, H.
Qed.

Lemma map_same (k : R -> R) (x : row) :
  Forall (fun v => k v = v) x -> map k x = x.
Proof. induction 1 as [|v x Hv _ IH]; cbn; [reflexivity|]. now rewrite Hv, IH. Qed.

Lemma clip_zip (t : R) (x : row) :
  zip_with Rmult (map (fun v => Rmin v t) (xp.fabs x)) (xp.sign x)
  = map (clip t) x.
Proof.
  unfold xp.fabs, xp.sign. rewrite map_map.
  apply zip_with_map_same. intros v. unfold clip. ring.
Qed.

Lemma L1Norm_prox_soft (x : row) (tau : R) :
  L1Norm.prox x tau = soft_threshold tau x.
Proof. apply soft_zip. Qed.

Lemma soft_plus_clip (t v : R) : soft t v + clip t v = v.
Proof.
  unfold soft, clip, xp.sign1, Rmax, Rmin, Rabs. rdecide.
Qed.

Lemma soft_inside (t v : R) : Rabs v <= t -> soft t v = 0.
Proof.
  intros H. unfold soft, Rmax. destruct (Rle_dec 0 (Rabs v - t)); [|ring].
  replace (Rabs v - t) with 0 by lra. ring.
Qed.

(** X1. Moreau decomposition of the l1 norm: its prox at scale [tau] and
    the projection onto the l-infinity ball of radius [tau] add up to the
    input. *)
Theorem L1Norm_prox_moreau (x : row) (tau t' : R) :
  x <> [] ->
  exists y,
    LInfinityBall.prox tau x t' = Ok y /\
    zip_with Rplus (L1Norm.prox x tau) y = x.
Proof.
  intros Hne. unfold LInfinityBall.prox.
  destruct (max_nonempty (xp.fabs x)) as [m Hm].
  { destruct x; [congruence|discriminate]. }
  rewrite Hm. cbn [rbind]. rewrite L1Norm_prox_soft. unfold soft_threshold.
  destruct (Rle_dec m tau) as [Hin|Hout].
  - exists x. split; [reflexivity|].
    apply (max_le_iff _ _ _ Hm) in Hin. unfold xp.fabs in Hin.
    rewrite Forall_map in Hin.
    rewrite <- (map_id x) at 2.
    rewrite (zip_with_map_same Rplus (soft tau) id (fun v => soft tau v + v))
      by reflexivity.
    apply map_same. eapply Forall_impl; [exact Hin|]. cbn. intros v Hv.
    rewrite soft_inside by exact Hv. lra.
  - eexists. split; [reflexivity|]. rewrite clip_zip.
    rewrite (zip_with_map_same Rplus (soft tau) (clip tau) (fun v => v))
      by (intros; apply soft_plus_clip).
    apply map_id.
Qed.

Lemma L1Norm_prox_moreau_witness :
  exists y,
    LInfinityBall.prox 1 [-3; 1/2] 1 = Ok y /\
    zip_with Rplus (L1Norm.prox [-3; 1/2] 1) y = [-3; 1/2].
Proof. apply (L1Norm_prox_moreau [-3; 1/2] 1 1). discriminate. Defined.

(** ** The l2 norm *)

Lemma norm2_scale (s : R) (x : row) :
  xp.linalg_norm xp.ord2 (map (fun v => v * s) x)
  = Rabs s * xp.linalg_norm xp.ord2 x.
Proof.
  unfold xp.linalg_norm. rewrite map_map.
  rewrite (map_ext _ (fun v => (s * s) * (v * v))) by (intros; ring).
  rewrite sum_map_scale, sqrt_mult_alt by nra.
  f_equal. rewrite <- (sqrt_Rsqr_abs s). reflexivity.
Qed.

(** X2. [L2Norm.prox] shrinks the norm by [tau] and stops at zero: the
    output has norm [max(||x||_2 - tau, 0)]; and (Moreau decomposition) it
    adds up to the input with the projection onto the l2 ball of radius
    [tau]. *)
Theorem L2Norm_prox_shrinks (x : row) (tau t' : R) :
  0 < tau ->
  xp.linalg_norm xp.ord2 (L2Norm.prox x tau)
    = Rmax (xp.linalg_norm xp.ord2 x - tau) 0 /\
  zip_with Rplus (L2Norm.prox x tau) (L2Ball.prox tau x t') = x.
Proof.
  intros Ht. unfold L2Norm.prox, L2Ball.prox, pylinalg.norm.
  set (n := xp.linalg_norm xp.ord2 x).
  pose proof (norm2_nonneg x) as Hn. fold n in Hn.
  rewrite norm2_scale. fold n. split.
  - unfold Rmax. destruct (Rle_dec n tau), (Rle_dec (n - tau) 0); try lra.
    + replace (1 - tau / tau) with 0 by (field; lra).
      rewrite Rabs_R0. ring.
    + rewrite Rabs_right.
      * field. lra.
      * apply Rle_ge.
        assert (tau / n < 1).
        { apply (Rmult_lt_reg_r n); [lra|].
          replace (tau / n * n) with tau by (field; lra). lra. }
        lra.
  - destruct (Rle_dec n tau) as [Hin|Hout].
    + rewrite <- (map_id x) at 2.
      rewrite (zip_with_map_same Rplus _ id (fun v => v)); [apply map_id|].
      intros v. unfold Rmax. destruct (Rle_dec n tau); [|lra].
      unfold id. field. lra.
    + rewrite (zip_with_map_same Rplus _ _ (fun v => v)); [apply map_id|].
      intros v. unfold Rmax. destruct (Rle_dec n tau); [lra|].
      field. lra.
Qed.

Lemma L2Norm_prox_shrinks_witness :
  xp.linalg_norm xp.ord2 (L2Norm.prox [3; 4] 1)
    = Rmax (xp.linalg_norm xp.ord2 [3; 4] - 1) 0 /\
  zip_with Rplus (L2Norm.prox [3; 4] 1) (L2Ball.prox 1 [3; 4] 1) = [3; 4].
Proof. apply (L2Norm_prox_shrinks [3; 4] 1 1). lra. Defined.

(** ** The squared l2 norm *)

(** X3. [SquaredL2Norm.prox] solves the optimality condition of the prox:
    the output [y] satisfies [y + tau * grad(y) = x]. *)
Theorem SquaredL2Norm_prox_optimal (x : row) (tau : R) :
  0 < tau ->
  let y := SquaredL2Norm.prox x tau in
  zip_with Rplus y (map (fun g => tau * g) (SquaredL2Norm.grad y)) = x.
Proof.
  intros Ht. cbn zeta. unfold SquaredL2Norm.prox, SquaredL2Norm.grad.
  rewrite !map_map.
  rewrite (zip_with_map_same Rplus _ _ (fun v => v)); [apply map_id|].
  intros v. field. lra.
Qed.

Lemma SquaredL2Norm_prox_optimal_witness :
  let y := SquaredL2Norm.prox [3; -6] 1 in
  zip_with Rplus y (map (fun g => 1 * g) (SquaredL2Norm.grad y)) = [3; -6].
Proof. apply (SquaredL2Norm_prox_optimal [3; -6] 1). lra. Defined.

Lemma zip_with_minus_map (k : R) (x y : row) :
  zip_with Rminus (map (fun v => k * v) x) (map (fun v => k * v) y)
  = map (fun v => v * k) (zip_with Rminus x y).
Proof.
  revert y. induction x as [|a x IH]; intros [|b y]; cbn; try reflexivity.
  rewrite IH. f_equal. ring.
Qed.

(** X4. [SquaredL2Norm]: [apply] returns the sum of the squares of the
    entries, and the gradient is Lipschitz with constant exactly [2] (the
    value [__init__] stores in [_diff_lipschitz]):
    [||grad(x) - grad(y)||_2 = 2 ||x - y||_2]. *)
Theorem SquaredL2Norm_apply_grad (x y : row) :
  SquaredL2Norm.apply x = [big_sum (length x) (fun i => entry x i * entry x i)] /\
  xp.linalg_norm xp.ord2
    (zip_with Rminus (SquaredL2Norm.grad x) (SquaredL2Norm.grad y))
  = Lipschitz.SquaredL2Norm_diff * xp.linalg_norm xp.ord2 (zip_with Rminus x y).
Proof.
  unfold Lipschitz.SquaredL2Norm_diff. split.
  - unfold SquaredL2Norm.apply, pylinalg.norm. f_equal.
    rewrite norm2_as_big_sum. rewrite <- Rsqr_pow2. apply Rsqr_sqrt.
    apply big_sum_nonneg. intros i _. nra.
  - unfold SquaredL2Norm.grad. rewrite zip_with_minus_map, norm2_scale.
    rewrite Rabs_right by lra. reflexivity.
Qed.

(** ** The squared l1 norm *)

Lemma norm1_soft (t : R) (x : row) :
  0 <= t -> xp.linalg_norm xp.ord1 (soft_threshold t x) = excess x t.
Proof.
  intros Ht. unfold xp.linalg_norm, excess, soft_threshold, xp.fabs.
  rewrite !map_map. apply sum_map_eq, Forall_forall. intros v _.
  unfold soft, xp.sign1, Rmax, Rabs. rdecide.
Qed.

(** X5. The output [y] of the sort-based prox of the squared l1 norm is a
    fixed point of the optimality condition of that prox: [y] is the
    soft-threshold of the input at [2 tau ||y||_1], and [y] is not zero. *)
Theorem prox_sort_fixed_point (x : row) (tau : R) :
  0 < tau -> nonzero_row x ->
  exists y,
    SquaredL1Norm._prox_sort x tau = Ok y /\
    0 < xp.linalg_norm xp.ord1 y /\
    y = soft_threshold (2 * tau * xp.linalg_norm xp.ord1 y) x.
Proof.
  intros Ht Hx. set (z := xp.flip (xp.sort (map Rabs x))).
  destruct (sorted_abs_head_pos x Hx) as [Hlen Hhead]. fold z in Hlen, Hhead.
  destruct (last_positive_exists tau z 0 Hlen (test_value_head _ _ Ht Hhead))
    as [k Hk].
  destruct (sort_threshold_equation x tau k Ht Hk) as (Htpos & _ & Hteq).
  fold z in Htpos, Hteq. set (t := SortSteps.threshold tau z k) in *.
  exists (soft_threshold t x). split; [now apply prox_sort_result|].
  rewrite norm1_soft by lra. split; [nra|]. now rewrite <- Hteq.
Qed.

Lemma prox_sort_fixed_point_witness :
  exists y,
    SquaredL1Norm._prox_sort [-3; 1] 1 = Ok y /\
    0 < xp.linalg_norm xp.ord1 y /\
    y = soft_threshold (2 * 1 * xp.linalg_norm xp.ord1 y) [-3; 1].
Proof.
  apply (prox_sort_fixed_point [-3; 1] 1); [lra|].
  apply Exists_cons_hd. lra.
Defined.

Lemma sqrt_over_mu_min (tau : R) :
  0 <= tau -> sqrt (tau / SquaredL1Norm.mu_min) = sqrt tau * 10 ^ 6.
Proof.
  intros Ht. unfold SquaredL1Norm.mu_min.
  replace (tau / (1 / 10 ^ 12)) with (tau * (10 ^ 6 * 10 ^ 6)) by (field; lra).
  rewrite sqrt_mult_alt by exact Ht. f_equal. apply sqrt_square. lra.
Qed.

(** X6. On a non-zero input all of whose entries have magnitude at most
    [2 sqrt(tau) * 1e-6], the bracket [[1e-12, max(|x|^2) / (4 tau)]] of the
    root-based prox holds no sign change and [_prox_root] raises the
    [ValueError] of the root finder. *)
Theorem prox_root_small_input (x : row) (tau : R) :
  0 < tau -> nonzero_row x ->
  Forall (fun v => Rabs v <= 2 * sqrt tau / 10 ^ 6) x ->
  SquaredL1Norm._prox_root x tau = Raise scipy_optimize.sign_error.
Proof.
  intros Ht Hx Hsmall. unfold SquaredL1Norm._prox_root.
  destruct (Rlt_dec _ _) as [_|Hn]; [|exfalso; apply Hn, norm2_pos, Hx].
  destruct (max_squares x Hx) as (m & Hm & Hmpos & Hall).
  rewrite Hm. cbn [rbind]. rewrite brentq_sign_error; [reflexivity|].
  rewrite (root_func_at_mu_max x tau m Ht Hmpos Hall).
  assert (Hmin : SquaredL1Norm.root_func x tau SquaredL1Norm.mu_min = -1).
  { unfold SquaredL1Norm.root_func. rewrite sum_map_zero; [lra|].
    unfold xp.fabs. rewrite Forall_map.
    eapply Forall_impl; [exact Hsmall|]. cbn. intros v Hv.
    rewrite sqrt_over_mu_min by lra.
    pose proof (sqrt_lt_R0 tau Ht) as Hs.
    pose proof (sqrt_sqrt tau ltac:(lra)) as Hss.
    assert (Hle : Rabs v * (sqrt tau * 10 ^ 6) <= 2 * tau).
    { apply (Rmult_le_compat_r (sqrt tau * 10 ^ 6)) in Hv; [|nra].
      replace (2 * sqrt tau / 10 ^ 6 * (sqrt tau * 10 ^ 6))
        with (2 * (sqrt tau * sqrt tau)) in Hv by (field; lra).
      lra. }
    unfold Rmax. destruct (Rle_dec _ 0); lra. }
  rewrite Hmin. lra.
Qed.

Lemma prox_root_small_input_witness :
  SquaredL1Norm._prox_root [1 / 10 ^ 7] 1 = Raise scipy_optimize.sign_error.
Proof.
  apply (prox_root_small_input [1 / 10 ^ 7] 1).
  - lra.
  - apply Exists_cons_hd. lra.
  - constructor; [|constructor]. rewrite sqrt_1, Rabs_right; lra.
Defined.

(** ** The l-infinity norm *)

Lemma fold_left_Rmax_elem (a : row) (v : R) :
  fold_left Rmax a v = v \/ fold_left Rmax a v ∈ a.
Proof.
  revert v. induction a as [|w a IH]; intros v; cbn; [now left|].
  destruct (IH (Rmax v w)) as [H|H]; [|right; now apply list_elem_of_further].
  rewrite H. unfold Rmax. destruct (Rle_dec v w);
    [right; apply list_elem_of_here|now left].
Qed.

Lemma max_elem (a : row) (m : R) : xp.max a = Ok m -> m ∈ a.
Proof.
  destruct a as [|v a]; cbn; [discriminate|]. intros [= <-].
  destruct (fold_left_Rmax_elem a v) as [->|H];
    [apply list_elem_of_here|now apply list_elem_of_further].
Qed.

Lemma max_upper (a : row) (m : R) :
  xp.max a = Ok m -> Forall (fun w => w <= m) a.
Proof. intros H. apply (max_le_iff _ _ _ H). lra. Qed.

(** X7. [LInftyNorm.apply] raises on an empty array and nowhere else; its
    value is the magnitude of one of the entries and bounds the magnitude
    of every entry. *)
Theorem LInftyNorm_apply_max (x : row) :
  (x = [] <-> exists e, LInftyNorm.apply x = Raise e) /\
  forall m, LInftyNorm.apply x = Ok m ->
    (exists v, v ∈ x /\ m = Rabs v) /\ Forall (fun v => Rabs v <= m) x.
Proof.
  unfold LInftyNorm.apply. split.
  - destruct x as [|v x]; cbn.
    + split; [eauto|reflexivity].
    + split; [discriminate|intros [e He]; discriminate].
  - intros m Hm. split.
    + apply max_elem in Hm. unfold xp.fabs in Hm.
      apply list_elem_of_fmap in Hm as (v & -> & Hv). eauto.
    + apply max_upper in Hm. unfold xp.fabs in Hm. now rewrite Forall_map in Hm.
Qed.

Lemma LInftyNorm_apply_max_witness :
  (exists v, v ∈ [1; -2] /\ 2 = Rabs v) /\ Forall (fun v => Rabs v <= 2) [1; -2].
Proof.
  apply (proj2 (LInftyNorm_apply_max [1; -2]) 2).
  unfold LInftyNorm.apply, xp.fabs. cbn. f_equal.
  unfold Rmax, Rabs. rdecide.
Defined.

Lemma excess_at_zero (x : row) : excess x 0 = xp.linalg_norm xp.ord1 x.
Proof.
  unfold excess, xp.linalg_norm, xp.fabs. rewrite map_map.
  apply sum_map_eq, Forall_forall. intros v _.
  pose proof (Rabs_pos v). unfold Rmax.
  destruct (Rle_dec (Rabs v - 0) 0); lra.
Qed.

Lemma excess_at_max (x : row) (m : R) :
  xp.max (xp.fabs x) = Ok m -> excess x m = 0.
Proof.
  intros Hm. unfold excess. apply sum_map_zero.
  eapply Forall_impl; [exact (max_upper _ _ Hm)|]. cbn. intros v Hv.
  unfold Rmax. destruct (Rle_dec (v - m) 0); lra.
Qed.

Lemma max_abs_nonneg (x : row) (m : R) : xp.max (xp.fabs x) = Ok m -> 0 <= m.
Proof.
  intros Hm. apply max_elem in Hm. unfold xp.fabs in Hm.
  apply list_elem_of_fmap in Hm as (v & -> & _). apply Rabs_pos.
Qed.

(** X8. [LInftyNorm.prox] below the threshold.  For a non-empty input
    with [||x||_1 < tau] the bracket [[0, max|x|]] of the root finder holds
    no sign change and [prox] raises its [ValueError]; with
    [||x||_1 = tau] the root finder returns the end point [0] and [prox]
    returns the zero vector. *)
Theorem LInftyNorm_prox_below (x : row) (tau : R) :
  x <> [] ->
  (xp.linalg_norm xp.ord1 x < tau ->
     LInftyNorm.prox x tau = Raise scipy_optimize.sign_error) /\
  (xp.linalg_norm xp.ord1 x = tau ->
     LInftyNorm.prox x tau = Ok (map (fun _ => 0) x)).
Proof.
  intros Hne. unfold LInftyNorm.prox, LInftyNorm.apply.
  destruct (max_nonempty (xp.fabs x)) as [m Hm].
  { destruct x; [congruence|discriminate]. }
  rewrite Hm. cbn [rbind].
  assert (Hf : forall mu, LInftyNorm.root_func x tau mu = excess x mu - tau)
    by reflexivity.
  pose proof (excess_at_zero x) as H0. pose proof (excess_at_max x m Hm) as H1.
  assert (Hn : 0 <= xp.linalg_norm xp.ord1 x).
  { rewrite <- H0. unfold excess. clear.
    induction (xp.fabs x) as [|v a IH]; cbn [map]; [unfold xp.sum; cbn; lra|].
    rewrite sum_cons. pose proof (Rmax_r (v - 0) 0). lra. }
  split; intros Hx.
  - rewrite brentq_sign_error; [reflexivity|]. rewrite !Hf, H0, H1. nra.
  - unfold scipy_optimize.brentq. rewrite !Hf, H0, H1.
    destruct (Rlt_dec 0 _) as [Hlt|_]; [nra|].
    destruct (Req_dec_T _ 0) as [_|Hne0]; [|lra].
    cbn [rbind]. f_equal. unfold xp.fabs, xp.sign. rewrite map_map.
    apply zip_with_map_same. intros v.
    pose proof (Rabs_pos v). unfold Rmin.
    destruct (Rle_dec (Rabs v) 0); [replace (Rabs v) with 0 by lra|]; ring.
Qed.

Lemma LInftyNorm_prox_below_witness :
  LInftyNorm.prox [1/2; -1/4] 1 = Raise scipy_optimize.sign_error /\
  LInftyNorm.prox [1/2; -1/2] 1 = Ok (map (fun _ => 0) [1/2; -1/2]).
Proof.
  split.
  - apply (proj1 (LInftyNorm_prox_below [1/2; -1/4] 1 ltac:(discriminate))).
    cbn. unfold Rabs. rdecide.
  - apply (proj2 (LInftyNorm_prox_below [1/2; -1/2] 1 ltac:(discriminate))).
    cbn. unfold Rabs. rdecide.
Defined.

(** ** The ball indicators *)

Lemma LInfinityBall_inside (radius t : R) (x : row) :
  x <> [] -> Forall (fun v => Rabs v <= radius) x ->
  LInfinityBall.prox radius x t = Ok x /\
  LInfinityBall.apply radius x = Ok [finite 0].
Proof.
  intros Hne Hall. unfold LInfinityBall.prox, LInfinityBall.apply.
  destruct (max_nonempty (xp.fabs x)) as [m Hm].
  { destruct x; [congruence|discriminate]. }
  rewrite Hm. cbn [rbind].
  destruct (Rle_dec m radius) as [|Hn]; [split; reflexivity|].
  exfalso. apply Hn. apply (max_le_iff _ _ _ Hm).
  unfold xp.fabs. now rewrite Forall_map.
Qed.

Lemma clip_bound (t v : R) : 0 <= t -> Rabs (clip t v) <= t.
Proof.
  intros Ht. unfold clip, xp.sign1, Rmin.
  pose proof (Rabs_pos v).
  destruct (Rlt_dec 0 v), (Rle_dec (Rabs v) t);
    try destruct (Rlt_dec v 0);
    rewrite ?Rmult_1_l, ?Rmult_0_l, ?Rabs_R0;
    try lra;
    try (replace (-1 * Rabs v) with (- Rabs v) by ring);
    try (replace (-1 * t) with (- t) by ring);
    rewrite ?Rabs_Ropp, ?Rabs_Rabsolu; try lra;
    rewrite Rabs_right; lra.
Qed.

(** X9. [LInfinityBall.prox] is a projection: for a ball of radius
    [radius >= 0] and a non-empty input it returns an array inside the ball
    (every magnitude at most [radius], indicator [0]) on which a second
    call changes nothing. *)
Theorem LInfinityBall_prox_projection (radius t t' : R) (x : row) :
  0 <= radius -> x <> [] ->
  exists y,
    LInfinityBall.prox radius x t = Ok y /\
    Forall (fun v => Rabs v <= radius) y /\
    LInfinityBall.apply radius y = Ok [finite 0] /\
    LInfinityBall.prox radius y t' = Ok y.
Proof.
  intros Hr Hne.
  assert (Hin : forall y, y <> [] -> Forall (fun v => Rabs v <= radius) y ->
            Forall (fun v => Rabs v <= radius) y /\
            LInfinityBall.apply radius y = Ok [finite 0] /\
            LInfinityBall.prox radius y t' = Ok y).
  { intros y Hy Hall. destruct (LInfinityBall_inside radius t' y Hy Hall).
    auto. }
  unfold LInfinityBall.prox at 1.
  destruct (max_nonempty (xp.fabs x)) as [m Hm].
  { destruct x; [congruence|discriminate]. }
  rewrite Hm. cbn [rbind].
  destruct (Rle_dec m radius) as [Hle|Hgt].
  - exists x. split; [reflexivity|]. apply Hin; [exact Hne|].
    apply (max_le_iff _ _ _ Hm) in Hle. unfold xp.fabs in Hle.
    now rewrite Forall_map in Hle.
  - eexists. split; [reflexivity|]. rewrite clip_zip. apply Hin.
    + destruct x; [congruence|discriminate].
    + rewrite Forall_map. apply Forall_forall. intros v _. cbn.
      now apply clip_bound.
Qed.

Lemma LInfinityBall_prox_projection_witness :
  exists y,
    LInfinityBall.prox 1 [3; -1/2] 1 = Ok y /\
    Forall (fun v => Rabs v <= 1) y /\
    LInfinityBall.apply 1 y = Ok [finite 0] /\
    LInfinityBall.prox 1 y 2 = Ok y.
Proof.
  apply (LInfinityBall_prox_projection 1 1 2 [3; -1/2]); [lra|discriminate].
Defined.

(** X10. [L2Ball.prox] is a projection: for [radius >= 0] its output lies
    in the ball (indicator [0]) and a second call changes nothing. *)
Theorem L2Ball_prox_projection (radius t t' : R) (x : row) :
  0 <= radius ->
  L2Ball.apply radius (L2Ball.prox radius x t) = [finite 0] /\
  L2Ball.prox radius (L2Ball.prox radius x t) t' = L2Ball.prox radius x t.
Proof.
  intros Hr.
  assert (Hin : xp.linalg_norm xp.ord2 (L2Ball.prox radius x t) <= radius).
  { unfold L2Ball.prox. destruct (Rle_dec _ _) as [Hle|Hgt]; [exact Hle|].
    rewrite norm2_rescale; lra. }
  split.
  - unfold L2Ball.apply. destruct (Rle_dec _ _); [reflexivity|contradiction].
  - set (y := L2Ball.prox radius x t) in *. unfold L2Ball.prox.
    destruct (Rle_dec _ _); [reflexivity|contradiction].
Qed.

Lemma L2Ball_prox_projection_witness :
  L2Ball.apply 1 (L2Ball.prox 1 [3; 4] 1) = [finite 0] /\
  L2Ball.prox 1 (L2Ball.prox 1 [3; 4] 1) 2 = L2Ball.prox 1 [3; 4] 1.
Proof. apply (L2Ball_prox_projection 1 1 2 [3; 4]). lra. Defined.

Lemma norm2_zero_inv (x : row) :
  xp.linalg_norm xp.ord2 x = 0 -> Forall (fun v => v = 0) x.
Proof.
  intros H. apply Forall_forall. intros v Hv.
  destruct (Req_dec_T v 0) as [|Hne]; [assumption|]. exfalso.
  assert (Hx : nonzero_row x) by (apply Exists_exists; eauto).
  pose proof (norm2_pos x Hx). lra.
Qed.

(** X11. The fixed points of a ball projection are the points of the
    ball: for [radius >= 0], [L2Ball.prox] and (on a non-empty input)
    [LInfinityBall.prox] return their input exactly when the indicator
    [apply] is [0] there. *)
Theorem ball_prox_fixed_points (radius t : R) (x : row) :
  0 <= radius ->
  (L2Ball.prox radius x t = x <-> L2Ball.apply radius x = [finite 0]) /\
  (x <> [] ->
     (LInfinityBall.prox radius x t = Ok x
      <-> LInfinityBall.apply radius x = Ok [finite 0])).
Proof.
  intros Hr. split.
  - unfold L2Ball.prox, L2Ball.apply.
    set (n := xp.linalg_norm xp.ord2 x).
    destruct (Rle_dec n radius) as [Hle|Hgt]; [split; reflexivity|].
    split; [|discriminate]. intros Heq. exfalso.
    assert (Hn : xp.linalg_norm xp.ord2
                   (map (fun v => radius * v / n) x) = radius)
      by (apply norm2_rescale; [lra|fold n; lra]).
    rewrite Heq in Hn. fold n in Hn. lra.
  - intros Hne. unfold LInfinityBall.prox, LInfinityBall.apply.
    destruct (max_nonempty (xp.fabs x)) as [m Hm].
    { destruct x; [congruence|discriminate]. }
    rewrite Hm. cbn [rbind].
    destruct (Rle_dec m radius) as [Hle|Hgt]; [split; reflexivity|].
    split; [|discriminate]. intros [= Heq]. exfalso.
    rewrite clip_zip in Heq.
    apply max_elem in Hm. unfold xp.fabs in Hm.
    apply list_elem_of_fmap in Hm as (v & -> & Hv).
    apply list_elem_of_lookup in Hv as [i Hi].
    assert (Hc : map (clip radius) x !! i = Some (clip radius v))
      by (rewrite list_lookup_fmap, Hi; reflexivity).
    rewrite Heq, Hi in Hc. injection Hc as Hc.
    revert Hc. unfold clip, xp.sign1, Rmin, Rabs in *.
    destruct (Rcase_abs v), (Rlt_dec 0 v); try lra;
      destruct (Rle_dec _ radius); try lra;
      try destruct (Rlt_dec v 0); try lra.
Qed.

Lemma ball_prox_fixed_points_witness :
  (L2Ball.prox 1 [3/5; 4/5] 1 = [3/5; 4/5]
   <-> L2Ball.apply 1 [3/5; 4/5] = [finite 0]) /\
  (LInfinityBall.prox 1 [3; -1/2] 1 = Ok [3; -1/2]
   <-> LInfinityBall.apply 1 [3; -1/2] = Ok [finite 0]).
Proof.
  destruct (ball_prox_fixed_points 1 1 [3/5; 4/5] ltac:(lra)) as [H2 _].
  destruct (ball_prox_fixed_points 1 1 [3; -1/2] ltac:(lra)) as [_ Hi].
  split; [exact H2|apply Hi; discriminate].
Defined.

(** ** Root finding on [sum(max(|x| - mu, 0)) = level] *)

Lemma lipschitz_continuity (f : R -> R) (K : R) :
  0 <= K -> (forall a b, Rabs (f a - f b) <= K * Rabs (a - b)) ->
  continuity f.
Proof.
  intros HK HL x eps Heps. exists (eps / (K + 1)). split.
  - apply Rdiv_lt_0_compat; lra.
  - intros y [_ Hd]. unfold dist in *. cbn in *. unfold R_dist in *.
    eapply Rle_lt_trans; [apply HL|].
    assert (Hq : 0 < eps / (K + 1)) by (apply Rdiv_lt_0_compat; lra).
    pose proof (Rabs_pos (y - x)) as Hp.
    apply Rle_lt_trans with ((K + 1) * Rabs (y - x)); [nra|].
    apply (Rmult_lt_compat_l (K + 1)) in Hd; [|lra].
    replace ((K + 1) * (eps / (K + 1))) with eps in Hd by (field; lra).
    exact Hd.
Qed.

Lemma excess_lipschitz (x : row) (a b : R) :
  Rabs (excess x a - excess x b) <= INR (length x) * Rabs (a - b).
Proof.
  unfold excess, xp.fabs. induction x as [|v x IH]; cbn [map length].
  - unfold xp.sum. cbn. rewrite Rminus_diag, Rabs_R0. lra.
  - rewrite !sum_cons, S_INR.
    set (sa := xp.sum (map (fun w => Rmax (w - a) 0) (map Rabs x))) in *.
    set (sb := xp.sum (map (fun w => Rmax (w - b) 0) (map Rabs x))) in *.
    assert (Hv : Rabs (Rmax (Rabs v - a) 0 - Rmax (Rabs v - b) 0)
                 <= Rabs (a - b)).
    { pose proof (Rabs_pos (a - b)) as Hd0.
      pose proof (Rle_abs (a - b)) as Hd1.
      pose proof (Rle_abs (b - a)) as Hd2.
      rewrite (Rabs_minus_sym b a) in Hd2.
      set (d := Rabs (a - b)) in *. set (w := Rabs v) in *.
      unfold Rmax, Rabs.
      destruct (Rle_dec (w - a) 0), (Rle_dec (w - b) 0);
        destruct (Rcase_abs _); lra. }
    replace (Rmax (Rabs v - a) 0 + sa - (Rmax (Rabs v - b) 0 + sb))
      with ((Rmax (Rabs v - a) 0 - Rmax (Rabs v - b) 0) + (sa - sb)) by ring.
    eapply Rle_trans; [apply Rabs_triang|]. lra.
Qed.

Lemma excess_continuity (x : row) (level : R) :
  continuity (fun mu => excess x mu - level).
Proof.
  apply (lipschitz_continuity _ (INR (length x))); [apply pos_INR|].
  intros a b.
  replace (excess x a - level - (excess x b - level))
    with (excess x a - excess x b) by ring.
  apply excess_lipschitz.
Qed.

(** The root finder succeeds on the bracket [[0, max|x|]] whenever the
    level is at least [0] and below [||x||_1]. *)
Lemma shrink_root (x : row) (level m : R) :
  0 <= level -> level < xp.linalg_norm xp.ord1 x ->
  xp.max (xp.fabs x) = Ok m ->
  exists mu,
    scipy_optimize.brentq (fun mu => excess x mu - level) 0 m = Ok mu /\
    0 <= mu <= m /\ excess x mu = level.
Proof.
  intros Hl Hx Hm.
  pose proof (excess_at_zero x) as H0. pose proof (excess_at_max x m Hm) as H1.
  pose proof (max_abs_nonneg x m Hm) as Hm0.
  set (f := fun mu => excess x mu - level).
  assert (Hf0 : f 0 = xp.linalg_norm xp.ord1 x - level)
    by (unfold f; now rewrite H0).
  assert (Hf1 : f m = - level) by (unfold f; rewrite H1; ring).
  assert (Hprod : f 0 * f m <= 0) by (rewrite Hf0, Hf1; nra).
  destruct (IVT_cor f 0 m (excess_continuity x level) Hm0 Hprod)
    as [z [Hz Hfz]].
  assert (Hroot : scipy_optimize.has_root f 0 m).
  { exists z. split; [|exact Hfz]. unfold scipy_optimize.between.
    rewrite Rmin_left, Rmax_right by lra. exact Hz. }
  destruct (brentq_returns f 0 m ltac:(lra) Hroot) as [mu Hmu].
  exists mu. split; [exact Hmu|].
  destruct (brentq_Ok _ _ _ _ Hmu) as [Hfmu Hb].
  unfold scipy_optimize.between in Hb.
  rewrite Rmin_left, Rmax_right in Hb by lra.
  split; [exact Hb|]. unfold f in Hfmu. lra.
Qed.

Lemma norm1_nonempty (x : row) (level : R) :
  0 <= level -> level < xp.linalg_norm xp.ord1 x -> x <> [].
Proof.
  intros Hl Hx ->. unfold xp.linalg_norm, xp.sum in Hx. cbn in Hx. lra.
Qed.

Lemma L1Ball_prox_outside (radius t : R) (x : row) :
  0 <= radius -> radius < xp.linalg_norm xp.ord1 x ->
  exists mu,
    0 <= mu /\ excess x mu = radius /\
    L1Ball.prox radius x t = Ok (soft_threshold mu x) /\
    LInftyNorm.prox x radius = Ok (map (clip mu) x).
Proof.
  intros Hr Hx.
  destruct (max_nonempty (xp.fabs x)) as [m Hm].
  { pose proof (norm1_nonempty x radius Hr Hx).
    destruct x; [congruence|discriminate]. }
  destruct (shrink_root x radius m Hr Hx Hm) as (mu & Hmu & [Hmu0 _] & Hex).
  exists mu. repeat split; try assumption.
  - unfold L1Ball.prox, pylinalg.norm.
    destruct (Rle_dec _ _) as [Hle|_]; [lra|].
    rewrite Hm. cbn [rbind].
    change (L1Ball.root_func radius x) with (fun mu => excess x mu - radius).
    rewrite Hmu. cbn [rbind]. now rewrite soft_zip.
  - unfold LInftyNorm.prox, LInftyNorm.apply. rewrite Hm. cbn [rbind].
    change (LInftyNorm.root_func x radius)
      with (fun mu => excess x mu - radius).
    rewrite Hmu. cbn [rbind]. now rewrite clip_zip.
Qed.

(** X12. [L1Ball.prox] outside the ball.  For [radius >= 0] and an input
    with [||x||_1 > radius] the root finder succeeds and [prox] returns a
    point on the surface of the ball: its l1 norm is exactly [radius], the
    indicator is [0] there and a second call returns it unchanged. *)
Theorem L1Ball_prox_surface (radius t t' : R) (x : row) :
  0 <= radius -> radius < xp.linalg_norm xp.ord1 x ->
  exists y,
    L1Ball.prox radius x t = Ok y /\
    xp.linalg_norm xp.ord1 y = radius /\
    L1Ball.apply radius y = [finite 0] /\
    L1Ball.prox radius y t' = Ok y.
Proof.
  intros Hr Hx.
  destruct (L1Ball_prox_outside radius t x Hr Hx) as (mu & Hmu & Hex & Hp & _).
  exists (soft_threshold mu x). split; [exact Hp|].
  pose proof (norm1_soft mu x Hmu) as Hn. rewrite Hex in Hn.
  split; [exact Hn|].
  unfold L1Ball.apply, L1Ball.prox, pylinalg.norm. rewrite Hn.
  destruct (Rle_dec radius radius); [split; reflexivity|lra].
Qed.

Lemma norm1_3_1 : xp.linalg_norm xp.ord1 [-3; 1] = 4.
Proof. cbn. unfold xp.sum. cbn. unfold Rabs. rdecide. Qed.

Lemma L1Ball_prox_surface_witness :
  exists y,
    L1Ball.prox 1 [-3; 1] 1 = Ok y /\
    xp.linalg_norm xp.ord1 y = 1 /\
    L1Ball.apply 1 y = [finite 0] /\
    L1Ball.prox 1 y 2 = Ok y.
Proof.
  apply (L1Ball_prox_surface 1 1 2 [-3; 1]); [lra|].
  rewrite norm1_3_1. lra.
Defined.

Lemma clip_plus_soft (t v : R) : clip t v + soft t v = v.
Proof. rewrite Rplus_comm. apply soft_plus_clip. Qed.

(** X13. Moreau decomposition of the l-infinity norm.  For [tau > 0] and
    [||x||_1 > tau], [LInftyNorm.prox(x, tau)] returns, the projection of
    [x] onto the l1 ball of radius [tau] returns (both solve the same
    scalar equation on the same bracket), and the two outputs add up to
    [x]; every entry of the prox has its magnitude clipped to one common
    level. *)
Theorem LInftyNorm_prox_moreau (x : row) (tau t : R) :
  0 < tau -> tau < xp.linalg_norm xp.ord1 x ->
  exists y p mu,
    LInftyNorm.prox x tau = Ok y /\
    L1Ball.prox tau x t = Ok p /\
    zip_with Rplus y p = x /\
    0 <= mu /\ y = map (clip mu) x /\
    Forall (fun v => Rabs v <= mu) y.
Proof.
  intros Ht Hx.
  destruct (L1Ball_prox_outside tau t x ltac:(lra) Hx)
    as (mu & Hmu & _ & Hp & Hy).
  exists (map (clip mu) x), (soft_threshold mu x), mu.
  repeat split; try assumption.
  - unfold soft_threshold.
    rewrite (zip_with_map_same Rplus _ _ (fun v => v));
      [apply map_id|intros; apply clip_plus_soft].
  - rewrite Forall_map. apply Forall_forall. intros v _. cbn.
    now apply clip_bound.
Qed.

Lemma LInftyNorm_prox_moreau_witness :
  exists y p mu,
    LInftyNorm.prox [-3; 1] 1 = Ok y /\
    L1Ball.prox 1 [-3; 1] 1 = Ok p /\
    zip_with Rplus y p = [-3; 1] /\
    0 <= mu /\ y = map (clip mu) [-3; 1] /\
    Forall (fun v => Rabs v <= mu) y.
Proof.
  apply (LInftyNorm_prox_moreau [-3; 1] 1 1); [lra|].
  rewrite norm1_3_1. lra.
Defined.

(** ** Inner products and the Cauchy-Schwarz inequality *)

Lemma cauchy_schwarz_step (a b S U V : R) :
  0 <= U -> 0 <= V -> S * S <= U * V ->
  (a * b + S) * (a * b + S) <= (a * a + U) * (b * b + V).
Proof.
  intros HU HV HS.
  pose proof (sqrt_sqrt U HU) as Hp. pose proof (sqrt_sqrt V HV) as Hq.
  pose proof (sqrt_pos U) as Hp0. pose proof (sqrt_pos V) as Hq0.
  set (p := sqrt U) in *. set (q := sqrt V) in *.
  assert (Hpq : 0 <= p * q) by nra.
  assert (HSle : S <= p * q).
  { apply Rnot_lt_le. intros H. assert (p * q * (p * q) < S * S) by nra. nra. }
  assert (HSge : - (p * q) <= S).
  { apply Rnot_lt_le. intros H. assert (p * q * (p * q) < S * S) by nra. nra. }
  assert (H2 : 2 * (a * b) * S <= a * a * V + b * b * U).
  { pose proof (Rle_0_sqr (a * q - b * p)) as H1.
    pose proof (Rle_0_sqr (a * q + b * p)) as H3. unfold Rsqr in *.
    destruct (Rle_dec 0 (a * b)).
    - assert (a * b * S <= a * b * (p * q))
        by (apply Rmult_le_compat_l; lra). nra.
    - assert (a * b * S <= a * b * (- (p * q))).
      { apply Rmult_le_compat_neg_l; lra. } nra. }
  nra.
Qed.

Lemma cauchy_schwarz_sq (u v : row) :
  xp.sum (zip_with Rmult u v) * xp.sum (zip_with Rmult u v)
  <= xp.sum (map (fun w => w * w) u) * xp.sum (map (fun w => w * w) v).
Proof.
  revert v. induction u as [|a u IH]; intros [|b v]; cbn [zip_with map].
  - unfold xp.sum. cbn. lra.
  - pose proof (sum_squares_nonneg (b :: v)). unfold xp.sum at 1 2 3.
    cbn [fold_right]. cbn [map] in *. nra.
  - pose proof (sum_squares_nonneg (a :: u)). unfold xp.sum at 1 2 4.
    cbn [fold_right]. cbn [map] in *. nra.
  - rewrite !sum_cons. apply cauchy_schwarz_step;
      [apply sum_squares_nonneg|apply sum_squares_nonneg|apply IH].
Qed.

Lemma cauchy_schwarz (u v : row) :
  Rabs (xp.sum (zip_with Rmult u v))
  <= xp.linalg_norm xp.ord2 u * xp.linalg_norm xp.ord2 v.
Proof.
  unfold xp.linalg_norm.
  rewrite <- sqrt_mult_alt by apply sum_squares_nonneg.
  rewrite <- sqrt_Rsqr_abs. apply sqrt_le_1_alt. unfold Rsqr.
  apply cauchy_schwarz_sq.
Qed.

Lemma norm2_fabs (z : row) :
  xp.linalg_norm xp.ord2 (map Rabs z) = xp.linalg_norm xp.ord2 z.
Proof.
  unfold xp.linalg_norm. rewrite map_map. f_equal.
  apply sum_map_eq, Forall_forall. intros v _.
  rewrite <- Rabs_mult. apply Rabs_right. nra.
Qed.

Lemma norm2_ones (n : nat) :
  xp.linalg_norm xp.ord2 (replicate n 1) = sqrt (INR n).
Proof.
  unfold xp.linalg_norm. f_equal.
  induction n as [|n IH]; [reflexivity|].
  cbn [replicate map]. rewrite sum_cons, IH, S_INR. lra.
Qed.

Lemma sum_as_dot_ones (z : row) :
  xp.sum z = xp.sum (zip_with Rmult (replicate (length z) 1) z).
Proof.
  induction z as [|v z IH]; [reflexivity|].
  cbn [length replicate zip_with]. rewrite !sum_cons, <- IH. lra.
Qed.

(** [||z||_1 <= sqrt(N) ||z||_2] for a row of size [N]. *)
Lemma norm1_le_norm2 (z : row) :
  xp.linalg_norm xp.ord1 z
  <= sqrt (INR (length z)) * xp.linalg_norm xp.ord2 z.
Proof.
  unfold xp.linalg_norm at 1. unfold xp.fabs.
  rewrite sum_as_dot_ones, length_map.
  eapply Rle_trans; [apply Rle_abs|].
  eapply Rle_trans; [apply cauchy_schwarz|].
  rewrite norm2_ones, norm2_fabs. lra.
Qed.

Lemma norm1_reverse_triangle (x y : row) :
  length x = length y ->
  Rabs (xp.linalg_norm xp.ord1 x - xp.linalg_norm xp.ord1 y)
  <= xp.linalg_norm xp.ord1 (zip_with Rminus x y).
Proof.
  unfold xp.linalg_norm, xp.fabs. revert y.
  induction x as [|a x IH]; intros [|b y] H; try discriminate.
  - unfold xp.sum. cbn. rewrite Rminus_diag, Rabs_R0. lra.
  - injection H as H. specialize (IH y H). cbn [map zip_with].
    rewrite !sum_cons.
    set (sx := xp.sum (map Rabs x)) in *. set (sy := xp.sum (map Rabs y)) in *.
    set (sz := xp.sum (map Rabs (zip_with Rminus x y))) in *.
    pose proof (Rabs_triang_inv2 a b) as Hab.
    replace (Rabs a + sx - (Rabs b + sy))
      with ((Rabs a - Rabs b) + (sx - sy)) by ring.
    eapply Rle_trans; [apply Rabs_triang|]. lra.
Qed.

(** X14. The Lipschitz constant [L1Norm.__init__] stores is a valid bound:
    with [dim] set and inputs of that size,
    [|apply(x) - apply(y)| <= sqrt(dim) * ||x - y||_2]; domain-agnostic
    functionals store [+inf]. *)
Theorem L1Norm_lipschitz (dim : option nat) (x y : row) :
  (forall d, dim = Some d -> length x = d /\ length y = d) ->
  (dim = None <-> Lipschitz.L1Norm dim = infinity) /\
  bounded_by (Lipschitz.L1Norm dim)
    (Rabs (entry (L1Norm.apply x) 0 - entry (L1Norm.apply y) 0))
    (xp.linalg_norm xp.ord2 (zip_with Rminus x y)).
Proof.
  intros Hdim. unfold Lipschitz.L1Norm, bounded_by, L1Norm.apply, entry.
  cbn [nth]. destruct dim as [d|].
  - split; [split; discriminate|].
    destruct (Hdim d eq_refl) as [Hx Hy].
    unfold pylinalg.norm.
    eapply Rle_trans; [apply norm1_reverse_triangle; congruence|].
    eapply Rle_trans; [apply norm1_le_norm2|].
    rewrite length_zip_with, Hx, Hy, Nat.min_id. lra.
  - split; [split; reflexivity|exact I].
Qed.

Lemma L1Norm_lipschitz_witness :
  bounded_by (Lipschitz.L1Norm (Some 2%nat))
    (Rabs (entry (L1Norm.apply [1; 2]) 0 - entry (L1Norm.apply [0; 4]) 0))
    (xp.linalg_norm xp.ord2 (zip_with Rminus [1; 2] [0; 4])).
Proof.
  apply (L1Norm_lipschitz (Some 2%nat) [1; 2] [0; 4]).
  intros d [= <-]. split; reflexivity.
Defined.

Lemma sum_squares_plus (u v : row) :
  length u = length v ->
  xp.sum (map (fun w => w * w) (zip_with Rplus u v))
  = xp.sum (map (fun w => w * w) u) + 2 * xp.sum (zip_with Rmult u v)
    + xp.sum (map (fun w => w * w) v).
Proof.
  revert v. induction u as [|a u IH]; intros [|b v] H; try discriminate.
  - unfold xp.sum. cbn. lra.
  - injection H as H. cbn [zip_with map]. rewrite !sum_cons, (IH v H). ring.
Qed.

(** Triangle inequality of the l2 norm. *)
Lemma norm2_triangle (u v : row) :
  length u = length v ->
  xp.linalg_norm xp.ord2 (zip_with Rplus u v)
  <= xp.linalg_norm xp.ord2 u + xp.linalg_norm xp.ord2 v.
Proof.
  intros H. pose proof (cauchy_schwarz u v) as Hcs.
  pose proof (Rle_abs (xp.sum (zip_with Rmult u v))) as Habs.
  pose proof (norm2_nonneg u) as Hu. pose proof (norm2_nonneg v) as Hv.
  pose proof (norm2_square u) as Hu2. pose proof (norm2_square v) as Hv2.
  set (nu := xp.linalg_norm xp.ord2 u) in *.
  set (nv := xp.linalg_norm xp.ord2 v) in *.
  unfold xp.linalg_norm. rewrite (sum_squares_plus u v H).
  rewrite <- (sqrt_square (nu + nv)) by lra.
  apply sqrt_le_1_alt. nra.
Qed.

Lemma zip_minus_plus (x y : row) :
  length x = length y -> zip_with Rplus (zip_with Rminus x y) y = x.
Proof.
  revert y. induction x as [|a x IH]; intros [|b y] H; try discriminate;
    [reflexivity|].
  injection H as H. cbn. rewrite (IH y H). f_equal. ring.
Qed.

Lemma norm2_minus_sym (x y : row) :
  xp.linalg_norm xp.ord2 (zip_with Rminus x y)
  = xp.linalg_norm xp.ord2 (zip_with Rminus y x).
Proof.
  unfold xp.linalg_norm. f_equal. revert y.
  induction x as [|a x IH]; intros [|b y]; try reflexivity.
  cbn [zip_with map]. rewrite !sum_cons, (IH y). ring.
Qed.

Lemma norm2_reverse_triangle (x y : row) :
  length x = length y ->
  Rabs (xp.linalg_norm xp.ord2 x - xp.linalg_norm xp.ord2 y)
  <= xp.linalg_norm xp.ord2 (zip_with Rminus x y).
Proof.
  intros H.
  pose proof (norm2_triangle (zip_with Rminus x y) y) as H1.
  rewrite zip_minus_plus in H1 by exact H.
  pose proof (norm2_triangle (zip_with Rminus y x) x) as H2.
  rewrite zip_minus_plus in H2 by congruence.
  rewrite (norm2_minus_sym y x) in H2.
  specialize (H1 ltac:(rewrite length_zip_with; lia)).
  specialize (H2 ltac:(rewrite length_zip_with; lia)).
  unfold Rabs. destruct (Rcase_abs _); lra.
Qed.

(** X15. The Lipschitz constant [1] that [L2Norm.__init__] stores is a
    valid bound: for inputs of one size,
    [|apply(x) - apply(y)| <= 1 * ||x - y||_2]. *)
Theorem L2Norm_lipschitz (x y : row) :
  length x = length y ->
  Rabs (entry (L2Norm.apply x) 0 - entry (L2Norm.apply y) 0)
  <= Lipschitz.L2Norm * xp.linalg_norm xp.ord2 (zip_with Rminus x y).
Proof.
  intros H. unfold L2Norm.apply, pylinalg.norm, entry, Lipschitz.L2Norm.
  cbn [nth]. rewrite Rmult_1_l. now apply norm2_reverse_triangle.
Qed.

Lemma L2Norm_lipschitz_witness :
  Rabs (entry (L2Norm.apply [3; 4]) 0 - entry (L2Norm.apply [0; 1]) 0)
  <= Lipschitz.L2Norm * xp.linalg_norm xp.ord2 (zip_with Rminus [3; 4] [0; 1]).
Proof. apply (L2Norm_lipschitz [3; 4] [0; 1]). reflexivity. Defined.

Lemma entry_le_norm2 (z : row) (v : R) :
  v ∈ z -> Rabs v <= xp.linalg_norm xp.ord2 z.
Proof.
  intros Hv. unfold xp.linalg_norm. rewrite <- sqrt_Rsqr_abs.
  apply sqrt_le_1_alt. unfold Rsqr.
  induction Hv as [v z|v w z _ IH]; cbn [map]; rewrite sum_cons.
  - pose proof (sum_squares_nonneg z). lra.
  - nra.
Qed.

Lemma max_abs_shift (x y : row) (mx my : R) :
  length x = length y ->
  xp.max (xp.fabs x) = Ok mx -> xp.max (xp.fabs y) = Ok my ->
  mx <= my + xp.linalg_norm xp.ord2 (zip_with Rminus x y).
Proof.
  intros Hlen Hx Hy. apply max_elem in Hx. unfold xp.fabs in Hx.
  apply list_elem_of_fmap in Hx as (a & -> & Ha).
  apply list_elem_of_lookup in Ha as [i Hi].
  destruct (lookup_lt_is_Some_2 y i) as [b Hb].
  { rewrite <- Hlen. now apply lookup_lt_Some in Hi. }
  assert (Hb' : Rabs b <= my).
  { apply max_upper in Hy. unfold xp.fabs in Hy. rewrite Forall_map in Hy.
    rewrite Forall_forall in Hy. apply Hy. now apply list_elem_of_lookup_2 in Hb. }
  assert (Hd : Rabs (a - b) <= xp.linalg_norm xp.ord2 (zip_with Rminus x y)).
  { apply entry_le_norm2. apply list_elem_of_lookup. exists i.
    now rewrite lookup_zip_with, Hi, Hb. }
  pose proof (Rabs_triang_inv a b). lra.
Qed.

(** X16. The Lipschitz constant [LInftyNorm.__init__] stores is a valid
    bound: with [dim] set and non-empty inputs of that size,
    [|apply(x) - apply(y)| <= sqrt(dim) * ||x - y||_2]. *)
Theorem LInftyNorm_lipschitz (dim : option nat) (x y : row) (mx my : R) :
  (forall d, dim = Some d -> length x = d /\ length y = d) ->
  LInftyNorm.apply x = Ok mx -> LInftyNorm.apply y = Ok my ->
  bounded_by (Lipschitz.LInftyNorm dim) (Rabs (mx - my))
    (xp.linalg_norm xp.ord2 (zip_with Rminus x y)).
Proof.
  intros Hdim Hx Hy. unfold Lipschitz.LInftyNorm, bounded_by.
  destruct dim as [d|]; [|exact I].
  destruct (Hdim d eq_refl) as [Hlx Hly]. unfold LInftyNorm.apply in *.
  pose proof (max_abs_shift x y mx my ltac:(congruence) Hx Hy) as H1.
  pose proof (max_abs_shift y x my mx ltac:(congruence) Hy Hx) as H2.
  rewrite (norm2_minus_sym y x) in H2.
  pose proof (norm2_nonneg (zip_with Rminus x y)) as Hn.
  assert (Hd : 1 <= sqrt (INR d)).
  { rewrite <- sqrt_1. apply sqrt_le_1_alt.
    destruct d as [|d]; [destruct x; discriminate|].
    rewrite S_INR. pose proof (pos_INR d). lra. }
  assert (Rabs (mx - my) <= xp.linalg_norm xp.ord2 (zip_with Rminus x y))
    by (unfold Rabs; destruct (Rcase_abs _); lra).
  nra.
Qed.

Lemma LInftyNorm_lipschitz_witness :
  bounded_by (Lipschitz.LInftyNorm (Some 2%nat)) (Rabs (2 - 4))
    (xp.linalg_norm xp.ord2 (zip_with Rminus [1; 2] [0; 4])).
Proof.
  apply (LInftyNorm_lipschitz (Some 2%nat) [1; 2] [0; 4] 2 4).
  - intros d [= <-]. split; reflexivity.
  - unfold LInftyNorm.apply, xp.fabs. cbn. f_equal. unfold Rmax, Rabs. rdecide.
  - unfold LInftyNorm.apply, xp.fabs. cbn. f_equal. unfold Rmax, Rabs. rdecide.
Defined.

(** ** [ExplicitLinFunc] *)

Lemma broadcast_multiply_same (u v : row) :
  length u = length v -> broadcast_multiply u v = Ok (zip_with Rmult u v).
Proof. intros H. unfold broadcast_multiply. now rewrite decide_True. Qed.

Lemma ExplicitLinFunc_apply_dot (vec arr : row) :
  length arr = length vec ->
  ExplicitLinFunc.apply (ExplicitLinFunc.__init__ vec) arr
  = Ok (xp.sum (zip_with Rmult vec arr)).
Proof.
  intros H. unfold ExplicitLinFunc.apply. cbn [ExplicitLinFunc._vec
    ExplicitLinFunc.__init__].
  now rewrite broadcast_multiply_same by congruence.
Qed.

Lemma dot_axpy (c : R) (vec a b : row) :
  length a = length vec -> length b = length vec ->
  xp.sum (zip_with Rmult vec (Recurrence.axpy c a b))
  = xp.sum (zip_with Rmult vec a) + c * xp.sum (zip_with Rmult vec b).
Proof.
  unfold Recurrence.axpy. revert a b.
  induction vec as [|v vec IH]; intros [|x a] [|y b] Ha Hb; try discriminate.
  - unfold xp.sum. cbn. lra.
  - injection Ha as Ha. injection Hb as Hb. cbn [zip_with].
    rewrite !sum_cons, (IH a b Ha Hb). ring.
Qed.

Lemma dot_minus (vec a b : row) :
  length a = length vec -> length b = length vec ->
  xp.sum (zip_with Rmult vec a) - xp.sum (zip_with Rmult vec b)
  = xp.sum (zip_with Rmult vec (zip_with Rminus a b)).
Proof.
  revert a b.
  induction vec as [|v vec IH]; intros [|x a] [|y b] Ha Hb; try discriminate.
  - unfold xp.sum. cbn. lra.
  - injection Ha as Ha. injection Hb as Hb. cbn [zip_with].
    rewrite !sum_cons, <- (IH a b Ha Hb). ring.
Qed.

(** X17. [ExplicitLinFunc.apply] is a linear functional on inputs of the
    size of its vector: it returns the inner product with [vec], so
    [apply(a + c b) = apply(a) + c apply(b)]. *)
Theorem ExplicitLinFunc_apply_linear (vec a b : row) (c : R) :
  length a = length vec -> length b = length vec ->
  let op := ExplicitLinFunc.__init__ vec in
  exists fa fb,
    ExplicitLinFunc.apply op a = Ok fa /\
    ExplicitLinFunc.apply op b = Ok fb /\
    fa = big_sum (length vec) (fun i => entry vec i * entry a i) /\
    ExplicitLinFunc.apply op (zip_with (fun ai bi => ai + c * bi) a b)
      = Ok (fa + c * fb).
Proof.
  intros Ha Hb op. unfold op.
  exists (xp.sum (zip_with Rmult vec a)), (xp.sum (zip_with Rmult vec b)).
  split; [now apply ExplicitLinFunc_apply_dot|].
  split; [now apply ExplicitLinFunc_apply_dot|]. split.
  - rewrite sum_as_big_sum, length_zip_with, Ha, Nat.min_id.
    apply big_sum_ext. intros i Hi. unfold entry.
    destruct (lookup_lt_is_Some_2 vec i Hi) as [v Hv].
    destruct (lookup_lt_is_Some_2 a i ltac:(lia)) as [w Hw].
    rewrite (nth_lookup_Some _ _ 0 _ Hv), (nth_lookup_Some _ _ 0 _ Hw).
    apply nth_lookup_Some. now rewrite lookup_zip_with, Hv, Hw.
  - rewrite ExplicitLinFunc_apply_dot
      by (rewrite length_zip_with; lia).
    f_equal. now apply dot_axpy.
Qed.

Lemma ExplicitLinFunc_apply_linear_witness :
  let op := ExplicitLinFunc.__init__ [1; 2] in
  exists fa fb,
    ExplicitLinFunc.apply op [3; 4] = Ok fa /\
    ExplicitLinFunc.apply op [5; 6] = Ok fb /\
    fa = big_sum (length [1; 2]) (fun i => entry [1; 2] i * entry [3; 4] i) /\
    ExplicitLinFunc.apply op (zip_with (fun ai bi => ai + 2 * bi) [3; 4] [5; 6])
      = Ok (fa + 2 * fb).
Proof.
  apply (ExplicitLinFunc_apply_linear [1; 2] [3; 4] [5; 6] 2); reflexivity.
Defined.

(** X18. The Lipschitz constant [ExplicitLinFunc.__init__] stores, the l2
    norm of the vector, is a valid bound:
    [|apply(a) - apply(b)| <= ||vec||_2 * ||a - b||_2]. *)
Theorem ExplicitLinFunc_lipschitz (vec a b : row) :
  length a = length vec -> length b = length vec ->
  let op := ExplicitLinFunc.__init__ vec in
  exists fa fb,
    ExplicitLinFunc.apply op a = Ok fa /\
    ExplicitLinFunc.apply op b = Ok fb /\
    Rabs (fa - fb)
    <= ExplicitLinFunc._lipschitz op
       * xp.linalg_norm xp.ord2 (zip_with Rminus a b).
Proof.
  intros Ha Hb op. unfold op.
  exists (xp.sum (zip_with Rmult vec a)), (xp.sum (zip_with Rmult vec b)).
  split; [now apply ExplicitLinFunc_apply_dot|].
  split; [now apply ExplicitLinFunc_apply_dot|].
  rewrite (dot_minus vec a b Ha Hb). apply cauchy_schwarz.
Qed.

Lemma ExplicitLinFunc_lipschitz_witness :
  let op := ExplicitLinFunc.__init__ [1; 2] in
  exists fa fb,
    ExplicitLinFunc.apply op [3; 4] = Ok fa /\
    ExplicitLinFunc.apply op [5; 6] = Ok fb /\
    Rabs (fa - fb)
    <= ExplicitLinFunc._lipschitz op
       * xp.linalg_norm xp.ord2 (zip_with Rminus [3; 4] [5; 6]).
Proof.
  apply (ExplicitLinFunc_lipschitz [1; 2] [3; 4] [5; 6]); reflexivity.
Defined.

Lemma broadcast_multiply_scalar (c : R) (vec : row) :
  broadcast_multiply [c] vec = Ok (map (fun w => c * w) vec).
Proof.
  unfold broadcast_multiply. destruct (decide _) as [H|H]; [|reflexivity].
  destruct vec as [|v [|w vec]]; try discriminate. reflexivity.
Qed.

Lemma dot_scale (c : R) (arr vec : row) :
  xp.sum (zip_with Rmult arr (map (fun w => c * w) vec))
  = xp.sum (zip_with Rmult vec arr) * c.
Proof.
  revert vec. induction arr as [|a arr IH]; intros [|v vec]; cbn [zip_with map];
    try (unfold xp.sum; cbn; lra).
  rewrite !sum_cons, IH. ring.
Qed.

(** X19. [ExplicitLinFunc.adjoint] is the adjoint of [apply], and
    [gradient] is constant: for an input [arr] of the size of the vector
    and a scalar [c], [adjoint([c]) = c vec],
    [apply(arr) * c = <arr, adjoint([c])>], and [gradient(arr) = vec]. *)
Theorem ExplicitLinFunc_adjoint (vec arr : row) (c : R) :
  length arr = length vec ->
  let op := ExplicitLinFunc.__init__ vec in
  exists f g,
    ExplicitLinFunc.apply op arr = Ok f /\
    ExplicitLinFunc.adjoint op [c] = Ok g /\
    g = map (fun w => c * w) vec /\
    f * c = xp.sum (zip_with Rmult arr g) /\
    ExplicitLinFunc.gradient op arr = Ok vec.
Proof.
  intros Ha op. unfold op. eexists _, _.
  split; [now apply ExplicitLinFunc_apply_dot|].
  split; [apply broadcast_multiply_scalar|]. split; [reflexivity|]. split.
  - now rewrite dot_scale.
  - unfold ExplicitLinFunc.gradient, broadcast_to. cbn [ExplicitLinFunc._vec
      ExplicitLinFunc.__init__]. now rewrite decide_True.
Qed.

Lemma ExplicitLinFunc_adjoint_witness :
  let op := ExplicitLinFunc.__init__ [1; 2] in
  exists f g,
    ExplicitLinFunc.apply op [3; 4] = Ok f /\
    ExplicitLinFunc.adjoint op [5] = Ok g /\
    g = map (fun w => 5 * w) [1; 2] /\
    f * 5 = xp.sum (zip_with Rmult [3; 4] g) /\
    ExplicitLinFunc.gradient op [3; 4] = Ok [1; 2].
Proof.
  apply (ExplicitLinFunc_adjoint [1; 2] [3; 4] 5). reflexivity.
Defined.

(** X20. Shapes at [ExplicitLinFunc.apply]: an input whose size differs
    from that of the vector raises, unless one of the two has size one; a
    size-one input is stretched, so that [apply([c]) = c * sum(vec)]. *)
Theorem ExplicitLinFunc_apply_shapes (vec arr : row) (c : R) :
  let op := ExplicitLinFunc.__init__ vec in
  (length arr <> length vec -> length arr <> 1%nat -> length vec <> 1%nat ->
     ExplicitLinFunc.apply op arr = Raise np.broadcast_error) /\
  (length vec <> 1%nat ->
     ExplicitLinFunc.apply op [c] = Ok (xp.sum vec * c)).
Proof.
  intros op. unfold op, ExplicitLinFunc.apply, broadcast_multiply.
  cbn [ExplicitLinFunc._vec ExplicitLinFunc.__init__]. split.
  - intros H H1 Hv. rewrite decide_False by congruence.
    destruct vec as [|v [|v' vec]], arr as [|a [|a' arr]]; cbn in *;
      try congruence; reflexivity.
  - intros Hv. rewrite decide_False by (cbn; congruence).
    destruct vec as [|v [|v' vec]]; cbn in *; try congruence.
    + unfold xp.sum. cbn. f_equal. ring.
    + f_equal.
      change (xp.sum (map (fun w => w * c) (v :: v' :: vec))
              = xp.sum (v :: v' :: vec) * c).
      rewrite (map_ext _ (fun w => c * (fun u => u) w)) by (intros; ring).
      rewrite sum_map_scale, map_id. ring.
Qed.

Lemma ExplicitLinFunc_apply_shapes_witness :
  ExplicitLinFunc.apply (ExplicitLinFunc.__init__ [1; 2]) [3; 4; 5]
    = Raise np.broadcast_error /\
  ExplicitLinFunc.apply (ExplicitLinFunc.__init__ [1; 2]) [7]
    = Ok (xp.sum [1; 2] * 7).
Proof.
  split.
  - apply (proj1 (ExplicitLinFunc_apply_shapes [1; 2] [3; 4; 5] 0)); cbn; lia.
  - apply (proj2 (ExplicitLinFunc_apply_shapes [1; 2] [] 7)). cbn. lia.
Defined.

(** ** More on the solver *)

(** The run of [m_step], in terms of the arrays it computes. *)
Lemma m_step_run (op : PosDefOp) (A : row -> row)
    (mst : gmap string loc) (h : heap) (x r p : loc) (X Rs P : array) :
  computes op A -> (forall u, length (A u) = length u) ->
  mst !! "x" = Some x -> mst !! "residual" = Some r ->
  mst !! "conjugate_dir" = Some p ->
  x <> r -> x <> p -> r <> p ->
  h !! x = Some X -> h !! r = Some Rs -> h !! p = Some P ->
  np.shape X = np.shape Rs -> np.shape Rs = np.shape P ->
  exists h',
    CG.m_step op mst h = Ok (mst, h') /\
    h' !! x = Some (StepValues.x_after X Rs P (map A P)) /\
    h' !! r = Some (StepValues.r_after Rs P (map A P)) /\
    h' !! p = Some (StepValues.p_after Rs P (map A P)) /\
    forall k w, k <> x -> k <> r -> k <> p ->
                h !! k = Some w -> h' !! k = Some w.
Proof.
  intros Hop HA Hmx Hmr Hmp Hxr Hxp Hrp Hx Hr Hp HsX HsR.
  destruct (Hop h p P Hp) as (Ap & h1 & Happly & HAp & Hfresh & Hkeep).
  pose proof (lookup_lt_Some _ _ _ Hx) as Hxlt.
  pose proof (lookup_lt_Some _ _ _ Hr) as Hrlt.
  pose proof (lookup_lt_Some _ _ _ Hp) as Hplt.
  assert (HApx : Ap <> x) by (destruct Hfresh; lia).
  assert (HApr : Ap <> r) by (destruct Hfresh; lia).
  pose proof (Hkeep _ _ Hx) as Hx1. pose proof (Hkeep _ _ Hr) as Hr1.
  pose proof (Hkeep _ _ Hp) as Hp1.
  pose proof (shape_map A P HA) as HsAP.
  pose proof (shape_length _ _ HsX) as HlX.
  pose proof (shape_length _ _ HsR) as HlR.
  pose proof (shape_length _ _ HsAP) as HlAP.
  pose proof (alpha_length Rs P (map A P) HlR HlAP) as Hla.
  pose proof (beta_length Rs P (map A P) HsR HsAP) as Hlb.
  pose proof (r_after_shape Rs P (map A P) HsR HsAP) as HsR'.
  unfold CG.m_step.
  step (run_dict_get _ _ _ h Hmx). step (run_dict_get _ _ _ h Hmr).
  step (run_dict_get _ _ _ h Hmp). step Happly.
  step (run_load _ _ _ Hr1). step (run_load _ _ _ Hp1).
  step (run_load _ _ _ HAp).
  rewrite binop_Ok by congruence. step (run_lift (zip_with (zip_with Rmult) P (map A P)) h1).
  rewrite colop_Ok
    by (unfold np.square, np.norm_rows, np.sum_rows;
        rewrite !length_map, length_zip_with; lia).
  fold (StepValues.alpha Rs P (map A P)).
  rewrite run_bind, run_lift. cbv beta iota.
  rewrite scale_Ok by lia. rewrite run_bind, run_lift. cbv beta iota.
  (* x += alpha * p *)
  rewrite run_bind, (run_inplace Rplus x X _ h1 Hx1)
    by (unfold StepValues.scaled; rewrite shape_scale by lia; congruence).
  cbv beta iota.
  fold (StepValues.x_after X Rs P (map A P)).
  set (h2 := <[x := StepValues.x_after X Rs P (map A P)]> h1).
  assert (HAp2 : h2 !! Ap = Some (map A P))
    by (unfold h2; now rewrite list_lookup_insert_ne).
  assert (Hr2 : h2 !! r = Some Rs)
    by (unfold h2; now rewrite list_lookup_insert_ne).
  assert (Hp2 : h2 !! p = Some P)
    by (unfold h2; now rewrite list_lookup_insert_ne).
  step (run_load _ _ _ HAp2).
  rewrite scale_Ok by lia. rewrite run_bind, run_lift. cbv beta iota.
  (* r -= alpha * Ap *)
  rewrite run_bind, (run_inplace Rminus r Rs _ h2 Hr2)
    by (unfold StepValues.scaled; rewrite shape_scale by lia; congruence).
  cbv beta iota.
  fold (StepValues.r_after Rs P (map A P)).
  set (h3 := <[r := StepValues.r_after Rs P (map A P)]> h2).
  assert (Hr3 : h3 !! r = Some (StepValues.r_after Rs P (map A P))).
  { unfold h3. apply list_lookup_insert_eq.
    unfold h2. rewrite length_insert. now apply lookup_lt_Some in Hr1. }
  assert (Hp3 : h3 !! p = Some P)
    by (unfold h3; now rewrite list_lookup_insert_ne).
  step (run_load _ _ _ Hr3).
  rewrite colop_Ok
    by (unfold np.square, np.norm_rows; rewrite !length_map;
        now apply shape_length).
  fold (StepValues.beta Rs P (map A P)).
  rewrite run_bind, run_lift. cbv beta iota.
  (* p *= beta *)
  rewrite run_bind, (run_inplace_scale p P _ h3 Hp3) by lia.
  cbv beta iota.
  set (h4 := <[p := _]> h3).
  assert (Hr4 : h4 !! r = Some (StepValues.r_after Rs P (map A P)))
    by (unfold h4; now rewrite list_lookup_insert_ne).
  assert (Hp4 : h4 !! p
                = Some (zip_with (fun r c => map (fun v => v * c) r) P
                          (StepValues.beta Rs P (map A P)))).
  { unfold h4. apply list_lookup_insert_eq. now apply lookup_lt_Some in Hp3. }
  step (run_load _ _ _ Hr4).
  (* p += r *)
  rewrite run_bind, (run_inplace Rplus p _ _ h4 Hp4)
    by (rewrite shape_scale_r by lia; congruence).
  cbv beta iota.
  fold (StepValues.p_after Rs P (map A P)).
  rewrite run_ret.
  rewrite (insert_id mst "conjugate_dir" p Hmp), (insert_id mst "residual" r Hmr),
    (insert_id mst "x" x Hmx).
  eexists. split; [reflexivity|].
  split; [|split; [|split]].
  - unfold h4, h3, h2. rewrite !list_lookup_insert_ne by congruence.
    apply list_lookup_insert_eq. now apply lookup_lt_Some in Hx1.
  - unfold h4. rewrite !list_lookup_insert_ne by congruence. exact Hr3.
  - apply list_lookup_insert_eq. unfold h4. rewrite length_insert.
    now apply lookup_lt_Some in Hp3.
  - intros k w Hkx Hkr Hkp Hk. unfold h4, h3, h2.
    rewrite !list_lookup_insert_ne by congruence. now apply Hkeep.
Qed.

(** X21. [m_init] without an initial point.  It binds [x], [residual] and
    [conjugate_dir] to three new, pairwise distinct objects of the shape of
    [b]: zeros, [b - A 0], and a copy of the residual that is a separate
    object; [b] itself is bound as given and not modified. *)
Theorem m_init_builds_state (op : PosDefOp) (A : row -> row)
    (mst : gmap string loc) (h : heap) (b : loc) (B : array) :
  computes op A -> (forall u, length (A u) = length u) ->
  h !! b = Some B ->
  let Z := np.zeros_like B in
  let R0 := zip_with (zip_with Rminus) B (map A Z) in
  exists mst' h' x r p,
    CG.m_init op mst b None h = Ok (mst', h') /\
    mst' !! "b" = Some b /\ mst' !! "x" = Some x /\
    mst' !! "residual" = Some r /\ mst' !! "conjugate_dir" = Some p /\
    x <> r /\ x <> p /\ r <> p /\ b <> x /\ b <> r /\ b <> p /\
    h' !! b = Some B /\ h' !! x = Some Z /\
    h' !! r = Some R0 /\ h' !! p = Some R0 /\
    np.shape Z = np.shape R0.
Proof. apply m_init_state. Qed.

Lemma m_init_builds_state_witness :
  let mst : gmap string loc := ∅ in
  let h : heap := [ [[1; 2]] ] in
  let Z := np.zeros_like [[1; 2]] in
  let R0 := zip_with (zip_with Rminus) [[1; 2]] (map (fun u => u) Z) in
  exists mst' h' x r p,
    CG.m_init IdentityOperator mst 0%nat None h = Ok (mst', h') /\
    mst' !! "b" = Some 0%nat /\ mst' !! "x" = Some x /\
    mst' !! "residual" = Some r /\ mst' !! "conjugate_dir" = Some p /\
    x <> r /\ x <> p /\ r <> p /\ 0%nat <> x /\ 0%nat <> r /\ 0%nat <> p /\
    h' !! 0%nat = Some [[1; 2]] /\ h' !! x = Some Z /\
    h' !! r = Some R0 /\ h' !! p = Some R0 /\
    np.shape Z = np.shape R0.
Proof.
  intros mst h.
  apply (m_init_builds_state IdentityOperator (fun u => u) mst h 0 [[1; 2]]).
  - exact IdentityOperator_computes.
  - reflexivity.
  - reflexivity.
Defined.

Lemma row_residual_lists (c : R) (b ax ap : row) :
  zip_with (fun ri qi => ri - c * qi) (zip_with Rminus b ax) ap
  = zip_with Rminus b (Recurrence.axpy c ax ap).
Proof.
  unfold Recurrence.axpy. revert ax ap.
  induction b as [|v b IH]; intros [|u ax] [|w ap]; cbn; try reflexivity.
  rewrite IH. f_equal. ring.
Qed.

Lemma batch_residual (A : row -> row) (X B P : array) :
  linear A -> np.shape X = np.shape P -> length B = length X ->
  let Rs := zip_with (zip_with Rminus) B (map A X) in
  Recurrence.R_new A X Rs P
  = zip_with (zip_with Rminus) B (map A (Recurrence.X_new A X Rs P)).
Proof.
  intros Hlin. cbn zeta.
  unfold Recurrence.R_new, Recurrence.X_new, Recurrence.rows3, np.shape.
  revert B P. induction X as [|x X IH]; intros [|b B] [|p P] Hs Hl;
    try discriminate; [reflexivity|].
  injection Hs as Hxp Hs. injection Hl as Hl.
  cbn [map zip_with zip fst snd]. rewrite (IH B P Hs Hl). f_equal.
  unfold Recurrence.r_new, Recurrence.x_new.
  rewrite (Hlin _ x p Hxp). apply row_residual_lists.
Qed.

(** X22. The residual stays explicit.  For a linear operator, if before a
    step the stored residual is [b - A x], then after [m_step] the stored
    residual is [b - A x] for the new [x]; [b] is not modified. *)
Theorem m_step_keeps_residual (op : PosDefOp) (A : row -> row)
    (mst : gmap string loc) (h : heap) (x r p b : loc) (X P B : array) :
  computes op A -> (forall u, length (A u) = length u) -> linear A ->
  mst !! "x" = Some x -> mst !! "residual" = Some r ->
  mst !! "conjugate_dir" = Some p -> mst !! "b" = Some b ->
  x <> r -> x <> p -> r <> p -> b <> x -> b <> r -> b <> p ->
  h !! x = Some X -> h !! p = Some P -> h !! b = Some B ->
  h !! r = Some (zip_with (zip_with Rminus) B (map A X)) ->
  np.shape B = np.shape X -> np.shape X = np.shape P ->
  exists h' X',
    CG.m_step op mst h = Ok (mst, h') /\
    h' !! x = Some X' /\ h' !! b = Some B /\
    h' !! r = Some (zip_with (zip_with Rminus) B (map A X')).
Proof.
  intros Hop HA Hlin Hmx Hmr Hmp Hmb Hxr Hxp Hrp Hbx Hbr Hbp Hx Hp Hb Hr HsB HsX.
  set (Rs := zip_with (zip_with Rminus) B (map A X)) in *.
  assert (HsR : np.shape Rs = np.shape X).
  { unfold Rs. rewrite shape_binop; [exact HsB|].
    now rewrite shape_map. }
  destruct (m_step_run op A mst h x r p X Rs P Hop HA Hmx Hmr Hmp Hxr Hxp Hrp
              Hx Hr Hp ltac:(congruence) ltac:(congruence))
    as (h' & Hrun & Hx' & Hr' & _ & Hkeep).
  destruct (step_values A X Rs P) as (Ex & Er & _).
  { apply shape_length. congruence. }
  { apply shape_length. congruence. }
  rewrite Ex in Hx'. rewrite Er in Hr'.
  exists h', (Recurrence.X_new A X Rs P).
  split; [exact Hrun|]. split; [exact Hx'|].
  split; [apply Hkeep; auto|].
  rewrite Hr'. f_equal. unfold Rs. apply batch_residual; [exact Hlin|exact HsX|].
  now apply shape_length.
Qed.

Lemma m_step_keeps_residual_witness :
  let mst : gmap string loc :=
    <["x" := 0%nat]> (<["residual" := 1%nat]>
      (<["conjugate_dir" := 2%nat]> (<["b" := 3%nat]> ∅))) in
  let h : heap :=
    [ [[0; 0]];
      zip_with (zip_with Rminus) [[1; 2]] (map (fun u => u) [[0; 0]]);
      [[1; 2]]; [[1; 2]] ] in
  exists h' X',
    CG.m_step IdentityOperator mst h = Ok (mst, h') /\
    h' !! 0%nat = Some X' /\ h' !! 3%nat = Some [[1; 2]] /\
    h' !! 1%nat
    = Some (zip_with (zip_with Rminus) [[1; 2]] (map (fun u => u) X')).
Proof.
  intros mst h.
  apply (m_step_keeps_residual IdentityOperator (fun u => u) mst h 0 1 2 3
           [[0; 0]] [[1; 2]] [[1; 2]]);
    try reflexivity; try lia.
  - exact IdentityOperator_computes.
  - intros c u v _. reflexivity.
Defined.

Lemma row_minus_zeros (b : row) :
  zip_with Rminus b (map (fun _ => 0) b) = b.
Proof.
  induction b as [|v b IH]; cbn; [reflexivity|]. rewrite IH. f_equal. ring.
Qed.

Lemma batch_minus_zeros (B : array) :
  zip_with (zip_with Rminus) B (map (fun u => u) (np.zeros_like B)) = B.
Proof.
  unfold np.zeros_like. rewrite map_id.
  induction B as [|b B IH]; cbn; [reflexivity|].
  now rewrite IH, row_minus_zeros.
Qed.

Lemma norm_sq_dot (r : row) :
  Recurrence.norm_sq r = Recurrence.dot r r.
Proof.
  unfold Recurrence.norm_sq, Recurrence.dot.
  rewrite <- Rsqr_pow2. unfold xp.linalg_norm.
  rewrite Rsqr_sqrt by apply sum_squares_nonneg. f_equal.
  induction r as [|v r IH]; cbn; [reflexivity|]. now rewrite IH.
Qed.

Lemma identity_first_step (b : row) :
  nonzero_row b ->
  Recurrence.x_new (fun u => u) (map (fun _ => 0) b) b b = b.
Proof.
  intros Hb. unfold Recurrence.x_new, Recurrence.alpha.
  rewrite norm_sq_dot.
  assert (Hd : Recurrence.dot b b <> 0).
  { unfold Recurrence.dot.
    replace (zip_with Rmult b b) with (map (fun v => v * v) b)
      by (clear; induction b as [|v b IH]; cbn; [reflexivity|]; now rewrite IH).
    pose proof (sum_squares_pos b Hb). lra. }
  replace (Recurrence.dot b b / Recurrence.dot b b) with 1 by (field; exact Hd).
  unfold Recurrence.axpy. clear. induction b as [|v b IH]; cbn; [reflexivity|].
  rewrite IH. f_equal. ring.
Qed.

Lemma batch_identity_first_step (B : array) :
  Forall nonzero_row B ->
  Recurrence.X_new (fun u => u) (np.zeros_like B) B B = B.
Proof.
  unfold Recurrence.X_new, Recurrence.rows3, np.zeros_like.
  induction 1 as [|b B Hb _ IH]; cbn [map zip zip_with fst snd]; [reflexivity|].
  now rewrite IH, identity_first_step.
Qed.

Lemma row_minus_self_norm (b : row) :
  xp.linalg_norm xp.ord2 (zip_with Rminus b b) = 0.
Proof.
  apply norm2_zero. induction b as [|v b IH]; cbn; constructor; [ring|exact IH].
Qed.

(** X23. With the identity operator and no initial point, one step
    solves the system: after [m_init] and one [m_step] the iterate [x]
    holds [b] (for a [b] whose rows are non-zero), and the default
    stopping criterion reports convergence. *)
Theorem identity_converges_in_one_step
    (mst : gmap string loc) (h : heap) (b : loc) (B : array) :
  h !! b = Some B -> Forall nonzero_row B ->
  exists mst1 h1 h2 h3 x,
    CG.m_init IdentityOperator mst b None h = Ok (mst1, h1) /\
    CG.m_step IdentityOperator mst1 h1 = Ok (mst1, h2) /\
    mst1 !! "x" = Some x /\ h2 !! x = Some B /\ h2 !! b = Some B /\
    AbsError_stop (CG.default_stop_crit IdentityOperator mst1) mst1 h2
    = Ok (true, h3).
Proof.
  intros Hb HB.
  destruct (m_init_state IdentityOperator (fun u => u) mst h b B
              IdentityOperator_computes ltac:(reflexivity) Hb)
    as (mst1 & h1 & x & r & p & Hinit & Hmb & Hmx & Hmr & Hmp & Hxr & Hxp & Hrp
        & Hbx & Hbr & Hbp & Hb1 & Hx1 & Hr1 & Hp1 & Hshape).
  rewrite batch_minus_zeros in Hr1, Hp1, Hshape.
  destruct (m_step_run IdentityOperator (fun u => u) mst1 h1 x r p
              (np.zeros_like B) B B IdentityOperator_computes
              ltac:(reflexivity) Hmx Hmr Hmp Hxr Hxp Hrp Hx1 Hr1 Hp1
              Hshape eq_refl)
    as (h2 & Hstep & Hx2 & _ & _ & Hkeep).
  destruct (step_values (fun u => u) (np.zeros_like B) B B) as (Ex & _ & _).
  { now apply shape_length. }
  { reflexivity. }
  rewrite Ex, (batch_identity_first_step B HB) in Hx2.
  pose proof (Hkeep b B ltac:(congruence) ltac:(congruence) ltac:(congruence) Hb1)
    as Hb2.
  destruct (default_stop_crit_run IdentityOperator (fun u => u) mst1 h2 b x B B
              IdentityOperator_computes Hmb Hmx Hb2 Hx2
              ltac:(now rewrite map_id))
    as (h3 & Hstop & _).
  exists mst1, h1, h2, h3, x. repeat split; try assumption.
  rewrite Hstop. do 2 f_equal. rewrite map_id.
  clear. induction B as [|b B IH]; cbn [zip_with forallb]; [reflexivity|].
  rewrite IH, andb_true_r. unfold below. apply bool_decide_eq_true.
  rewrite row_minus_self_norm. lra.
Qed.

Lemma identity_converges_in_one_step_witness :
  exists mst1 h1 h2 h3 x,
    CG.m_init IdentityOperator ∅ 0%nat None [ [[1; 2]] ] = Ok (mst1, h1) /\
    CG.m_step IdentityOperator mst1 h1 = Ok (mst1, h2) /\
    mst1 !! "x" = Some x /\ h2 !! x = Some [[1; 2]] /\
    h2 !! 0%nat = Some [[1; 2]] /\
    AbsError_stop (CG.default_stop_crit IdentityOperator mst1) mst1 h2
    = Ok (true, h3).
Proof.
  apply (identity_converges_in_one_step ∅ [ [[1; 2]] ] 0 [[1; 2]]).
  - reflexivity.
  - constructor; [|constructor]. apply Exists_cons_hd. lra.
Defined.

(** ** The Moreau envelope data of the tests *)

Lemma soft_huber (mu v : R) :
  0 < mu ->
  Rabs (soft mu v) + 1 / 2 / mu * ((soft mu v - v) * (soft mu v - v))
  = huber mu v.
Proof.
  intros Hmu. unfold huber.
  destruct (Rle_dec (Rabs v) mu) as [Hin|Hout].
  - rewrite soft_inside by exact Hin. rewrite Rabs_R0. field. lra.
  - pose proof (soft_cases mu v ltac:(lra)) as (Hp & Hn & _).
    unfold Rabs in Hout |- *. destruct (Rcase_abs v).
    + rewrite Hn by lra. destruct (Rcase_abs _); [field; lra|lra].
    + rewrite Hp by lra. destruct (Rcase_abs _); [lra|field; lra].
Qed.

Lemma sum_map_plus (f g : R -> R) (x : row) :
  xp.sum (map (fun v => f v + g v) x) = xp.sum (map f x) + xp.sum (map g x).
Proof.
  induction x as [|v x IH]; cbn [map]; [unfold xp.sum; cbn; lra|].
  rewrite !sum_cons, IH. lra.
Qed.

Lemma zip_minus_map_l (f : R -> R) (x : row) :
  zip_with Rminus (map f x) x = map (fun v => f v - v) x.
Proof. induction x as [|v x IH]; cbn; [reflexivity|]. now rewrite IH. Qed.

Lemma zip_minus_map_r (f : R -> R) (x : row) :
  zip_with Rminus x (map f x) = map (fun v => v - f v) x.
Proof. induction x as [|v x IH]; cbn; [reflexivity|]. now rewrite IH. Qed.

(** X24. The data the tests expect of the Moreau envelope of the l1 norm.
    The reference [L1Norm] of the test file computes what the library's
    [L1Norm] computes; for [mu > 0] the expected envelope value is the sum
    of the Huber function over the entries, and the expected gradient is
    the input clipped to magnitude [mu] and divided by [mu], so that each
    of its entries has magnitude at most [1]. *)
Theorem moreau_data (x : row) (mu : R) :
  0 < mu ->
  TestProxFunc.L1Norm.apply x = L1Norm.apply x /\
  TestProxFunc.L1Norm.prox x mu = L1Norm.prox x mu /\
  TestProxFunc.data_apply x mu = [xp.sum (map (huber mu) x)] /\
  TestProxFunc.data_grad x mu = map (fun v => clip mu v / mu) x /\
  Forall (fun g => Rabs g <= 1) (TestProxFunc.data_grad x mu).
Proof.
  intros Hmu.
  assert (Hprox : TestProxFunc.L1Norm.prox x mu = soft_threshold mu x)
    by apply soft_zip.
  assert (Hgrad : TestProxFunc.data_grad x mu = map (fun v => clip mu v / mu) x).
  { unfold TestProxFunc.data_grad. rewrite Hprox. unfold soft_threshold.
    rewrite zip_minus_map_r, map_map. apply map_ext. intros v.
    pose proof (soft_plus_clip mu v). f_equal. lra. }
  split; [reflexivity|]. split; [reflexivity|]. split; [|split].
  - unfold TestProxFunc.data_apply, TestProxFunc.L1Norm.apply.
    rewrite Hprox. cbn [map]. f_equal. unfold soft_threshold.
    rewrite zip_minus_map_l.
    rewrite <- Rsqr_pow2. unfold xp.linalg_norm.
    rewrite Rsqr_sqrt by apply sum_squares_nonneg.
    unfold xp.fabs. rewrite !map_map.
    rewrite <- (sum_map_scale (1 / 2 / mu) (fun v => (soft mu v - v) * (soft mu v - v))).
    rewrite <- (sum_map_plus (fun v => Rabs (soft mu v))).
    apply sum_map_eq, Forall_forall. intros v _. now apply soft_huber.
  - exact Hgrad.
  - rewrite Hgrad, Forall_map. apply Forall_forall. intros v _. cbn.
    pose proof (clip_bound mu v ltac:(lra)) as Hc.
    unfold Rdiv. rewrite Rabs_mult, (Rabs_right (/ mu)).
    + apply (Rmult_le_reg_r mu); [lra|].
      replace (Rabs (clip mu v) * / mu * mu) with (Rabs (clip mu v))
        by (field; lra). lra.
    + apply Rle_ge, Rlt_le, Rinv_0_lt_compat, Hmu.
Qed.

Lemma moreau_data_witness :
  TestProxFunc.data_apply [3; -1] 2 = [xp.sum (map (huber 2) [3; -1])] /\
  TestProxFunc.data_grad [3; -1] 2 = map (fun v => clip 2 v / 2) [3; -1].
Proof.
  destruct (moreau_data [3; -1] 2 ltac:(lra)) as (_ & _ & Ha & Hg & _).
  split; assumption.
Defined.

(** ** All-zero input *)

(** X25. On an all-zero array of any size the two algorithms of
    [SquaredL1Norm] part ways: [_prox_root], which tests the norm of its
    input first, returns the input; [_prox_sort] finds no positive test
    value and raises the [ValueError] of [xp.max] on an empty array. *)
Theorem squared_l1_zero_input (x : row) (tau : R) :
  Forall (fun v => v = 0) x ->
  SquaredL1Norm._prox_root x tau = Ok x /\
  SquaredL1Norm._prox_sort x tau
  = Raise (ValueError
      "zero-size array to reduction operation maximum which has no identity").
Proof.
  intros Hx. split; [now apply prox_root_zero|now apply prox_sort_zero].
Qed.

Lemma squared_l1_zero_input_witness :
  SquaredL1Norm._prox_root [0; 0] 3 = Ok [0; 0] /\
  SquaredL1Norm._prox_sort [0; 0] 3
  = Raise (ValueError
      "zero-size array to reduction operation maximum which has no identity").
Proof.
  apply (squared_l1_zero_input [0; 0] 3). repeat constructor.
Defined.

(** X26. The fixed points of [L1Ball.prox] are the points of the ball:
    for [radius >= 0], [prox] returns its input exactly when the indicator
    [apply] is [0] there. *)
Theorem L1Ball_prox_fixed_points (radius t : R) (x : row) :
  0 <= radius ->
  (L1Ball.prox radius x t = Ok x <-> L1Ball.apply radius x = [finite 0]).
Proof.
  intros Hr. unfold L1Ball.apply.
  destruct (Rle_dec (pylinalg.norm xp.ord1 x) radius) as [Hin|Hout].
  - unfold L1Ball.prox. destruct (Rle_dec _ _); [|contradiction].
    split; reflexivity.
  - split; [|discriminate]. intros Heq. exfalso.
    unfold pylinalg.norm in Hout.
    destruct (L1Ball_prox_outside radius t x Hr ltac:(lra))
      as (mu & Hmu & Hex & Hp & _).
    rewrite Hp in Heq. injection Heq as Heq.
    pose proof (norm1_soft mu x Hmu) as Hn. rewrite Heq, Hex in Hn. lra.
Qed.

Lemma L1Ball_prox_fixed_points_witness :
  L1Ball.prox 1 [-3; 1] 1 = Ok [-3; 1] <-> L1Ball.apply 1 [-3; 1] = [finite 0].
Proof. apply (L1Ball_prox_fixed_points 1 1 [-3; 1]). lra. Defined.
